(** * QChem output parsing ([pymatgen/io/qchem_io/outputs.py])

    A shallow embedding of the class [QCCalc]: the scalar reader
    [read_pattern], the table reader [read_table_pattern], the four
    table configurations and the constructor, together with the parts
    of the Python runtime they call: the [re] module (pattern syntax,
    backtracking matcher, [search], [finditer], [groups], [groupdict]),
    [str.split], [monty.re.regrep] and [monty.io.zopen].

    The model:
    - A text is a string of the code points 0 to 255; a line ends with
      the character 10. The files are a function from names to the text
      that [zopen(name, 'rt').read()] returns; a name without a text
      cannot be opened. A file that opens and whose bytes do not decode
      is not among them: what is proved of a file is proved of a file
      that is read as text, or of a name that cannot be opened.
    - A pattern is its source string, parsed by [Re.compile]. The
      fragment has literals, [.], bracketed sets, the class escapes
      [\d \s \w \D \S \W], escaped punctuation and control
      characters, plain, non-capturing and named groups, alternation,
      the greedy [*], [+] and [?], the anchors [^] and [$], and the flags
      [MULTILINE] and [DOTALL]. Lazy, possessive and counted repetition,
      look-around, back-references, [\b], [\A], [\Z], inline flags and
      non-ASCII group names are outside it: [Re.compile] gives no
      pattern for them, as for a malformed pattern. Where a theorem
      depends on what a pattern does, it assumes that [Re.compile]
      compiles it.
    - The matcher follows the order in which [re] tries alternatives, so
      that it finds the same match and the same groups.
    - A method runs on the object and returns or raises; the object it
      leaves is part of the outcome in both cases.
    - A [postprocess] callable is a function of the captured string: it
      returns a value or raises, and touches nothing else. *)

From Stdlib Require Import String Ascii List ZArith Lia Bool.
From stdpp Require Import base option list gmap strings.

Local Open Scope string_scope.
Local Open Scope list_scope.
Local Open Scope nat_scope.

(** ** Characters and text *)

Abbreviation chars := (list ascii).

Definition code (a : ascii) : nat := nat_of_ascii a.

Definition LF : ascii := ascii_of_nat 10.

Definition in_range (lo hi : nat) (a : ascii) : bool :=
  (lo <=? code a)%nat && (code a <=? hi)%nat.

(** ASCII letters and digits, and the characters of an ASCII
    identifier. *)
Definition is_alnum (a : ascii) : bool :=
  in_range 97 122 a || in_range 65 90 a || in_range 48 57 a.

Definition is_ident (a : ascii) : bool := is_alnum a || (code a =? 95).

(** [\d], [\s] and [\w] of a [str] pattern, on the code points 0 to
    255: the decimal digits, the white space of [str.isspace] and the
    alphanumerics of [str.isalnum] with the underscore. *)
Definition is_digit (a : ascii) : bool := in_range 48 57 a.

Definition is_space (a : ascii) : bool :=
  in_range 9 13 a || in_range 28 32 a || (code a =? 133) || (code a =? 160).

Definition is_word (a : ascii) : bool :=
  is_ident a
  || (code a =? 170) || in_range 178 179 a || (code a =? 181)
  || in_range 185 186 a || in_range 188 190 a
  || in_range 192 214 a || in_range 216 246 a || in_range 248 255 a.

(** [str.split(sep)] for a one-character separator: [k] separators give
    [k + 1] pieces, in order. *)
Fixpoint split_on (sep : ascii) (s : chars) : list chars :=
  match s with
  | [] => [[]]
  | a :: s' =>
      if Ascii.eqb a sep then [] :: split_on sep s'
      else match split_on sep s' with
           | [] => [[a]]
           | l :: ls => (a :: l) :: ls
           end
  end.

Definition str_split (sep : ascii) (s : string) : list string :=
  map string_of_list_ascii (split_on sep (list_ascii_of_string s)).

(** ** The [re] module *)

Module Re.

(** One member of a bracketed set, or a class escape. *)
Inductive set_item :=
| SChar (c : ascii)
| SRange (lo hi : ascii)
| SDigit (neg : bool)
| SSpace (neg : bool)
| SWord (neg : bool).

Definition item_has (a : ascii) (i : set_item) : bool :=
  match i with
  | SChar c => Ascii.eqb a c
  | SRange lo hi => in_range (code lo) (code hi) a
  | SDigit neg => xorb neg (is_digit a)
  | SSpace neg => xorb neg (is_space a)
  | SWord neg => xorb neg (is_word a)
  end.

(** Parsed patterns. A non-capturing group [(?:...)] leaves no node. *)
Inductive regex :=
| Eps
| Lit (c : ascii)
| AnyChar
| InSet (negate : bool) (items : list set_item)
| Bol
| Eol
| Seq (r1 r2 : regex)
| Alt (r1 r2 : regex)
| Star (r : regex)
| Plus (r : regex)
| Opt (r : regex)
| Group (idx : nat) (r : regex).

Record flags := { MULTILINE : bool; DOTALL : bool }.

Definition no_flags : flags := {| MULTILINE := false; DOTALL := false |}.

(** A compiled pattern object: [groups] is the number of capturing
    groups and [groupindex] maps the names to their numbers, in the order
    the groups open. *)
Record pattern := {
  expr : regex;
  pflags : flags;
  groups_count : nat;
  groupindex : list (string * nat)
}.

(** *** Parsing *)

Record pstate := { next_group : nat; names : list (string * nat) }.

Definition presult : Type := option (regex * chars * pstate).

Definition is_quantifier (a : ascii) : bool :=
  Ascii.eqb a "*" || Ascii.eqb a "+" || Ascii.eqb a "?" || Ascii.eqb a "{".

(** Escapes common to both positions: class escapes, control
    characters, and punctuation standing for itself. *)
Definition escape_item (in_set : bool) (c : ascii) : option set_item :=
  if Ascii.eqb c "d" then Some (SDigit false)
  else if Ascii.eqb c "D" then Some (SDigit true)
  else if Ascii.eqb c "s" then Some (SSpace false)
  else if Ascii.eqb c "S" then Some (SSpace true)
  else if Ascii.eqb c "w" then Some (SWord false)
  else if Ascii.eqb c "W" then Some (SWord true)
  else if Ascii.eqb c "n" then Some (SChar LF)
  else if Ascii.eqb c "t" then Some (SChar (ascii_of_nat 9))
  else if Ascii.eqb c "r" then Some (SChar (ascii_of_nat 13))
  else if Ascii.eqb c "f" then Some (SChar (ascii_of_nat 12))
  else if Ascii.eqb c "v" then Some (SChar (ascii_of_nat 11))
  else if Ascii.eqb c "a" then Some (SChar (ascii_of_nat 7))
  else if Ascii.eqb c "b" && in_set then Some (SChar (ascii_of_nat 8))
  else if is_alnum c then None
  else Some (SChar c).

Definition item_regex (i : set_item) : regex :=
  match i with
  | SChar c => Lit c
  | _ => InSet false [i]
  end.

(** One member of a bracketed set: a character or an escape. *)
Definition set_member (s : chars) : option (set_item * chars) :=
  match s with
  | [] => None
  | c :: s1 =>
      if Ascii.eqb c "\" then
        match s1 with
        | [] => None
        | e :: s2 => i ← escape_item true e; Some (i, s2)
        end
      else Some (SChar c, s1)
  end.

(** After a member: a hyphen that is not the last character of the set
    starts a range, and what follows it is the upper end. *)
Definition range_end (s : chars) : option chars :=
  match s with
  | d :: h :: s' =>
      if Ascii.eqb d "-" && negb (Ascii.eqb h "]") then Some (h :: s') else None
  | _ => None
  end.

Definition make_range (i j : set_item) : option set_item :=
  match i, j with
  | SChar a, SChar b => if code a <=? code b then Some (SRange a b) else None
  | _, _ => None
  end.

(** The members of a bracketed set, up to the closing bracket. [first]
    is true at the first member, where a closing bracket is literal. *)
Fixpoint parse_set (fuel : nat) (first : bool) (s : chars)
  : option (list set_item * chars) :=
  match fuel with
  | O => None
  | S fuel =>
      match s with
      | [] => None
      | c :: s1 =>
          if Ascii.eqb c "]" && negb first then Some ([], s1)
          else
            '(i, s2) ← set_member s;
            match range_end s2 with
            | Some s3 =>
                '(j, s4) ← set_member s3;
                m ← make_range i j;
                '(its, s5) ← parse_set fuel false s4;
                Some (m :: its, s5)
            | None =>
                '(its, s5) ← parse_set fuel false s2;
                Some (i :: its, s5)
            end
      end
  end.

(** The name of [(?P<name>...)], up to the closing angle bracket. *)
Fixpoint parse_name (s : chars) : option (chars * chars) :=
  match s with
  | [] => None
  | c :: s1 =>
      if Ascii.eqb c ">" then Some ([], s1)
      else if is_ident c then
        '(n, s2) ← parse_name s1; Some (c :: n, s2)
      else None
  end.

Definition valid_name (n : chars) : bool :=
  match n with
  | [] => false
  | c :: _ => negb (is_digit c)
  end.

(** The three groups of the fragment. *)
Inductive opening :=
| Plain
| NonCapturing
| Named (name : string).

(** What follows an opening parenthesis. *)
Definition group_opening (s : chars) : option (opening * chars) :=
  match s with
  | q :: s1 =>
      if Ascii.eqb q "?" then
        match s1 with
        | k :: s2 =>
            if Ascii.eqb k ":" then Some (NonCapturing, s2)
            else if Ascii.eqb k "P" then
              match s2 with
              | l :: s3 =>
                  if Ascii.eqb l "<" then
                    '(n, s4) ← parse_name s3;
                    if valid_name n then
                      Some (Named (string_of_list_ascii n), s4)
                    else None
                  else None
              | [] => None
              end
            else None
        | [] => None
        end
      else Some (Plain, s)
  | [] => Some (Plain, s)
  end.

(** A capturing group takes the next number when it opens; a name can
    be given once. *)
Definition open_group (o : opening) (st : pstate)
  : option (pstate * (regex → regex)) :=
  let i := S (next_group st) in
  match o with
  | NonCapturing => Some (st, λ r, r)
  | Plain => Some ({| next_group := i; names := names st |}, Group i)
  | Named name =>
      if bool_decide (name ∈ (names st).*1) then None
      else Some ({| next_group := i; names := names st ++ [(name, i)] |}, Group i)
  end.

(** An item that is not a group. *)
Definition simple_atom (s : chars) : option (regex * chars) :=
  match s with
  | [] => None
  | c :: s1 =>
      if Ascii.eqb c "[" then
        match s1 with
        | n :: s2 =>
            if Ascii.eqb n "^" then
              '(its, s3) ← parse_set (S (length s2)) true s2;
              Some (InSet true its, s3)
            else
              '(its, s3) ← parse_set (S (length s1)) true s1;
              Some (InSet false its, s3)
        | [] => None
        end
      else if Ascii.eqb c "\" then
        match s1 with
        | e :: s2 => i ← escape_item false e; Some (item_regex i, s2)
        | [] => None
        end
      else if Ascii.eqb c "." then Some (AnyChar, s1)
      else if Ascii.eqb c "^" then Some (Bol, s1)
      else if Ascii.eqb c "$" then Some (Eol, s1)
      else if is_quantifier c then None
      else Some (Lit c, s1)
  end.

(** A repetition operator after an item. Anchors cannot be repeated, a
    repeated item cannot be repeated again; lazy, possessive and counted
    repetitions are outside the fragment. *)
Definition quantify (r : regex) (s : chars) : option (regex * chars) :=
  match s with
  | q :: s1 =>
      if is_quantifier q then
        match r with
        | Bol | Eol => None
        | _ =>
            match s1 with
            | q' :: _ => if is_quantifier q' then None else Some tt
            | [] => Some tt
            end ≫= λ _,
            if Ascii.eqb q "*" then Some (Star r, s1)
            else if Ascii.eqb q "+" then Some (Plus r, s1)
            else if Ascii.eqb q "?" then Some (Opt r, s1)
            else None
        end
      else Some (r, s)
  | [] => Some (r, s)
  end.

(** Alternatives, branches and items. [fuel] bounds the nesting of the
    calls. *)
Fixpoint parse_alt (fuel : nat) (s : chars) (st : pstate) : presult :=
  match fuel with
  | O => None
  | S fuel =>
      '(r1, s1, st1) ← parse_branch fuel s st;
      match s1 with
      | c :: s2 =>
          if Ascii.eqb c "|" then
            '(r2, s3, st3) ← parse_alt fuel s2 st1;
            Some (Alt r1 r2, s3, st3)
          else Some (r1, s1, st1)
      | [] => Some (r1, s1, st1)
      end
  end
with parse_branch (fuel : nat) (s : chars) (st : pstate) : presult :=
  match fuel with
  | O => None
  | S fuel =>
      match s with
      | [] => Some (Eps, s, st)
      | c :: _ =>
          if Ascii.eqb c "|" || Ascii.eqb c ")" then Some (Eps, s, st)
          else
            '(r1, s1, st1) ← parse_item fuel s st;
            '(r2, s2, st2) ← parse_branch fuel s1 st1;
            Some (Seq r1 r2, s2, st2)
      end
  end
with parse_item (fuel : nat) (s : chars) (st : pstate) : presult :=
  match fuel with
  | O => None
  | S fuel =>
      '(r, s2, st2) ←
        match s with
        | [] => None
        | c :: s1 =>
            if Ascii.eqb c "(" then
              '(o, s2) ← group_opening s1;
              '(st2, wrap) ← open_group o st;
              '(r, s3, st3) ← parse_alt fuel s2 st2;
              match s3 with
              | e :: s4 =>
                  if Ascii.eqb e ")" then Some (wrap r, s4, st3) else None
              | [] => None
              end
            else
              '(r, s2) ← simple_atom s; Some (r, s2, st)
        end;
      '(r', s3) ← quantify r s2;
      Some (r', s3, st2)
  end.

(** [re.compile(pattern, flags)] on the fragment: [None] stands for
    [re.error] and for a pattern outside the fragment alike. The whole
    text must be consumed, so an unbalanced closing parenthesis is an
    error. *)
Definition compile (p : string) (fl : flags) : option pattern :=
  let s := list_ascii_of_string p in
  '(r, s', st) ← parse_alt (4 + 4 * length s) s {| next_group := 0; names := [] |};
  match s' with
  | [] => Some {| expr := r; pflags := fl;
                  groups_count := next_group st; groupindex := names st |}
  | _ => None
  end.

(** *** Matching *)

(** A position in the subject: the offset, the character before it and
    the text after it. *)
Record cursor := { pos : nat; prev : option ascii; rest : chars }.

Definition origin (s : chars) : cursor :=
  {| pos := 0; prev := None; rest := s |}.

Definition advance (c : cursor) : option (ascii * cursor) :=
  match rest c with
  | [] => None
  | a :: s => Some (a, {| pos := S (pos c); prev := Some a; rest := s |})
  end.

(** The spans of the groups set so far, most recent first. *)
Abbreviation captures := (list (nat * (nat * nat))).

Fixpoint span_of (i : nat) (cs : captures) : option (nat * nat) :=
  match cs with
  | [] => None
  | (j, sp) :: cs' => if (i =? j)%nat then Some sp else span_of i cs'
  end.

Abbreviation outcome := (option (cursor * captures)).
Abbreviation kont := (cursor → captures → outcome).

Definition or_else (o : outcome) (alt : outcome) : outcome :=
  match o with
  | Some x => Some x
  | None => alt
  end.

Definition one_char (ok : ascii → bool) (k : kont) : kont :=
  λ c cs,
    match advance c with
    | Some (a, c') => if ok a then k c' cs else None
    | None => None
    end.

Definition at_bol (fl : flags) (c : cursor) : bool :=
  match prev c with
  | None => true
  | Some a => MULTILINE fl && Ascii.eqb a LF
  end.

Definition at_eol (fl : flags) (c : cursor) : bool :=
  match rest c with
  | [] => true
  | a :: s => Ascii.eqb a LF && (MULTILINE fl || bool_decide (s = []))
  end.

(** Greedy repetition: take one more [body] and come back here, or go
    on with [k] when that fails. [last] is the position of the previous
    arrival: a [body] that matched the empty string is not tried again at
    the same place, the groups it set are kept and [k] takes over. [n]
    bounds the number of rounds by the characters left. *)
Fixpoint repeat_max (body : kont → kont) (k : kont) (n : nat)
    (last : option nat) : kont :=
  λ c cs,
    match n with
    | O => k c cs
    | S n' =>
        if bool_decide (last = Some (pos c)) then k c cs
        else or_else (body (repeat_max body k n' (Some (pos c))) c cs) (k c cs)
    end.

(** The backtracking matcher, in continuation-passing style: [run fl r
    k c cs] matches [r] at [c] and hands the position reached and the
    groups to [k]; a failure of [k] makes it try its next alternative. *)
Fixpoint run (fl : flags) (r : regex) (k : kont) {struct r} : kont :=
  match r with
  | Eps => k
  | Lit a => one_char (Ascii.eqb a) k
  | AnyChar => one_char (λ b, DOTALL fl || negb (Ascii.eqb b LF)) k
  | InSet neg items => one_char (λ b, xorb neg (existsb (item_has b) items)) k
  | Bol => λ c cs, if at_bol fl c then k c cs else None
  | Eol => λ c cs, if at_eol fl c then k c cs else None
  | Seq r1 r2 => run fl r1 (run fl r2 k)
  | Alt r1 r2 => λ c cs, or_else (run fl r1 k c cs) (run fl r2 k c cs)
  | Star r1 => λ c cs, repeat_max (run fl r1) k (S (length (rest c))) None c cs
  | Plus r1 =>
      run fl r1 (λ c cs, repeat_max (run fl r1) k (S (length (rest c))) None c cs)
  | Opt r1 => λ c cs, or_else (run fl r1 k c cs) (k c cs)
  | Group i r1 =>
      λ c cs, run fl r1 (λ c' cs', k c' ((i, (pos c, pos c')) :: cs')) c cs
  end.

(** The last continuation. After an empty match the scanner asks the
    next one to advance: an empty match at the same place is refused and
    the matcher backtracks. *)
Definition accept (must_advance : bool) (start : nat) : kont :=
  λ c cs,
    if must_advance && (pos c =? start)%nat then None else Some (c, cs).

Definition match_here (p : pattern) (must_advance : bool) (c : cursor) : outcome :=
  run (pflags p) (expr p) (accept must_advance (pos c)) c [].

(** The leftmost match at or after a position; [must_advance] holds for
    the first attempt only. *)
Fixpoint scan (p : pattern) (must_advance : bool)
    (n : nat) (pv : option ascii) (s : chars) : option (nat * cursor * captures) :=
  let c := {| pos := n; prev := pv; rest := s |} in
  match match_here p must_advance c with
  | Some (c', cs) => Some (n, c', cs)
  | None =>
      match s with
      | [] => None
      | a :: s' => scan p false (S n) (Some a) s'
      end
  end.

(** *** Match objects *)

Record match_obj := {
  m_re : pattern;
  m_string : chars;
  m_start : nat;
  m_end : nat;
  m_caps : captures
}.

Definition slice (s : chars) (i j : nat) : string :=
  string_of_list_ascii (take (j - i) (drop i s)).

(** [m.group(i)] for a group number of the pattern: [None] when the
    group took no part in the match. *)
Definition group (m : match_obj) (i : nat) : option string :=
  '(a, b) ← span_of i (m_caps m); Some (slice (m_string m) a b).

(** [m.group(name)]: the outer [None] is the [IndexError] of a name the
    pattern does not define. *)
Definition group_named (m : match_obj) (name : string) : option (option string) :=
  i ← (list_to_map (groupindex (m_re m)) : gmap string nat) !! name;
  Some (group m i).

(** [m.groups()]: every group of the pattern, from 1. *)
Definition groups (m : match_obj) : list (option string) :=
  map (group m) (seq 1 (groups_count (m_re m))).

(** [m.groupdict()]: the named groups of the pattern, as items in the
    order of definition. *)
Definition groupdict (m : match_obj) : list (string * option string) :=
  map (λ '(name, i), (name, group m i)) (groupindex (m_re m)).

(** [p.search(s)] *)
Definition search (p : pattern) (s : string) : option match_obj :=
  let t := list_ascii_of_string s in
  '(a, c, cs) ← scan p false 0 None t;
  Some {| m_re := p; m_string := t; m_start := a; m_end := pos c; m_caps := cs |}.

(** [p.finditer(s)]: the matches from left to right, each search
    starting where the last match ended. *)
Fixpoint finditer_from (fuel : nat) (p : pattern) (t : chars)
    (c : cursor) (must_advance : bool) : list match_obj :=
  match fuel with
  | O => []
  | S fuel =>
      match scan p must_advance (pos c) (prev c) (rest c) with
      | None => []
      | Some (a, c', cs) =>
          {| m_re := p; m_string := t; m_start := a; m_end := pos c'; m_caps := cs |}
          :: finditer_from fuel p t c' (pos c' =? a)%nat
      end
  end.

Definition finditer (p : pattern) (s : string) : list match_obj :=
  let t := list_ascii_of_string s in
  finditer_from (3 + 2 * length t) p t (origin t) false.

(** *** What a match is

    The predicates in which the facts about the matcher are stated. *)

(** [c] is a position of the subject [t], not before [lo], and every
    group recorded so far lies between [lo] and [c]. *)
Definition wf (t : chars) (lo : nat) (c : cursor) (cs : captures) : Prop :=
  rest c = drop (pos c) t ∧ pos c ≤ length t ∧ lo ≤ pos c ∧
  ∀ i a b, (i, (a, b)) ∈ cs → lo ≤ a ∧ a ≤ b ∧ b ≤ pos c.

(** A matcher in continuation-passing style moves forward: a success is
    a success of the continuation at a later well-formed position. *)
Definition forward (t : chars) (lo : nat) (f : kont → kont) : Prop :=
  ∀ k c cs res,
    f k c cs = Some res → wf t lo c cs →
    ∃ c' cs', pos c ≤ pos c' ∧ wf t lo c' cs' ∧ k c' cs' = Some res.

(** A match object of the subject [t] found at or after [lo]: its span
    is within the text and its groups are within its span. *)
Definition match_ok (p : pattern) (t : chars) (lo : nat) (m : match_obj) : Prop :=
  m_re m = p ∧ m_string m = t ∧
  lo ≤ m_start m ∧ m_start m ≤ m_end m ∧ m_end m ≤ length t ∧
  ∀ i a b, (i, (a, b)) ∈ m_caps m → m_start m ≤ a ∧ a ≤ b ∧ b ≤ m_end m.

(** The spans of a list of matches follow each other from [lo]. *)
Fixpoint in_order (lo : nat) (ms : list match_obj) : Prop :=
  match ms with
  | [] => True
  | m :: ms' => lo ≤ m_start m ∧ m_start m ≤ m_end m ∧ in_order (m_end m) ms'
  end.

(** A cursor that is a position of the subject [t]. *)
Definition position (t : chars) (c : cursor) : Prop :=
  rest c = drop (pos c) t ∧ pos c ≤ length t.

(** A matcher that only looks at its continuation at later positions of
    the subject. *)
Definition local (t : chars) (f : kont → kont) : Prop :=
  ∀ k1 k2 c cs,
    position t c →
    (∀ c' cs', position t c' → pos c ≤ pos c' → k1 c' cs' = k2 c' cs') →
    f k1 c cs = f k2 c cs.

(** What is left to scan: twice the characters left, and one more when
    an empty match is still allowed here. *)
Definition to_scan (t : chars) (c : cursor) (must_advance : bool) : nat :=
  2 * (length t - pos c) + (if must_advance then 0 else 1).

End Re.

(** ** Python values, exceptions and the object *)

Inductive exn :=
| IOError
| re_error
| AttributeError
| IndexError
| KeyError
| Raised (what : string).

Inductive result (A : Type) :=
| Ok (a : A)
| Raise (e : exn).
Arguments Ok {A} a.
Arguments Raise {A} e.

#[global] Instance result_ret : MRet result := λ A, Ok.
#[global] Instance result_bind : MBind result :=
  λ A B f r, match r with Ok a => f a | Raise e => Raise e end.
#[global] Instance result_fmap : FMap result :=
  λ A B f r, match r with Ok a => Ok (f a) | Raise e => Raise e end.

(** A [for] loop or comprehension that builds a list: the elements in
    order, stopping at the first exception. *)
Fixpoint traverse {A B} (f : A → result B) (l : list A) : result (list B) :=
  match l with
  | [] => Ok []
  | x :: l' => y ← f x; ys ← traverse f l'; Ok (y :: ys)
  end.

(** A loop that updates an accumulator. *)
Fixpoint fold_result {A S} (f : S → A → result S) (s : S) (l : list A) : result S :=
  match l with
  | [] => Ok s
  | x :: l' => s' ← f s x; fold_result f s' l'
  end.

Definition or_raise {A} (e : exn) (o : option A) : result A :=
  match o with
  | Some a => Ok a
  | None => Raise e
  end.

(** The values the parser stores: strings, lists and dicts, and what a
    [postprocess] callable may return. A dict is its items in insertion
    order. *)
#[warnings="-register-all"]
Inductive pyval :=
| PNone
| PStr (s : string)
| PInt (z : Z)
| PList (l : list pyval)
| PDict (d : list (string * pyval)).

(** Truth value of an object in an [if]. *)
Definition truthy (v : pyval) : bool :=
  match v with
  | PNone => false
  | PStr s => negb (String.eqb s "")
  | PInt z => negb (z =? 0)%Z
  | PList l => negb (bool_decide (l = []))
  | PDict d => negb (bool_decide (d = []))
  end.

(** A [postprocess] callable: it receives a captured string, or [None]
    for a group that took no part in the match, and returns a value or
    raises. *)
Abbreviation converter := (option string → result pyval).

(** The default [postprocess=str]. *)
Definition py_str : converter :=
  λ v, match v with
       | Some s => Ok (PStr s)
       | None => Ok (PStr "None")
       end.

(** [tables[-1]] *)
Definition last_item (l : list pyval) : result pyval :=
  or_raise IndexError (last l).

Record QCCalc := { filename : string; data : gmap string pyval }.

Definition set_data (k : string) (v : pyval) (self : QCCalc) : QCCalc :=
  {| filename := filename self; data := <[k := v]> (data self) |}.

(** [self.data.get(k, [])] *)
Definition data_get (self : QCCalc) (k : string) : pyval :=
  default (PList []) (data self !! k).

(** A method body: it returns or raises, and leaves the object in a new
    state either way. *)
Definition M (A : Type) : Type := QCCalc → result A * QCCalc.

#[global] Instance M_ret : MRet M := λ A a self, (Ok a, self).
#[global] Instance M_bind : MBind M :=
  λ A B f m self,
    match m self with
    | (Ok a, self') => f a self'
    | (Raise e, self') => (Raise e, self')
    end.

Definition lift {A} (r : result A) : M A := λ self, (r, self).
Definition get_self : M QCCalc := λ self, (Ok self, self).
Definition modify (f : QCCalc → QCCalc) : M unit := λ self, (Ok tt, f self).
Definition store (k : string) (v : pyval) : M unit := modify (set_data k v).

(** ** Files and [monty] *)

(** The files that can be opened, by name, with their decoded text:
    [fs name = Some text] says that reading the file gives [text], and
    [fs name = None] that the name cannot be opened. A file that opens
    and does not decode is neither. *)
Abbreviation files := (string → option string).

(** [zopen(filename, 'rt')] followed by [f.read()] *)
Definition zopen_read (fs : files) (name : string) : result string :=
  or_raise IOError (fs name).

(** Iterating over a text file: the lines with their terminators. *)
Fixpoint keep_ends (s : chars) : list chars :=
  match s with
  | [] => []
  | a :: s' =>
      if Ascii.eqb a LF then [a] :: keep_ends s'
      else match keep_ends s' with
           | [] => [[a]]
           | l :: ls => (a :: l) :: ls
           end
  end.

Definition readlines (s : string) : list string :=
  map string_of_list_ascii (keep_ends (list_ascii_of_string s)).

(** [monty.io.reverse_readfile] on a plain file: the text between two
    newlines, from the last one backwards; the scan stops when it meets
    a newline at offset 0, so an empty first line is not produced. *)
Definition reverse_readfile (s : string) : list string :=
  let pieces := str_split LF s in
  rev (match pieces with
       | "" :: ps => ps
       | _ => pieces
       end).

Module monty.

Abbreviation found := (gmap string (list (list pyval * Z))).

(** [matches[k].append(x)] on a [defaultdict(list)] *)
Definition append (k : string) (x : list pyval * Z) (matches : found) : found :=
  <[k := default [] (matches !! k) ++ [x]]> matches.

(** The body of the loop over the compiled patterns, for line [l]
    number [i]. *)
Definition grep_line (postprocess : converter) (reverse : bool) (i : Z) (l : string)
    (matches : found) (kp : string * Re.pattern) : result found :=
  match Re.search kp.2 l with
  | Some m =>
      gs ← traverse postprocess (Re.groups m);
      Ok (append kp.1 (gs, if reverse then (- i)%Z else i) matches)
  | None => Ok matches
  end.

Definition all_found (compiled : list (string * Re.pattern)) (matches : found) : bool :=
  forallb (λ kp, negb (bool_decide (default [] (matches !! kp.1) = []))) compiled.

Fixpoint grep_lines (compiled : list (string * Re.pattern)) (postprocess : converter)
    (reverse terminate_on_match : bool) (i : Z) (lines : list string)
    (matches : found) : result found :=
  match lines with
  | [] => Ok matches
  | l :: lines' =>
      matches' ← fold_result (grep_line postprocess reverse i l) matches compiled;
      if terminate_on_match && all_found compiled matches' then Ok matches'
      else grep_lines compiled postprocess reverse terminate_on_match
             (i + 1)%Z lines' matches'
  end.

(** [monty.re.regrep(filename, patterns, reverse, terminate_on_match,
    postprocess)]: every pattern is searched in every line; a match adds
    the pair of its postprocessed groups and the line number to the list
    of its key. *)
Definition regrep (fs : files) (name : string) (patterns : list (string * string))
    (reverse terminate_on_match : bool) (postprocess : converter) : result found :=
  compiled ← traverse (λ kv, p ← or_raise re_error (Re.compile kv.2 Re.no_flags);
                             Ok (kv.1, p)) patterns;
  text ← zopen_read fs name;
  grep_lines compiled postprocess reverse terminate_on_match 0
    (if reverse then reverse_readfile text else readlines text) ∅.

End monty.

(** ** The class [QCCalc] *)

Section QCCalc.

Context (fs : files).

(** [read_pattern]: [patterns] is the dict as its items. *)
Definition read_pattern (patterns : list (string * string))
    (reverse terminate_on_match : bool) (postprocess : converter) : M unit :=
  self ← get_self;
  matches ← lift (monty.regrep fs (filename self) patterns reverse
                    terminate_on_match postprocess);
  modify (λ self,
    foldl (λ self k,
             set_data k (PList (map (λ i, PList i.1) (default [] (matches !! k)))) self)
          self patterns.*1).

Definition table_pattern_text (header_pattern row_pattern footer_pattern : string)
  : string :=
  header_pattern +:+ "\s*^(?P<table_body>(?:\s+" +:+ row_pattern
    +:+ ")+)\s+" +:+ footer_pattern.

(** The body of the loop over the lines of a table. *)
Definition process_line (rp : Re.pattern) (postprocess : converter) (line : string)
  : result pyval :=
  ml ← or_raise AttributeError (Re.search rp line);
  let d := Re.groupdict ml in
  if (0 <? length d)%nat then
    PDict <$> traverse (λ kv, v ← postprocess kv.2; Ok (kv.1, v)) d
  else
    PList <$> traverse postprocess (Re.groups ml).

(** The body of the loop over the matches of the table pattern. *)
Definition process_table (rp : Re.pattern) (postprocess : converter) (mt : Re.match_obj)
  : result pyval :=
  g ← or_raise IndexError (Re.group_named mt "table_body");
  table_body_text ← or_raise AttributeError g;
  PList <$> traverse (process_line rp postprocess) (str_split LF table_body_text).

Definition re_MULTILINE_DOTALL : Re.flags :=
  {| Re.MULTILINE := true; Re.DOTALL := true |}.

Definition read_table_pattern (header_pattern row_pattern footer_pattern : string)
    (postprocess : converter) (attribute_name : option string)
    (last_one_only : bool) : M pyval :=
  self ← get_self;
  text ← lift (zopen_read fs (filename self));
  table_pattern ← lift (or_raise re_error
    (Re.compile (table_pattern_text header_pattern row_pattern footer_pattern)
                re_MULTILINE_DOTALL));
  rp ← lift (or_raise re_error (Re.compile row_pattern Re.no_flags));
  tables ← lift (traverse (process_table rp postprocess)
                          (Re.finditer table_pattern text));
  retained_data ← lift (if last_one_only then last_item tables
                        else Ok (PList tables));
  match attribute_name with
  | Some a => store a retained_data
  | None => mret tt
  end;;
  mret retained_data.

(** [self.data[k]] *)
Definition data_item (k : string) : M pyval :=
  self ← get_self; lift (or_raise KeyError (data self !! k)).

Definition _read_GEN_SCFMAN : M pyval :=
  let header_pattern := "\s*\-+\s+Cycle\s+Energy\s+Error\s+\-+\s+\-+\s+OpenMP\s+Integral\s+computing\s+Module\s+\-+\s+\-+\s+OpenMP\s+Integral\s+computing\s+Module\s+\-+" in
  let table_pattern := "\s+\d+\s+([\d\-\.]+)\s+([\d\-\.]+)e([\d\-\.]+)(?:\s+Convergence criterion met)*(?:\s+Preconditoned Steepest Descent)*(?:\s+BFGS Step)*(?:\s+LineSearch Step)*" in
  let footer_pattern := "\-+\n\sSCF\stime:\s+CPU\s[\d\-\.]+s\s+wall\s+[\d\-\.]+s" in
  read_table_pattern header_pattern table_pattern footer_pattern py_str
    (Some "GEN_SCFMAN") false;;
  data_item "GEN_SCFMAN".

Definition _read_SCF : M pyval :=
  let header_pattern := "\-+\s+Cycle\s+Energy\s+DIIS Error\s+\-+" in
  let table_pattern := "\s+\d+\s+([\d\-\.]+)\s+([\d\-\.]+)E([\d\-\.]+)(?:\sConvergence criterion met)*" in
  let footer_pattern := "\-+\n\sSCF\stime:\s+CPU [\d\-\.]+ s\s+wall\s+[\d\-\.]+ s" in
  read_table_pattern header_pattern table_pattern footer_pattern py_str
    (Some "SCF") false;;
  data_item "SCF".

Definition _read_restricted_mulliken : M pyval :=
  let header_pattern := "\-+\s+Ground-State Mulliken Net Atomic Charges\s+Atom\s+Charge \(a.u.\)\s+\-+" in
  let table_pattern := "\s+\d+\s(\w+)\s+([\d\-\.]+)" in
  let footer_pattern := "\s\s\-+\s+Sum of atomic charges" in
  read_table_pattern header_pattern table_pattern footer_pattern py_str
    (Some "restricted_Mulliken") false;;
  data_item "restricted_Mulliken".

Definition _read_unrestricted_mulliken : M pyval :=
  let header_pattern := "\-+\s+Ground-State Mulliken Net Atomic Charges\s+Atom\s+Charge \(a.u.\)\s+Spin\s\(a.u.\)\s+\-+" in
  let table_pattern := "\s+\d+\s(\w+)\s+([\d\-\.]+)\s+([\d\-\.]+)" in
  let footer_pattern := "\s\s\-+\s+Sum of atomic charges" in
  read_table_pattern header_pattern table_pattern footer_pattern py_str
    (Some "unrestricted_Mulliken") false;;
  data_item "unrestricted_Mulliken".

(** [__init__]: the method body run on the fresh object. *)
Definition init_body : M unit :=
  read_pattern [("unrestricted", "A\sunrestricted\sSCF\scalculation\swill\sbe")]
    false true py_str;;
  read_pattern [("using_GEN_SCFMAN", "\s+GEN_SCFMAN: A general SCF calculation manager")]
    false true py_str;;
  self ← get_self;
  (if truthy (data_get self "using_GEN_SCFMAN") then _read_GEN_SCFMAN
   else _read_SCF);;
  self ← get_self;
  (if truthy (data_get self "unrestricted") then _read_unrestricted_mulliken
   else _read_restricted_mulliken);;
  read_pattern [("final_energy", "Final\senergy\sis\s+([\d\-\.]+)")]
    false false py_str;;
  self ← get_self;
  if truthy (data_get self "unrestricted") then
    read_pattern [("S2", "<S\^2>\s=\s+([\d\-\.]+)")] false false py_str
  else mret tt.

Definition __init__ (name : string) : result unit * QCCalc :=
  init_body {| filename := name; data := ∅ |}.

End QCCalc.

(** ** Statements

    The vocabulary of the properties below. *)

Definition nl : string := String LF "".

(** [sep.join(pieces)] *)
Definition unlines (ls : list string) : string := String.concat nl ls.

(** The state a table read leaves when it returns [v]. *)
Definition stored (attribute_name : option string) (v : pyval) (self : QCCalc) : QCCalc :=
  match attribute_name with
  | Some a => set_data a v self
  | None => self
  end.

(** The values [process_line] hands to [postprocess] for a line. *)
Definition captured (rp : Re.pattern) (line : string) : list (option string) :=
  match Re.search rp line with
  | Some ml =>
      if (0 <? length (Re.groupdict ml))%nat then (Re.groupdict ml).*2
      else Re.groups ml
  | None => []
  end.

(** The two shapes of a Row Record of the row pattern [rp]. *)
Definition row_shape (rp : Re.pattern) (row : pyval) : Prop :=
  if bool_decide (Re.groupindex rp = []) then
    ∃ l, row = PList l ∧ length l = Re.groups_count rp
  else
    ∃ d, row = PDict d ∧ d.*1 = (Re.groupindex rp).*1.

Definition table_shape (rp : Re.pattern) (table : pyval) : Prop :=
  ∃ rows, table = PList rows ∧ Forall (row_shape rp) rows.

(** A table is what [mt] frames: its body is a stretch of the text
    inside the span of [mt], and its rows are the lines of the body, in
    order. *)
Definition table_of (text : string) (rp : Re.pattern) (postprocess : converter)
    (mt : Re.match_obj) (table : pyval) : Prop :=
  ∃ a b rows,
    Re.m_start mt ≤ a ∧ a ≤ b ∧ b ≤ Re.m_end mt ∧
    Re.group_named mt "table_body"
      = Some (Some (Re.slice (list_ascii_of_string text) a b)) ∧
    unlines (str_split LF (Re.slice (list_ascii_of_string text) a b))
      = Re.slice (list_ascii_of_string text) a b ∧
    table = PList rows ∧
    Forall2 (λ line row, process_line rp postprocess line = Ok row)
            (str_split LF (Re.slice (list_ascii_of_string text) a b)) rows.

(** The assignments at the end of [read_pattern]. *)
Definition assign (matches : monty.found) (keys : list string) (self : QCCalc) : QCCalc :=
  foldl (λ self k,
           set_data k (PList (map (λ i, PList i.1) (default [] (matches !! k)))) self)
        self keys.

(** The lines [regrep] goes through, in its order. *)
Definition scan_lines (reverse : bool) (text : string) : list string :=
  if reverse then reverse_readfile text else readlines text.

(** The matches of a pattern in a list of lines, one for each line that
    has one. *)
Definition found_in (p : Re.pattern) (lines : list string) : list Re.match_obj :=
  omap (Re.search p) lines.

(** The text has a line that the pattern matches. *)
Definition marked (pat text : string) : bool :=
  match Re.compile pat Re.no_flags with
  | Some p => existsb (λ l, bool_decide (is_Some (Re.search p l))) (readlines text)
  | None => false
  end.

Definition unrestricted_marker : string :=
  "A\sunrestricted\sSCF\scalculation\swill\sbe".
Definition GEN_SCFMAN_marker : string :=
  "\s+GEN_SCFMAN: A general SCF calculation manager".

(** The header, row and footer patterns of the four tables. *)
Definition GEN_SCFMAN_table : string * string * string :=
  ("\s*\-+\s+Cycle\s+Energy\s+Error\s+\-+\s+\-+\s+OpenMP\s+Integral\s+computing\s+Module\s+\-+\s+\-+\s+OpenMP\s+Integral\s+computing\s+Module\s+\-+",
   "\s+\d+\s+([\d\-\.]+)\s+([\d\-\.]+)e([\d\-\.]+)(?:\s+Convergence criterion met)*(?:\s+Preconditoned Steepest Descent)*(?:\s+BFGS Step)*(?:\s+LineSearch Step)*",
   "\-+\n\sSCF\stime:\s+CPU\s[\d\-\.]+s\s+wall\s+[\d\-\.]+s").

Definition SCF_table : string * string * string :=
  ("\-+\s+Cycle\s+Energy\s+DIIS Error\s+\-+",
   "\s+\d+\s+([\d\-\.]+)\s+([\d\-\.]+)E([\d\-\.]+)(?:\sConvergence criterion met)*",
   "\-+\n\sSCF\stime:\s+CPU [\d\-\.]+ s\s+wall\s+[\d\-\.]+ s").

Definition restricted_Mulliken_table : string * string * string :=
  ("\-+\s+Ground-State Mulliken Net Atomic Charges\s+Atom\s+Charge \(a.u.\)\s+\-+",
   "\s+\d+\s(\w+)\s+([\d\-\.]+)",
   "\s\s\-+\s+Sum of atomic charges").

Definition unrestricted_Mulliken_table : string * string * string :=
  ("\-+\s+Ground-State Mulliken Net Atomic Charges\s+Atom\s+Charge \(a.u.\)\s+Spin\s\(a.u.\)\s+\-+",
   "\s+\d+\s(\w+)\s+([\d\-\.]+)\s+([\d\-\.]+)",
   "\s\s\-+\s+Sum of atomic charges").

Definition final_energy_pattern : string := "Final\senergy\sis\s+([\d\-\.]+)".
Definition S2_pattern : string := "<S\^2>\s=\s+([\d\-\.]+)".

(** The extraction of all the tables of a triple into [self.data[key]]. *)
Definition table_read (fs : files) (key : string) (t : string * string * string)
  : M pyval :=
  read_table_pattern fs t.1.1 t.1.2 t.2 py_str (Some key) false.

(** The reads of [__init__] once the two markers are known: the probes,
    the extraction of the SCF table of the kind selected, that of the
    Mulliken table of the kind selected, the final energy, and [<S^2>]
    for an unrestricted calculation. *)
Definition init_plan (fs : files) (using_GEN_SCFMAN unrestricted : bool) : M unit :=
  read_pattern fs [("unrestricted", unrestricted_marker)] false true py_str;;
  read_pattern fs [("using_GEN_SCFMAN", GEN_SCFMAN_marker)] false true py_str;;
  (if using_GEN_SCFMAN then table_read fs "GEN_SCFMAN" GEN_SCFMAN_table
   else table_read fs "SCF" SCF_table);;
  (if unrestricted then table_read fs "unrestricted_Mulliken" unrestricted_Mulliken_table
   else table_read fs "restricted_Mulliken" restricted_Mulliken_table);;
  read_pattern fs [("final_energy", final_energy_pattern)] false false py_str;;
  if unrestricted then
    read_pattern fs [("S2", S2_pattern)] false false py_str
  else mret tt.

(** The keys of [self.data] after [__init__]. *)
Definition init_keys (using_GEN_SCFMAN unrestricted : bool) : gset string :=
  {[ "unrestricted"; "using_GEN_SCFMAN"; "final_energy" ]}
  ∪ {[ if using_GEN_SCFMAN then "GEN_SCFMAN" else "SCF" ]}
  ∪ {[ if unrestricted then "unrestricted_Mulliken" else "restricted_Mulliken" ]}
  ∪ (if unrestricted then {[ "S2" ]} else ∅).

(** ** Sample outputs

    Small Q-Chem outputs on which the properties are run. *)

(** A directory with one file. *)
Definition one_file (name text : string) : files :=
  λ n, if String.eqb n name then Some text else None.

(** The fresh object of [__init__], before its first read. *)
Definition fresh (name : string) : QCCalc := {| filename := name; data := ∅ |}.

Definition scf_header : string := "\-+\s+Cycle\s+Energy\s+DIIS Error\s+\-+".
Definition scf_row : string :=
  "\s+\d+\s+([\d\-\.]+)\s+([\d\-\.]+)E([\d\-\.]+)(?:\sConvergence criterion met)*".
Definition scf_footer : string :=
  "\-+\n\sSCF\stime:\s+CPU [\d\-\.]+ s\s+wall\s+[\d\-\.]+ s".

(** The row of the SCF table with names for its groups. *)
Definition named_scf_row : string :=
  "(?P<cycle>\d+)\s+(?P<energy>[\d\-\.]+)\s+(?P<error>[\d\-\.E]+)(?:\sConvergence criterion met)*".

(** One SCF block around the given cycle lines. *)
Definition scf_block (rows : list string) : list string :=
  [" ---------------------------------------";
   "  Cycle       Energy         DIIS Error";
   " ---------------------------------------"]
  ++ rows ++
  [" ---------------------------------------";
   " SCF time:  CPU 0.10 s  wall 0.10 s"].

(** An output with a final energy and no table. *)
Definition sample_no_table : string :=
  unlines [" Welcome to Q-Chem"; " Final energy is -76.12345"; ""].

(** An output with three SCF blocks of two, one and three cycles. *)
Definition sample_three_tables : string :=
  unlines
    ([" Welcome to Q-Chem"]
     ++ scf_block ["    1     -75.10     1.00E-01";
                   "    2     -76.20     1.00E-03 Convergence criterion met"]
     ++ [" Geometry step"]
     ++ scf_block ["    1     -77.30     2.00E-05 Convergence criterion met"]
     ++ scf_block ["    1     -78.40     3.00E-01";
                   "    2     -78.50     3.00E-02";
                   "    3     -78.60     3.00E-09 Convergence criterion met"]
     ++ [""]).

(** An output whose SCF block has an empty line between two cycles. *)
Definition sample_blank_row : string :=
  unlines
    (scf_block ["    1     -75.10     1.00E-01";
                "";
                "    2     -76.20     1.00E-03 Convergence criterion met"]
     ++ [""]).

Definition energy_patterns : list (string * string) :=
  [("final_energy", "Final\senergy\sis\s+([\d\-\.]+)");
   ("S2", "<S\^2>\s=\s+([\d\-\.]+)")].

(** An unrestricted calculation run by [GEN_SCFMAN]: both markers, one
    SCF table of the new style, the Mulliken table with spins, the final
    energy and [<S^2>]. *)
Definition sample_unrestricted : string :=
  unlines
    [" A unrestricted SCF calculation will be";
     " performed using DIIS";
     "  GEN_SCFMAN: A general SCF calculation manager";
     " ---------------------------------------";
     "  Cycle       Energy         Error";
     " ---------------------------------------";
     " ---------------------------------------";
     " OpenMP Integral computing Module";
     " ---------------------------------------";
     " ---------------------------------------";
     " OpenMP Integral computing Module";
     " ---------------------------------------";
     "    1     -75.10     1.00e-01";
     "    2     -76.20     1.00e-03 Convergence criterion met";
     " ---------------------------------------";
     " SCF time:  CPU 0.10s  wall 0.10s";
     " <S^2> =  0.7500";
     " ---------------------------------------";
     "   Ground-State Mulliken Net Atomic Charges";
     "";
     "     Atom      Charge (a.u.)      Spin (a.u.)";
     "  -------------------------------------";
     "      1 O      -0.70      1.00";
     "      2 H       0.35      0.00";
     "  -------------------------------------";
     "  Sum of atomic charges =     0.000000";
     " Final energy is -76.12345";
     ""].

(** A converter in the manner of [int]: digits give a number, anything
    else raises. *)
Definition digits_only : converter :=
  λ v, match v with
       | Some s =>
           if forallb is_digit (list_ascii_of_string s)
              && negb (String.eqb s "")
           then Ok (PInt (Z.of_nat
                  (fold_left (λ n a, 10 * n + (code a - 48))
                             (list_ascii_of_string s) 0)))
           else Raise (Raised "ValueError")
       | None => Raise (Raised "TypeError")
       end.

(** ** More statements *)

(** A cell under the default [postprocess]: the captured string, and
    the string of [None] for a group that took no part. *)
Definition default_cell (g : option string) : pyval := PStr (default "None" g).

(** The row [process_line] builds from a match under the default
    [postprocess]. *)
Definition default_row (ml : Re.match_obj) : pyval :=
  if (0 <? length (Re.groupdict ml))%nat then
    PDict (map (λ kv, (kv.1, default_cell kv.2)) (Re.groupdict ml))
  else PList (map default_cell (Re.groups ml)).

(** What a reader of one table may do on a file that is read as text:
    return the list of tables it has stored under [key], or raise
    [AttributeError] and leave the object as it was. *)
Definition reader_outcome (key : string) (rd : M pyval) (self : QCCalc) : Prop :=
  match rd self with
  | (Ok v, self') => (∃ tables, v = PList tables) ∧ self' = set_data key v self
  | (Raise e, self') => self' = self ∧ e = AttributeError
  end.

(** An output with two energies. *)
Definition sample_two_energies : string :=
  unlines [" Final energy is -1.5"; " Step 2"; " Final energy is -2.5"; ""].

(** A table whose second row has no number. *)
Definition sample_optional_group : string :=
  unlines ["BEGIN"; "  x 1"; "  y"; "END"; ""].

(** An object that has been used before: it holds a stale table and an
    entry of another read. *)
Definition used (name : string) : QCCalc :=
  {| filename := name;
     data := <["SCF" := PStr "stale"]> (<["other" := PInt 7]> ∅) |}.

(** A table with at least one row. *)
Definition has_rows (table : pyval) : Prop :=
  ∃ rows, table = PList rows ∧ 0 < length rows.

(** A table whose rows are the rows of matches of [rp] under the default
    [postprocess]. *)
Definition default_table (rp : Re.pattern) (table : pyval) : Prop :=
  ∃ rows, table = PList rows ∧
          Forall (λ row, ∃ line ml, Re.search rp line = Some ml ∧
                                    row = default_row ml) rows.

(** The tables of a triple in the file [name]. *)
Definition tables_in_file (fs : files) (name : string)
    (t : string * string * string) : result pyval :=
  (read_table_pattern fs t.1.1 t.1.2 t.2 py_str None false (fresh name)).1.

(** The values of one scalar field in the file [name]. *)
Definition values_in_file (fs : files) (name k pat : string) : option pyval :=
  data (read_pattern fs [(k, pat)] false false py_str (fresh name)).2 !! k.

(** The test of the claim as it is worded: the pattern matches somewhere
    in the text taken as one string. *)
Definition text_matches (pat text : string) : bool :=
  match Re.compile pat Re.no_flags with
  | Some p => bool_decide (is_Some (Re.search p text))
  | None => false
  end.

(** A restricted calculation of the old style: no marker, one SCF
    table, the Mulliken table without spins and the final energy. *)
Definition sample_restricted : string :=
  unlines
    ([" Welcome to Q-Chem"]
     ++ scf_block ["    1     -75.10     1.00E-01";
                   "    2     -76.20     1.00E-03 Convergence criterion met"]
     ++ [" ---------------------------------------";
         "   Ground-State Mulliken Net Atomic Charges";
         "";
         "     Atom      Charge (a.u.)";
         "  -------------------------------------";
         "      1 O      -0.70";
         "      2 H       0.35";
         "  -------------------------------------";
         "  Sum of atomic charges =     0.000000";
         " Final energy is -76.12345";
         ""]).

(** The same output with the words of the [GEN_SCFMAN] marker at the
    start of a line: the text matches the marker pattern across the end
    of the line before, and no line matches it. *)
Definition sample_marker_at_line_start : string :=
  unlines [" Job started";
           "GEN_SCFMAN: A general SCF calculation manager";
           sample_restricted].

(** The patterns of a call, compiled, in the order of the dict. *)
Definition compiled_patterns (patterns : list (string * string)) : list Re.pattern :=
  omap (λ kv, Re.compile kv.2 Re.no_flags) patterns.

(** The lines [regrep] goes through with [terminate_on_match]: it stops
    after the first line at which every pattern has had a match;
    [pending] are the patterns that have had none so far. *)
Fixpoint stop_scan (pending : list Re.pattern) (lines : list string) : list string :=
  match lines with
  | [] => []
  | l :: lines' =>
      match filter (λ p, ¬ is_Some (Re.search p l)) pending with
      | [] => [l]
      | pending' => l :: stop_scan pending' lines'
      end
  end.

(** The lines a call of [read_pattern] goes through. *)
Definition lines_scanned (patterns : list (string * string))
    (terminate_on_match : bool) (lines : list string) : list string :=
  if terminate_on_match then stop_scan (compiled_patterns patterns) lines
  else lines.

(** An output with an energy, then [<S^2>], then a second energy. *)
Definition sample_energy_spin_energy : string :=
  unlines [" Final energy is -1.5"; " <S^2> = 0.75"; " Final energy is -2.5"; ""].

(** A block of one row between the words [BEGIN] and [END]. *)
Definition block (row : string) : list string := ["BEGIN"; " " +:+ row; "END"].

(** Three blocks, one after the other. *)
Definition sample_three_blocks : string :=
  unlines (block "1" ++ block "2" ++ block "3" ++ [""]).

(** ** Facts about the matcher *)

Module ReFacts.
Import Re.

Lemma drop_next {A} (x : A) (s t : list A) n :
  x :: s = drop n t → s = drop (S n) t ∧ n < length t.
Proof.
  intros H. split.
  - rewrite <- Nat.add_1_r, <- drop_drop, <- H. done.
  - destruct (decide (n < length t)); [done|].
    rewrite drop_ge in H by lia. done.
Qed.

Lemma wf_advance t lo c cs a c' :
  wf t lo c cs → advance c = Some (a, c') →
  pos c' = S (pos c) ∧ wf t lo c' cs.
Proof.
  intros (Hr & Hl & Hlo & Hcs) Ha. unfold advance in Ha.
  destruct (rest c) as [|b s] eqn:E; [done|]. injection Ha as <- <-. simpl.
  split; [done|].
  destruct (drop_next _ _ _ _ Hr) as [Hs Hlt].
  split_and!; simpl; try done; try lia.
  intros i x y Hin. specialize (Hcs i x y Hin). lia.
Qed.

Lemma forward_one_char t lo ok : forward t lo (one_char ok).
Proof.
  intros k c cs res H Hwf. unfold one_char in H.
  destruct (advance c) as [[a c']|] eqn:E; [|done].
  destruct (ok a); [|done].
  destruct (wf_advance _ _ _ _ _ _ Hwf E) as [Hp Hwf'].
  exists c', cs. split_and!; [lia|done|done].
Qed.

Lemma forward_repeat_max t lo body k n last c cs res :
  forward t lo body →
  repeat_max body k n last c cs = Some res → wf t lo c cs →
  ∃ c' cs', pos c ≤ pos c' ∧ wf t lo c' cs' ∧ k c' cs' = Some res.
Proof.
  intros Hb. revert last c cs.
  induction n as [|n IH]; intros last c cs H Hwf; simpl in H.
  - eauto.
  - destruct (bool_decide (last = Some (pos c))); [eauto|].
    unfold or_else in H.
    destruct (body _ c cs) as [x|] eqn:E.
    + injection H as ->.
      destruct (Hb _ _ _ _ E Hwf) as (c1 & cs1 & Hle & Hwf1 & Hk).
      destruct (IH _ _ _ Hk Hwf1) as (c2 & cs2 & ? & ? & ?).
      exists c2, cs2. split_and!; [lia|done|done].
    + eauto.
Qed.

Lemma forward_run t lo fl r : forward t lo (run fl r).
Proof.
  induction r as [| a | | neg items | | | r1 IH1 r2 IH2 | r1 IH1 r2 IH2
                 | r1 IH1 | r1 IH1 | r1 IH1 | i r1 IH1];
    intros k c cs res H Hwf; cbn [run] in H.
  - eauto.
  - by eapply forward_one_char.
  - by eapply forward_one_char.
  - by eapply forward_one_char.
  - destruct (at_bol fl c); [eauto|done].
  - destruct (at_eol fl c); [eauto|done].
  - destruct (IH1 _ _ _ _ H Hwf) as (c1 & cs1 & ? & Hwf1 & H1).
    destruct (IH2 _ _ _ _ H1 Hwf1) as (c2 & cs2 & ? & ? & ?).
    exists c2, cs2. split_and!; [lia|done|done].
  - unfold or_else in H. destruct (run fl r1 k c cs) eqn:E.
    + injection H as ->. eauto.
    + eauto.
  - by eapply forward_repeat_max.
  - destruct (IH1 _ _ _ _ H Hwf) as (c1 & cs1 & ? & Hwf1 & H1).
    destruct (forward_repeat_max _ _ _ _ _ _ _ _ _ IH1 H1 Hwf1) as (c2 & cs2 & ? & ? & ?).
    exists c2, cs2. split_and!; [lia|done|done].
  - unfold or_else in H. destruct (run fl r1 k c cs) eqn:E.
    + injection H as ->. eauto.
    + eauto.
  - destruct (IH1 _ _ _ _ H Hwf) as (c1 & cs1 & Hle & Hwf1 & H1).
    eexists c1, _. split_and!; [done| |exact H1].
    destruct Hwf1 as (? & ? & ? & Hcs). destruct Hwf as (? & ? & ? & _).
    split_and!; try done.
    intros j a b [Heq|Hin]%elem_of_cons.
    + injection Heq as -> -> ->. lia.
    + eauto.
Qed.

Lemma match_here_spec p t adv c c' cs :
  match_here p adv c = Some (c', cs) →
  rest c = drop (pos c) t → pos c ≤ length t →
  wf t (pos c) c' cs ∧ (adv = true → pos c < pos c').
Proof.
  intros H Hr Hl. unfold match_here in H.
  destruct (forward_run t (pos c) _ _ _ _ _ _ H) as (c1 & cs1 & Hle & Hwf & Hk).
  { split_and!; [done|done|done|]. intros ??? Hin. by apply elem_of_nil in Hin. }
  unfold accept in Hk.
  destruct (adv && (pos c1 =? pos c)) eqn:E; [done|]. injection Hk as <- <-.
  split; [done|]. intros ->. simpl in E. apply Nat.eqb_neq in E. lia.
Qed.

Lemma scan_spec p t adv n pv s a c' cs :
  scan p adv n pv s = Some (a, c', cs) →
  s = drop n t → n ≤ length t →
  n ≤ a ∧ wf t a c' cs ∧ (adv = true → n < pos c').
Proof.
  revert adv n pv. induction s as [|x s IH]; intros adv n pv H Hs Hn; simpl in H.
  - destruct (match_here p adv _) as [[c1 cs1]|] eqn:E; [|done].
    injection H as <- <- <-.
    destruct (match_here_spec _ t _ _ _ _ E) as [Hwf Hadv]; simpl; auto.
  - destruct (match_here p adv _) as [[c1 cs1]|] eqn:E.
    + injection H as <- <- <-.
      destruct (match_here_spec _ t _ _ _ _ E) as [Hwf Hadv]; simpl; auto.
    + destruct (drop_next _ _ _ _ Hs) as [Hs' Hlt].
      destruct (IH false (S n) (Some x) H) as (? & Hwf & _).
      * done.
      * lia.
      * split_and!; [lia|done|]. intros _. destruct Hwf as (_ & _ & ? & _). lia.
Qed.

Lemma finditer_from_spec fuel p t c adv :
  rest c = drop (pos c) t → pos c ≤ length t →
  in_order (pos c) (finditer_from fuel p t c adv) ∧
  Forall (match_ok p t (pos c)) (finditer_from fuel p t c adv).
Proof.
  revert c adv. induction fuel as [|fuel IH]; intros c adv Hr Hl; simpl.
  - split; [done|constructor].
  - destruct (scan p adv (pos c) (prev c) (rest c)) as [[[a c'] cs]|] eqn:E.
    2: { split; [done|constructor]. }
    destruct (scan_spec _ t _ _ _ _ _ _ _ E Hr Hl) as (Hle & Hwf & _).
    destruct Hwf as (Hr' & Hl' & Hlo & Hcs).
    destruct (IH c' (pos c' =? a) Hr' Hl') as [Ho Hf].
    split; simpl.
    + split_and!; [done|done|done].
    + constructor.
      * split_and!; simpl; try done.
      * eapply Forall_impl; [exact Hf|].
        intros m (? & ? & ? & ? & ? & ?). split_and!; try done. lia.
Qed.

(** [finditer] returns its matches from left to right: each one starts
    where the one before it ended, or later. *)
Lemma finditer_in_order p s : in_order 0 (finditer p s).
Proof.
  unfold finditer.
  by destruct (finditer_from_spec (3 + 2 * length (list_ascii_of_string s)) p
             (list_ascii_of_string s) (origin (list_ascii_of_string s)) false)
    as [H _]; simpl; [|lia|].
Qed.

Lemma finditer_match_ok p s :
  Forall (match_ok p (list_ascii_of_string s) 0) (finditer p s).
Proof.
  unfold finditer.
  by destruct (finditer_from_spec (3 + 2 * length (list_ascii_of_string s)) p
             (list_ascii_of_string s) (origin (list_ascii_of_string s)) false)
    as [_ H]; simpl; [|lia|].
Qed.

(** The pattern matches nowhere exactly when [finditer] has nothing to
    return. *)
Lemma finditer_nil p s : search p s = None ↔ finditer p s = [].
Proof.
  unfold search, finditer, origin. simpl.
  destruct (scan p false 0 None (list_ascii_of_string s)) as [[[a c] cs]|]; simpl.
  - split; intros H; discriminate H.
  - done.
Qed.

End ReFacts.

(** ** Enough rounds

    The two bounds of the matcher are never reached: [finditer] and the
    repetition return the same with any larger bound. *)

Module ReFuel.
Import Re.

Lemma position_advance t c a c' :
  position t c → advance c = Some (a, c') →
  position t c' ∧ pos c' = S (pos c).
Proof.
  intros [Hr Hl] Ha. unfold advance in Ha.
  destruct (rest c) as [|b s] eqn:E; [done|]. injection Ha as <- <-. simpl.
  destruct (ReFacts.drop_next _ _ _ _ Hr) as [Hs Hlt].
  split; [split|]; simpl; [done|lia|done].
Qed.

Lemma position_rest t c : position t c → length (rest c) = length t - pos c.
Proof. intros [-> _]. apply length_drop. Qed.

Lemma local_one_char t ok : local t (one_char ok).
Proof.
  intros k1 k2 c cs Hc Hk. unfold one_char.
  destruct (advance c) as [[a c']|] eqn:E; [|done].
  destruct (position_advance _ _ _ _ Hc E) as [Hc' Hp].
  destruct (ok a); [|done]. apply Hk; [done|lia].
Qed.

Lemma local_repeat_max t body n last :
  local t body → local t (λ k, repeat_max body k n last).
Proof.
  intros Hb. revert last.
  induction n as [|n IH]; intros last k1 k2 c cs Hc Hk; simpl.
  - by apply Hk.
  - rewrite (Hk c cs Hc) by done.
    destruct (bool_decide _); [done|]. f_equal.
    apply Hb; [done|]. intros c' cs' Hc' Hle.
    apply (IH (Some (pos c))); [done|]. intros c'' cs'' ? ?. apply Hk; [done|lia].
Qed.

Lemma local_run t fl r : local t (run fl r).
Proof.
  induction r as [| a | | neg items | | | r1 IH1 r2 IH2 | r1 IH1 r2 IH2
                 | r1 IH1 | r1 IH1 | r1 IH1 | i r1 IH1];
    intros k1 k2 c cs Hc Hk; cbn [run].
  - by apply Hk.
  - exact (local_one_char t _ k1 k2 c cs Hc Hk).
  - exact (local_one_char t _ k1 k2 c cs Hc Hk).
  - exact (local_one_char t _ k1 k2 c cs Hc Hk).
  - destruct (at_bol fl c); [by apply Hk|done].
  - destruct (at_eol fl c); [by apply Hk|done].
  - apply IH1; [done|]. intros c' cs' Hc' Hle.
    apply IH2; [done|]. intros c'' cs'' ? ?. apply Hk; [done|lia].
  - by rewrite (IH1 k1 k2 c cs), (IH2 k1 k2 c cs).
  - exact (local_repeat_max t (run fl r1) _ None IH1 k1 k2 c cs Hc Hk).
  - apply IH1; [done|]. intros c' cs' Hc' Hle.
    apply (local_repeat_max t (run fl r1) _ None IH1 k1 k2 c' cs' Hc').
    intros c'' cs'' ? ?. apply Hk; [done|lia].
  - by rewrite (IH1 k1 k2 c cs), (Hk c cs).
  - apply IH1; [done|]. intros c' cs' Hc' Hle. by apply Hk.
Qed.

(** More rounds than characters left change nothing. *)
Lemma repeat_max_rounds t body k :
  local t body →
  ∀ n m last c cs,
    position t c → length t - pos c < n → length t - pos c < m →
    repeat_max body k n last c cs = repeat_max body k m last c cs.
Proof.
  intros Hb. induction n as [|n IH]; intros m last c cs Hc Hn Hm; [lia|].
  destruct m as [|m]; [lia|]. simpl.
  destruct (bool_decide _); [done|]. f_equal.
  apply Hb; [done|]. intros c' cs' Hc' Hle.
  destruct (decide (pos c' = pos c)) as [Heq|Hne].
  - destruct n, m; simpl; rewrite ?Heq, ?bool_decide_eq_true_2; done.
  - destruct Hc' as [? ?]. apply IH; [done|lia|lia].
Qed.

(** The bound that [run] gives a repetition is enough. *)
Lemma repeat_max_enough t fl r k n last c cs :
  position t c → length (rest c) < n →
  repeat_max (run fl r) k n last c cs
  = repeat_max (run fl r) k (S (length (rest c))) last c cs.
Proof.
  intros Hc Hn. rewrite (position_rest _ _ Hc) in *.
  apply (repeat_max_rounds t); [apply local_run|done|lia|lia].
Qed.

Lemma finditer_from_rounds p t n m c adv :
  position t c → to_scan t c adv < n → to_scan t c adv < m →
  finditer_from n p t c adv = finditer_from m p t c adv.
Proof.
  revert m c adv. induction n as [|n IH]; intros m c adv Hc Hn Hm; [lia|].
  destruct m as [|m]; [lia|]. simpl.
  destruct (scan p adv (pos c) (prev c) (rest c)) as [[[a c'] cs]|] eqn:E; [|done].
  destruct Hc as [Hr Hl].
  destruct (ReFacts.scan_spec _ t _ _ _ _ _ _ _ E Hr Hl)
    as (Hle & (Hr' & Hl' & Hlo & _) & Hadv).
  f_equal. unfold to_scan in *.
  apply IH; [done|..];
    destruct (pos c' =? a) eqn:Hz;
    [apply Nat.eqb_eq in Hz|apply Nat.eqb_neq in Hz
    |apply Nat.eqb_eq in Hz|apply Nat.eqb_neq in Hz];
    destruct adv; try specialize (Hadv eq_refl); lia.
Qed.

(** [finditer] is not cut short: any larger bound gives the same
    matches. *)
Lemma finditer_enough p s n :
  2 * length (list_ascii_of_string s) + 1 < n →
  finditer_from n p (list_ascii_of_string s)
    (origin (list_ascii_of_string s)) false
  = finditer p s.
Proof.
  intros Hn. unfold finditer. apply finditer_from_rounds.
  - split; simpl; [done|lia].
  - unfold to_scan. simpl. lia.
  - unfold to_scan. simpl. lia.
Qed.

End ReFuel.

(** ** Enough nesting

    The bounds of the parser are never reached either. *)

Module ParseFuel.
Import Re.

Lemma set_member_consumes s i s' :
  set_member s = Some (i, s') → length s' < length s.
Proof.
  destruct s as [|c s1]; [done|]. simpl.
  destruct (Ascii.eqb c "\").
  - destruct s1 as [|e s2]; [done|]. destruct (escape_item true e); [|done].
    intros [= <- <-]. simpl. lia.
  - intros [= <- <-]. lia.
Qed.

Lemma range_end_consumes s s' : range_end s = Some s' → length s' < length s.
Proof.
  destruct s as [|d [|h s2]]; [done..|]. simpl.
  destruct (_ && _); [|done]. intros [= <-]. simpl. lia.
Qed.

Lemma parse_set_consumes n first s its s' :
  parse_set n first s = Some (its, s') → length s' < length s.
Proof.
  revert first s its s'. induction n as [|n IH]; intros first s its s' H; [done|].
  cbn [parse_set] in H. destruct s as [|c s1]; [done|].
  destruct (Ascii.eqb c "]" && negb first).
  { injection H as <- <-. simpl. lia. }
  destruct (set_member (c :: s1)) as [[i s2]|] eqn:E1; [|done].
  apply set_member_consumes in E1. cbn [mbind option_bind] in H.
  destruct (range_end s2) as [s3|] eqn:E2.
  - apply range_end_consumes in E2.
    destruct (set_member s3) as [[j s4]|] eqn:E3; [|done].
    apply set_member_consumes in E3. cbn [mbind option_bind] in H.
    destruct (make_range i j); [|done]. cbn [mbind option_bind] in H.
    destruct (parse_set n false s4) as [[its0 s5]|] eqn:E4; [|done].
    apply IH in E4. injection H as <- <-. lia.
  - destruct (parse_set n false s2) as [[its0 s5]|] eqn:E4; [|done].
    apply IH in E4. injection H as <- <-. lia.
Qed.

(** A set is read with one round for each character. *)
Lemma parse_set_rounds n m first s :
  length s < n → length s < m → parse_set n first s = parse_set m first s.
Proof.
  revert m first s. induction n as [|n IH]; intros m first s Hn Hm; [lia|].
  destruct m as [|m]; [lia|]. cbn [parse_set].
  destruct s as [|c s1]; [done|].
  destruct (Ascii.eqb c "]" && negb first); [done|].
  destruct (set_member (c :: s1)) as [[i s2]|] eqn:E1; [|done].
  apply set_member_consumes in E1. cbn [mbind option_bind].
  destruct (range_end s2) as [s3|] eqn:E2.
  - apply range_end_consumes in E2.
    destruct (set_member s3) as [[j s4]|] eqn:E3; [|done].
    apply set_member_consumes in E3. cbn [mbind option_bind].
    destruct (make_range i j); [|done]. cbn [mbind option_bind].
    rewrite (IH m false s4) by lia. done.
  - rewrite (IH m false s2) by lia. done.
Qed.

Lemma parse_name_consumes s n s' :
  parse_name s = Some (n, s') → length s' < length s.
Proof.
  revert n s'. induction s as [|c s IH]; intros n s'; simpl; [done|].
  destruct (Ascii.eqb c ">"); [intros [= <- <-]; lia|].
  destruct (is_ident c); [|done].
  destruct (parse_name s) as [[n0 s0]|]; [|done].
  intros [= <- <-]. specialize (IH _ _ eq_refl). lia.
Qed.

Lemma group_opening_consumes s o s' :
  group_opening s = Some (o, s') → length s' ≤ length s.
Proof.
  destruct s as [|q s1]; simpl; [by intros [= <- <-]|].
  destruct (Ascii.eqb q "?"); [|by intros [= <- <-]].
  destruct s1 as [|k s2]; [done|].
  destruct (Ascii.eqb k ":"); [intros [= <- <-]; simpl; lia|].
  destruct (Ascii.eqb k "P"); [|done].
  destruct s2 as [|l s3]; [done|].
  destruct (Ascii.eqb l "<"); [|done].
  destruct (parse_name s3) as [[n s4]|] eqn:E; [|done].
  apply parse_name_consumes in E. cbn [mbind option_bind].
  destruct (valid_name n); [|done]. intros [= <- <-]. simpl. lia.
Qed.

Lemma simple_atom_consumes s r s' :
  simple_atom s = Some (r, s') → length s' < length s.
Proof.
  destruct s as [|c s1]; [done|]. cbn [simple_atom].
  destruct (Ascii.eqb c "[").
  { destruct s1 as [|n s2]; [done|].
    destruct (Ascii.eqb n "^").
    - destruct (parse_set (S (length s2)) true s2) as [[its s3]|] eqn:E;
        cbn [mbind option_bind]; [|done].
      apply parse_set_consumes in E. intros [= <- <-]. simpl. lia.
    - destruct (parse_set (S (length (n :: s2))) true (n :: s2))
        as [[its s3]|] eqn:E; cbn [mbind option_bind]; [|done].
      apply parse_set_consumes in E. intros [= <- <-]. simpl in *. lia. }
  destruct (Ascii.eqb c "\").
  { destruct s1 as [|e s2]; [done|].
    destruct (escape_item false e); cbn [mbind option_bind]; [|done].
    intros [= <- <-]. simpl. lia. }
  repeat (match goal with
          | |- (if ?b then _ else _) = _ → _ => destruct b
          end; [intros ?; simplify_eq; simpl; lia|]).
  intros ?. simplify_eq. simpl. lia.
Qed.

Lemma quantify_consumes r s r' s' :
  quantify r s = Some (r', s') → length s' ≤ length s.
Proof.
  destruct s as [|q s1]; simpl; [by intros [= <- <-]|].
  destruct (is_quantifier q); [|by intros [= <- <-]].
  assert (∀ o : option (regex * chars),
            o = (match s1 with
                 | q' :: _ => if is_quantifier q' then None else Some tt
                 | [] => Some tt
                 end ≫= λ _,
                 if Ascii.eqb q "*" then Some (Star r, s1)
                 else if Ascii.eqb q "+" then Some (Plus r, s1)
                 else if Ascii.eqb q "?" then Some (Opt r, s1)
                 else None) →
            o = Some (r', s') → length s' ≤ S (length s1)) as H.
  { intros o -> H.
    destruct (match s1 with [] => _ | _ => _ end); [|done]. simpl in H.
    repeat (match type of H with
            | (if ?b then _ else _) = _ => destruct b
            end; [simplify_eq; simpl; lia|]).
    done. }
  destruct r; try done; intros E; by eapply H.
Qed.

Lemma parse_alt_S n s st :
  parse_alt (S n) s st
  = '(r1, s1, st1) ← parse_branch n s st;
    match s1 with
    | c :: s2 =>
        if Ascii.eqb c "|" then
          '(r2, s3, st3) ← parse_alt n s2 st1;
          Some (Alt r1 r2, s3, st3)
        else Some (r1, s1, st1)
    | [] => Some (r1, s1, st1)
    end.
Proof. done. Qed.

Lemma parse_branch_S n s st :
  parse_branch (S n) s st
  = match s with
    | [] => Some (Eps, s, st)
    | c :: _ =>
        if Ascii.eqb c "|" || Ascii.eqb c ")" then Some (Eps, s, st)
        else
          '(r1, s1, st1) ← parse_item n s st;
          '(r2, s2, st2) ← parse_branch n s1 st1;
          Some (Seq r1 r2, s2, st2)
    end.
Proof. done. Qed.

Lemma parse_item_S n s st :
  parse_item (S n) s st
  = '(r, s2, st2) ←
      match s with
      | [] => None
      | c :: s1 =>
          if Ascii.eqb c "(" then
            '(o, s2) ← group_opening s1;
            '(st2, wrap) ← open_group o st;
            '(r, s3, st3) ← parse_alt n s2 st2;
            match s3 with
            | e :: s4 =>
                if Ascii.eqb e ")" then Some (wrap r, s4, st3) else None
            | [] => None
            end
          else
            '(r, s2) ← simple_atom s; Some (r, s2, st)
      end;
    '(r', s3) ← quantify r s2;
    Some (r', s3, st2).
Proof. done. Qed.

(** An item takes at least one character; nothing gives characters
    back. *)
Lemma parse_consumes n :
  (∀ s st r s' st',
     parse_alt n s st = Some (r, s', st') → length s' ≤ length s) ∧
  (∀ s st r s' st',
     parse_branch n s st = Some (r, s', st') → length s' ≤ length s) ∧
  (∀ s st r s' st',
     parse_item n s st = Some (r, s', st') → length s' < length s).
Proof.
  induction n as [|n (IHa & IHb & IHi)]; [done|].
  split_and!; intros s st r s' st' H.
  - rewrite parse_alt_S in H.
    destruct (parse_branch n s st) as [[[r1 s1] st1]|] eqn:E; [|done].
    apply IHb in E. cbn [mbind option_bind] in H.
    destruct s1 as [|c s2]; [by simplify_eq|].
    destruct (Ascii.eqb c "|"); [|by simplify_eq].
    destruct (parse_alt n s2 st1) as [[[r2 s3] st3]|] eqn:E2; [|done].
    apply IHa in E2. cbn [mbind option_bind] in H. simplify_eq. simpl in *. lia.
  - rewrite parse_branch_S in H.
    destruct s as [|c s0]; [by simplify_eq|].
    destruct (_ || _); [by simplify_eq|].
    destruct (parse_item n (c :: s0) st) as [[[r1 s1] st1]|] eqn:E1; [|done].
    apply IHi in E1. cbn [mbind option_bind] in H.
    destruct (parse_branch n s1 st1) as [[[r2 s2] st2]|] eqn:E2; [|done].
    apply IHb in E2. cbn [mbind option_bind] in H. simplify_eq. lia.
  - rewrite parse_item_S in H.
    destruct s as [|c s1]; [done|].
    destruct (Ascii.eqb c "(").
    + destruct (group_opening s1) as [[o s2]|] eqn:E1; [|done].
      apply group_opening_consumes in E1. cbn [mbind option_bind] in H.
      destruct (open_group o st) as [[st2 wrap]|]; [|done].
      cbn [mbind option_bind] in H.
      destruct (parse_alt n s2 st2) as [[[r0 s3] st3]|] eqn:E2; [|done].
      apply IHa in E2. cbn [mbind option_bind] in H.
      destruct s3 as [|e s4]; [done|]. destruct (Ascii.eqb e ")"); [|done].
      cbn [mbind option_bind] in H.
      destruct (quantify (wrap r0) s4) as [[r' s5]|] eqn:E3; [|done].
      apply quantify_consumes in E3. cbn [mbind option_bind] in H.
      simplify_eq. simpl in *. lia.
    + destruct (simple_atom (c :: s1)) as [[r0 s2]|] eqn:E1; [|done].
      apply simple_atom_consumes in E1. cbn [mbind option_bind] in H.
      destruct (quantify r0 s2) as [[r' s3]|] eqn:E3; [|done].
      apply quantify_consumes in E3. cbn [mbind option_bind] in H.
      simplify_eq. lia.
Qed.

(** Three rounds for each character are enough at every level. *)
Lemma parse_rounds n :
  (∀ m s st, 3 * length s + 2 ≤ n → 3 * length s + 2 ≤ m →
             parse_alt n s st = parse_alt m s st) ∧
  (∀ m s st, 3 * length s + 1 ≤ n → 3 * length s + 1 ≤ m →
             parse_branch n s st = parse_branch m s st) ∧
  (∀ m s st, 3 * length s ≤ n → 3 * length s ≤ m →
             parse_item n s st = parse_item m s st).
Proof.
  induction n as [|n (IHa & IHb & IHi)].
  { split_and!; intros m s st Hn Hm; [lia|lia|].
    destruct s; [|simpl in Hn; lia]. by destruct m. }
  split_and!; intros m s st Hn Hm.
  - destruct m as [|m]; [lia|]. rewrite !parse_alt_S.
    rewrite (IHb m s st) by lia.
    destruct (parse_branch m s st) as [[[r1 s1] st1]|] eqn:E; [|done].
    apply (proj1 (proj2 (parse_consumes m))) in E. cbn [mbind option_bind].
    destruct s1 as [|c s2]; [done|]. destruct (Ascii.eqb c "|"); [|done].
    simpl in E. rewrite (IHa m s2 st1) by lia. done.
  - destruct m as [|m]; [lia|]. rewrite !parse_branch_S.
    destruct s as [|c s0]; [done|]. destruct (_ || _); [done|].
    simpl in Hn, Hm. rewrite (IHi m (c :: s0) st) by (simpl; lia).
    destruct (parse_item m (c :: s0) st) as [[[r1 s1] st1]|] eqn:E; [|done].
    apply (proj2 (proj2 (parse_consumes m))) in E. cbn [mbind option_bind].
    simpl in E. rewrite (IHb m s1 st1) by lia. done.
  - destruct s as [|c s1].
    { destruct m; [done|]. by rewrite !parse_item_S. }
    simpl in Hn, Hm. destruct m as [|m]; [lia|]. rewrite !parse_item_S.
    destruct (Ascii.eqb c "("); [|done].
    destruct (group_opening s1) as [[o s2]|] eqn:E1; [|done].
    apply group_opening_consumes in E1. cbn [mbind option_bind].
    destruct (open_group o st) as [[st2 wrap]|]; [|done].
    cbn [mbind option_bind]. rewrite (IHa m s2 st2) by lia. done.
Qed.

(** The bound of [compile] is enough: a larger one parses the same. *)
Lemma compile_enough s st n :
  4 + 4 * length s ≤ n →
  parse_alt n s st = parse_alt (4 + 4 * length s) s st.
Proof.
  intros Hn. apply (proj1 (parse_rounds n)); lia.
Qed.

End ParseFuel.

(** ** Loops *)

Lemma traverse_ok {A B} (f : A → result B) l ys :
  traverse f l = Ok ys ↔ Forall2 (λ x y, f x = Ok y) l ys.
Proof.
  revert ys. induction l as [|x l IH]; intros ys; simpl.
  - split.
    + intros [= <-]. constructor.
    + by intros ->%Forall2_nil_inv_l.
  - split.
    + destruct (f x) as [y|e] eqn:E; simpl; [|done].
      destruct (traverse f l) as [zs|e] eqn:E'; simpl; [|done].
      intros [= <-]. constructor; [done|]. by apply IH.
    + intros (y & zs & Hy & Hzs & ->)%Forall2_cons_inv_l.
      rewrite Hy. simpl. apply IH in Hzs. rewrite Hzs. done.
Qed.

Lemma traverse_raise_inv {A B} (f : A → result B) l e :
  traverse f l = Raise e → ∃ x, x ∈ l ∧ f x = Raise e.
Proof.
  induction l as [|x l IH]; simpl; [done|].
  destruct (f x) as [y|e'] eqn:E; simpl.
  - destruct (traverse f l) as [zs|e'] eqn:E'; simpl; [done|].
    intros [= ->]. destruct IH as (x' & ? & ?); [done|].
    exists x'. split; [by right|done].
  - intros [= ->]. exists x. split; [by left|done].
Qed.

Lemma traverse_raises {A B} (f : A → result B) l x e :
  x ∈ l → f x = Raise e → ∃ e', traverse f l = Raise e'.
Proof.
  intros Hin Hx. destruct (traverse f l) as [ys|e'] eqn:E; [|eauto].
  apply traverse_ok in E.
  destruct (proj1 (list_elem_of_lookup _ _) Hin) as [i Hi].
  destruct (Forall2_lookup_l _ _ _ _ _ E Hi) as (y & _ & Hy). congruence.
Qed.

Lemma traverse_length {A B} (f : A → result B) l ys :
  traverse f l = Ok ys → length ys = length l.
Proof. intros H%traverse_ok. symmetry. by eapply Forall2_length. Qed.

Ltac step_result :=
  cbv [fmap result_fmap mbind result_bind mret result_ret or_raise] in *.

Lemma traverse_total_on {A B} (f : A → result B) l :
  (∀ x, x ∈ l → ∃ y, f x = Ok y) → ∃ ys, traverse f l = Ok ys.
Proof.
  induction l as [|x l IH]; intros Hf; simpl; [eauto|].
  destruct (Hf x) as [y ->]; [left|]. step_result.
  destruct IH as [ys ->]; [|eauto]. intros z Hz. apply Hf. by right.
Qed.

Lemma traverse_total {A B} (f : A → result B) l :
  (∀ x, ∃ y, f x = Ok y) → ∃ ys, traverse f l = Ok ys.
Proof.
  intros Hf. induction l as [|x l [ys IH]]; simpl; [eauto|].
  destruct (Hf x) as [y ->]. simpl. rewrite IH. simpl. eauto.
Qed.

(** ** [read_table_pattern] step by step *)

Section TableRead.

Context (fs : files).
Context (header_pattern row_pattern footer_pattern : string).
Context (postprocess : converter).
Context (attribute_name : option string) (last_one_only : bool).
Context (self : QCCalc) (text : string) (table_pattern rp : Re.pattern).
Context (Hfile : fs (filename self) = Some text).
Context (Htable : Re.compile
  (table_pattern_text header_pattern row_pattern footer_pattern)
  re_MULTILINE_DOTALL = Some table_pattern).
Context (Hrow : Re.compile row_pattern Re.no_flags = Some rp).

(** Once the file is read and both patterns are compiled, the call is
    the loop over the matches, the choice of the retained data and the
    assignment. *)
Lemma read_table_pattern_run :
  read_table_pattern fs header_pattern row_pattern footer_pattern postprocess
    attribute_name last_one_only self
  = match traverse (process_table rp postprocess)
            (Re.finditer table_pattern text) with
    | Ok tables =>
        match (if last_one_only then last_item tables else Ok (PList tables)) with
        | Ok v => (Ok v, stored attribute_name v self)
        | Raise e => (Raise e, self)
        end
    | Raise e => (Raise e, self)
    end.
Proof.
  unfold read_table_pattern, mbind, M_bind, get_self, lift, zopen_read.
  rewrite Hfile, Htable, Hrow. simpl.
  destruct (traverse _ _) as [tables|e]; [|done].
  destruct (if last_one_only then _ else _) as [v|e]; [|done].
  destruct attribute_name; done.
Qed.

End TableRead.

(** The three ways the call can end before it looks for tables. *)
Lemma read_table_pattern_inv fs h r f pp attr last self res self' :
  read_table_pattern fs h r f pp attr last self = (res, self') →
  (∃ text table_pattern rp,
      fs (filename self) = Some text ∧
      Re.compile (table_pattern_text h r f) re_MULTILINE_DOTALL = Some table_pattern ∧
      Re.compile r Re.no_flags = Some rp) ∨
  (self' = self ∧ (res = Raise IOError ∨ res = Raise re_error)).
Proof.
  intros H.
  destruct (fs (filename self)) as [text|] eqn:Hf.
  2: { right. revert H.
       unfold read_table_pattern, mbind, M_bind, get_self, lift, zopen_read.
       rewrite Hf. simpl. intros [= <- <-]. auto. }
  destruct (Re.compile (table_pattern_text h r f) re_MULTILINE_DOTALL) as [tp|] eqn:Ht.
  2: { right. revert H.
       unfold read_table_pattern, mbind, M_bind, get_self, lift, zopen_read.
       rewrite Hf, Ht. simpl. intros [= <- <-]. auto. }
  destruct (Re.compile r Re.no_flags) as [rp|] eqn:Hr.
  2: { right. revert H.
       unfold read_table_pattern, mbind, M_bind, get_self, lift, zopen_read.
       rewrite Hf, Ht, Hr. simpl. intros [= <- <-]. auto. }
  left. by exists text, tp, rp.
Qed.

(** A call that raises leaves the object as it was. *)
Lemma read_table_pattern_atomic fs h r f pp attr last self e self' :
  read_table_pattern fs h r f pp attr last self = (Raise e, self') → self' = self.
Proof.
  intros H.
  destruct (read_table_pattern_inv _ _ _ _ _ _ _ _ _ _ H)
    as [(text & tp & rp & Hf & Ht & Hr)|[-> _]]; [|done].
  rewrite (read_table_pattern_run _ _ _ _ _ _ _ _ _ _ _ Hf Ht Hr) in H.
  destruct (traverse _ _) as [tables|e']; [|by injection H].
  destruct (if last then _ else _) as [v|e']; [done|by injection H].
Qed.

Section TableFacts.

Context (fs : files).
Context (header_pattern row_pattern footer_pattern : string).
Context (postprocess : converter).
Context (attribute_name : option string).
Context (self : QCCalc) (text : string) (table_pattern rp : Re.pattern).
Context (Hfile : fs (filename self) = Some text).
Context (Htable : Re.compile
  (table_pattern_text header_pattern row_pattern footer_pattern)
  re_MULTILINE_DOTALL = Some table_pattern).
Context (Hrow : Re.compile row_pattern Re.no_flags = Some rp).

Lemma call_run last_one_only :
  read_table_pattern fs header_pattern row_pattern footer_pattern
    postprocess attribute_name last_one_only self
  = match traverse (process_table rp postprocess)
            (Re.finditer table_pattern text) with
    | Ok tables =>
        match (if last_one_only then last_item tables else Ok (PList tables)) with
        | Ok v => (Ok v, stored attribute_name v self)
        | Raise e => (Raise e, self)
        end
    | Raise e => (Raise e, self)
    end.
Proof. by apply read_table_pattern_run. Qed.

Lemma no_match_run :
  Re.search table_pattern text = None →
  read_table_pattern fs header_pattern row_pattern footer_pattern
    postprocess attribute_name false self
  = (Ok (PList []), stored attribute_name (PList []) self) ∧
  read_table_pattern fs header_pattern row_pattern footer_pattern
    postprocess attribute_name true self
  = (Raise IndexError, self).
Proof.
  intros Hnone%ReFacts.finditer_nil. rewrite !call_run, Hnone. done.
Qed.

Lemma some_match_tables tables :
  is_Some (Re.search table_pattern text) →
  traverse (process_table rp postprocess) (Re.finditer table_pattern text)
    = Ok tables →
  ∃ t, last tables = Some t.
Proof.
  intros Hsome Htr. apply traverse_length in Htr.
  destruct (Re.finditer table_pattern text) as [|m ms] eqn:E.
  - apply ReFacts.finditer_nil in E. rewrite E in Hsome. by destruct Hsome.
  - destruct tables as [|t ts _] using rev_ind; [done|].
    exists t. by rewrite last_snoc.
Qed.

End TableFacts.

(** ** The table reader *)

(** C9: when the compound pattern matches nowhere in the text, the call
    with [last_one_only=False] returns the empty list of tables, stores
    it under [attribute_name] when one is given, and does not raise. *)
Theorem no_match_returns_empty fs header_pattern row_pattern footer_pattern
    postprocess attribute_name self text table_pattern rp :
  fs (filename self) = Some text →
  Re.compile (table_pattern_text header_pattern row_pattern footer_pattern)
    re_MULTILINE_DOTALL = Some table_pattern →
  Re.compile row_pattern Re.no_flags = Some rp →
  Re.search table_pattern text = None →
  read_table_pattern fs header_pattern row_pattern footer_pattern postprocess
    attribute_name false self
  = (Ok (PList []), stored attribute_name (PList []) self).
Proof.
  intros Hf Ht Hr Hnone.
  by destruct (no_match_run fs _ _ _ postprocess attribute_name _ _ _ _ Hf Ht Hr Hnone).
Qed.

Lemma no_match_returns_empty_witness :
  read_table_pattern (one_file "qchem.out" sample_no_table)
    scf_header scf_row scf_footer py_str (Some "SCF") false (fresh "qchem.out")
  = (Ok (PList []), set_data "SCF" (PList []) (fresh "qchem.out")).
Proof.
  eapply (no_match_returns_empty _ _ _ _ _ (Some "SCF")).
  - reflexivity.
  - vm_compute. reflexivity.
  - vm_compute. reflexivity.
  - vm_compute. reflexivity.
Defined.

(** C10: when the compound pattern matches nowhere in the text, the
    call with [last_one_only=True] raises [IndexError] at [tables[-1]],
    before the assignment: [self.data] is as it was. *)
Theorem no_match_last_one_raises fs header_pattern row_pattern footer_pattern
    postprocess attribute_name self text table_pattern rp :
  fs (filename self) = Some text →
  Re.compile (table_pattern_text header_pattern row_pattern footer_pattern)
    re_MULTILINE_DOTALL = Some table_pattern →
  Re.compile row_pattern Re.no_flags = Some rp →
  Re.search table_pattern text = None →
  read_table_pattern fs header_pattern row_pattern footer_pattern postprocess
    attribute_name true self
  = (Raise IndexError, self).
Proof.
  intros Hf Ht Hr Hnone.
  by destruct (no_match_run fs _ _ _ postprocess attribute_name _ _ _ _ Hf Ht Hr Hnone).
Qed.

Lemma no_match_last_one_raises_witness :
  read_table_pattern (one_file "qchem.out" sample_no_table)
    scf_header scf_row scf_footer py_str (Some "SCF") true (fresh "qchem.out")
  = (Raise IndexError, fresh "qchem.out").
Proof.
  eapply no_match_last_one_raises.
  - reflexivity.
  - vm_compute. reflexivity.
  - vm_compute. reflexivity.
  - vm_compute. reflexivity.
Defined.

(** C3: on a text where the compound pattern matches, the call with
    [last_one_only=True] returns the last table of what the call with
    [last_one_only=False] returns, the table itself and not a list
    around it, and stores that under [attribute_name]; when the other
    call raises, it raises the same. *)
Theorem last_one_only_returns_last_table fs header_pattern row_pattern
    footer_pattern postprocess attribute_name self text table_pattern :
  fs (filename self) = Some text →
  Re.compile (table_pattern_text header_pattern row_pattern footer_pattern)
    re_MULTILINE_DOTALL = Some table_pattern →
  is_Some (Re.search table_pattern text) →
  match read_table_pattern fs header_pattern row_pattern footer_pattern
          postprocess attribute_name false self with
  | (Ok v, _) =>
      ∃ tables t,
        v = PList tables ∧ last tables = Some t ∧
        read_table_pattern fs header_pattern row_pattern footer_pattern
          postprocess attribute_name true self
        = (Ok t, stored attribute_name t self)
  | (Raise e, _) =>
      read_table_pattern fs header_pattern row_pattern footer_pattern
        postprocess attribute_name true self
      = (Raise e, self)
  end.
Proof.
  intros Hf Ht Hsome.
  destruct (Re.compile row_pattern Re.no_flags) as [rp|] eqn:Hr.
  - rewrite !(read_table_pattern_run _ _ _ _ _ _ _ _ _ _ _ Hf Ht Hr).
    destruct (traverse _ _) as [tables|e] eqn:Htr; [|done].
    destruct (some_match_tables _ _ _ _ _ Hsome Htr) as [t Hlast].
    exists tables, t. unfold last_item. rewrite Hlast. done.
  - unfold read_table_pattern, mbind, M_bind, get_self, lift, zopen_read.
    rewrite Hf, Ht, Hr. done.
Qed.

Lemma last_one_only_returns_last_table_witness :
  read_table_pattern (one_file "qchem.out" sample_three_tables)
    scf_header scf_row scf_footer py_str (Some "SCF") true (fresh "qchem.out")
  = (Ok (PList [PList [PStr "-78.40"; PStr "3.00"; PStr "-01"];
                PList [PStr "-78.50"; PStr "3.00"; PStr "-02"];
                PList [PStr "-78.60"; PStr "3.00"; PStr "-09"]]),
     set_data "SCF"
       (PList [PList [PStr "-78.40"; PStr "3.00"; PStr "-01"];
               PList [PStr "-78.50"; PStr "3.00"; PStr "-02"];
               PList [PStr "-78.60"; PStr "3.00"; PStr "-09"]])
       (fresh "qchem.out")).
Proof.
  pose proof (last_one_only_returns_last_table
    (one_file "qchem.out" sample_three_tables) scf_header scf_row scf_footer
    py_str (Some "SCF") (fresh "qchem.out") sample_three_tables
    (default (Re.Build_pattern Re.Eps Re.no_flags 0 [])
       (Re.compile (table_pattern_text scf_header scf_row scf_footer)
          re_MULTILINE_DOTALL))) as H.
  assert (read_table_pattern (one_file "qchem.out" sample_three_tables)
            scf_header scf_row scf_footer py_str (Some "SCF") false
            (fresh "qchem.out")
          = (Ok (PList
              [PList [PList [PStr "-75.10"; PStr "1.00"; PStr "-01"];
                      PList [PStr "-76.20"; PStr "1.00"; PStr "-03"]];
               PList [PList [PStr "-77.30"; PStr "2.00"; PStr "-05"]];
               PList [PList [PStr "-78.40"; PStr "3.00"; PStr "-01"];
                      PList [PStr "-78.50"; PStr "3.00"; PStr "-02"];
                      PList [PStr "-78.60"; PStr "3.00"; PStr "-09"]]]),
             (read_table_pattern (one_file "qchem.out" sample_three_tables)
                scf_header scf_row scf_footer py_str (Some "SCF") false
                (fresh "qchem.out")).2)) as Hall
    by (vm_compute; reflexivity).
  rewrite Hall in H.
  destruct H as (tables & t & Hv & Hlast & Hcall).
  - reflexivity.
  - vm_compute. reflexivity.
  - vm_compute. eexists. reflexivity.
  - injection Hv as <-. injection Hlast as <-. exact Hcall.
Defined.

(** ** Rows and tables *)

Lemma search_re p s m : Re.search p s = Some m → Re.m_re m = p.
Proof.
  unfold Re.search.
  destruct (Re.scan _ _ _ _ _) as [[[a c] cs]|]; simpl; [|done].
  by intros [= <-].
Qed.

Lemma finditer_re p s m : m ∈ Re.finditer p s → Re.m_re m = p.
Proof.
  intros Hin. pose proof (ReFacts.finditer_match_ok p s) as H.
  rewrite Forall_forall in H. by destruct (H _ Hin).
Qed.

Lemma process_line_no_match rp postprocess line :
  Re.search rp line = None →
  process_line rp postprocess line = Raise AttributeError.
Proof. unfold process_line. by intros ->. Qed.

Lemma process_line_raise_inv rp postprocess line e :
  process_line rp postprocess line = Raise e →
  (Re.search rp line = None ∧ e = AttributeError) ∨
  ∃ cap, cap ∈ captured rp line ∧ postprocess cap = Raise e.
Proof.
  unfold process_line, captured.
  destruct (Re.search rp line) as [ml|]; simpl; [|intros [= <-]; by left].
  intros H. right.
  destruct (0 <? length (Re.groupdict ml)).
  - destruct (traverse _ (Re.groupdict ml)) as [d|e'] eqn:E; step_result; [done|].
    injection H as ->.
    apply traverse_raise_inv in E as ([k cap] & Hin & Hraise). simpl in Hraise.
    exists cap. split.
    + by apply (list_elem_of_fmap_2 snd _ (k, cap)).
    + destruct (postprocess cap); simpl in *; [done|congruence].
  - destruct (traverse _ (Re.groups ml)) as [l|e'] eqn:E; step_result; [done|].
    injection H as ->.
    apply traverse_raise_inv in E as (cap & Hin & Hraise). eauto.
Qed.

Lemma process_line_capture_raises rp postprocess line cap e :
  cap ∈ captured rp line → postprocess cap = Raise e →
  ∃ e', process_line rp postprocess line = Raise e'.
Proof.
  unfold process_line, captured.
  destruct (Re.search rp line) as [ml|]; simpl; [|by intros ?%elem_of_nil].
  intros Hin Hraise.
  destruct (0 <? length (Re.groupdict ml)).
  - apply list_elem_of_fmap in Hin as ([k cap'] & -> & Hin).
    destruct (traverse_raises (λ kv, v ← postprocess kv.2; Ok (kv.1, v))
                _ _ e Hin) as [e' ->]; [|by eauto].
    simpl in *. by rewrite Hraise.
  - destruct (traverse_raises _ _ _ _ Hin Hraise) as [e' ->]. by eauto.
Qed.

Lemma process_line_shape rp postprocess line row :
  process_line rp postprocess line = Ok row → row_shape rp row.
Proof.
  unfold process_line, row_shape.
  destruct (Re.search rp line) as [ml|] eqn:Hs; [|done].
  apply search_re in Hs. step_result.
  unfold Re.groupdict, Re.groups. rewrite Hs, length_map.
  destruct (0 <? length (Re.groupindex rp)) eqn:Hlen.
  - rewrite bool_decide_eq_false_2.
    2: { intros Heq. by rewrite Heq in Hlen. }
    destruct (traverse _ _) as [d|] eqn:E; [|done]. intros [= <-].
    exists d. split; [done|].
    apply traverse_ok in E.
    revert d E. generalize (Re.groupindex rp).
    induction l as [|[k i] l IH]; intros d H.
    + by apply Forall2_nil_inv_l in H as ->.
    + apply Forall2_cons_inv_l in H as (y & d' & Hy & Hd & ->). simpl in *.
      destruct (postprocess _); [|done]. injection Hy as <-. simpl.
      f_equal. by apply IH.
  - rewrite bool_decide_eq_true_2.
    2: { by destruct (Re.groupindex rp). }
    destruct (traverse _ _) as [l|] eqn:E; [|done]. intros [= <-].
    exists l. split; [done|].
    apply traverse_length in E. by rewrite E, length_map, length_seq.
Qed.

Lemma process_table_ok rp postprocess mt table :
  process_table rp postprocess mt = Ok table →
  ∃ body rows,
    Re.group_named mt "table_body" = Some (Some body) ∧ table = PList rows ∧
    Forall2 (λ line row, process_line rp postprocess line = Ok row)
            (str_split LF body) rows.
Proof.
  unfold process_table.
  destruct (Re.group_named mt "table_body") as [[body|]|]; simpl; [|done..].
  destruct (traverse _ _) as [rows|] eqn:E; step_result; [|done]. intros [= <-].
  exists body, rows. by apply traverse_ok in E.
Qed.

Lemma process_table_raise_inv rp postprocess mt e :
  process_table rp postprocess mt = Raise e →
  (Re.group_named mt "table_body" = None ∧ e = IndexError) ∨
  (Re.group_named mt "table_body" = Some None ∧ e = AttributeError) ∨
  ∃ body line,
    Re.group_named mt "table_body" = Some (Some body) ∧
    line ∈ str_split LF body ∧ process_line rp postprocess line = Raise e.
Proof.
  unfold process_table.
  destruct (Re.group_named mt "table_body") as [[body|]|]; simpl.
  - destruct (traverse _ _) as [rows|e'] eqn:E; step_result; [done|]. intros [= <-].
    apply traverse_raise_inv in E as (line & ? & ?).
    right; right. by exists body, line.
  - intros [= <-]. auto.
  - intros [= <-]. auto.
Qed.

Lemma process_table_line_raises rp postprocess mt body line e :
  Re.group_named mt "table_body" = Some (Some body) →
  line ∈ str_split LF body → process_line rp postprocess line = Raise e →
  ∃ e', process_table rp postprocess mt = Raise e'.
Proof.
  intros Hg Hin Hraise. unfold process_table. rewrite Hg. simpl.
  destruct (traverse_raises _ _ _ _ Hin Hraise) as [e' ->]. by eauto.
Qed.

(** The loop over the tables goes through when every match has a body,
    the row pattern matches every line of every body, and [postprocess]
    accepts what it is given. *)
Lemma tables_returned rp postprocess ms :
  (∀ mt, mt ∈ ms →
     ∃ body, Re.group_named mt "table_body" = Some (Some body) ∧
             ∀ line, line ∈ str_split LF body → is_Some (Re.search rp line)) →
  (∀ cap, ∃ w, postprocess cap = Ok w) →
  ∃ tables, traverse (process_table rp postprocess) ms = Ok tables.
Proof.
  intros Hms Hpp. apply traverse_total_on. intros mt Hmt.
  destruct (Hms _ Hmt) as (body & Hbody & Hlines).
  unfold process_table. rewrite Hbody. step_result.
  destruct (traverse_total_on (process_line rp postprocess) (str_split LF body))
    as [rows ->]; [|eauto].
  intros line Hline. destruct (Hlines _ Hline) as [ml Hml].
  unfold process_line. rewrite Hml. step_result.
  destruct (0 <? length (Re.groupdict ml)).
  - destruct (traverse_total_on
                (λ kv : string * option string,
                   match postprocess kv.2 with
                   | Ok a => Ok (kv.1, a)
                   | Raise e => Raise e
                   end) (Re.groupdict ml)) as [d ->]; [|eauto].
    intros [k cap] _. simpl. destruct (Hpp cap) as [w ->]. eauto.
  - destruct (traverse_total postprocess (Re.groups ml) Hpp) as [l ->]. eauto.
Qed.

(** The name [table_body] is looked up in the pattern, so it is found in
    every match of a pattern or in none. *)
Lemma group_named_same p s m m' name :
  m ∈ Re.finditer p s → m' ∈ Re.finditer p s →
  is_Some (Re.group_named m name) → is_Some (Re.group_named m' name).
Proof.
  intros Hm%finditer_re Hm'%finditer_re. unfold Re.group_named.
  rewrite Hm, Hm'. destruct (_ !! name); simpl; [eauto|by intros [? ?]].
Qed.

(** C2: a line of a table body that the row pattern does not match
    makes the call raise, whatever the other lines are: nothing is
    skipped, nothing is returned and [self.data] is as it was. With a
    [postprocess] that never raises, the exception is the
    [AttributeError] of looking up groups on the non-match. *)
Theorem malformed_row_raises fs header_pattern row_pattern footer_pattern
    postprocess attribute_name last_one_only self text table_pattern rp
    mt body line :
  fs (filename self) = Some text →
  Re.compile (table_pattern_text header_pattern row_pattern footer_pattern)
    re_MULTILINE_DOTALL = Some table_pattern →
  Re.compile row_pattern Re.no_flags = Some rp →
  mt ∈ Re.finditer table_pattern text →
  Re.group_named mt "table_body" = Some (Some body) →
  line ∈ str_split LF body →
  Re.search rp line = None →
  ∃ e,
    read_table_pattern fs header_pattern row_pattern footer_pattern postprocess
      attribute_name last_one_only self
    = (Raise e, self) ∧
    ((∀ v, ∃ w, postprocess v = Ok w) → e = AttributeError).
Proof.
  intros Hf Ht Hr Hmt Hbody Hline Hnone.
  rewrite (read_table_pattern_run _ _ _ _ _ _ _ _ _ _ _ Hf Ht Hr).
  apply (process_line_no_match _ postprocess) in Hnone.
  destruct (process_table_line_raises _ _ _ _ _ _ Hbody Hline Hnone) as [e1 H1].
  destruct (traverse_raises _ _ _ _ Hmt H1) as [e Htr]. rewrite Htr.
  exists e. split; [done|]. intros Htotal.
  apply traverse_raise_inv in Htr as (mt' & Hmt' & Hraise).
  apply process_table_raise_inv in Hraise
    as [[Hno _]|[[_ ->]|(body' & line' & _ & _ & Hraise)]].
  - destruct (group_named_same _ _ _ _ "table_body" Hmt Hmt') as [g Hg]; [eauto|].
    congruence.
  - done.
  - apply process_line_raise_inv in Hraise as [[_ ->]|(cap & _ & Hcap)]; [done|].
    destruct (Htotal cap) as [w Hw]. congruence.
Qed.

Lemma malformed_row_raises_witness :
  ∃ e,
    read_table_pattern (one_file "qchem.out" sample_blank_row)
      scf_header scf_row scf_footer py_str (Some "SCF") false (fresh "qchem.out")
    = (Raise e, fresh "qchem.out") ∧
    ((∀ v, ∃ w, py_str v = Ok w) → e = AttributeError).
Proof.
  eapply (malformed_row_raises _ _ _ _ _ _ _ _ sample_blank_row _ _ _ _ "").
  - reflexivity.
  - vm_compute. reflexivity.
  - vm_compute. reflexivity.
  - vm_compute. left.
  - vm_compute. reflexivity.
  - vm_compute. right. left.
  - vm_compute. reflexivity.
Defined.

(** C6: when [postprocess] raises on a string captured in a line of a
    table body, the call raises: it returns no result, partial or
    otherwise, and [self.data] is as it was. The exception is one that
    [postprocess] raised, unless a lookup on a line before it had already
    failed. *)
Theorem conversion_error_aborts fs header_pattern row_pattern footer_pattern
    postprocess attribute_name last_one_only self text table_pattern rp
    mt body line cap e :
  fs (filename self) = Some text →
  Re.compile (table_pattern_text header_pattern row_pattern footer_pattern)
    re_MULTILINE_DOTALL = Some table_pattern →
  Re.compile row_pattern Re.no_flags = Some rp →
  mt ∈ Re.finditer table_pattern text →
  Re.group_named mt "table_body" = Some (Some body) →
  line ∈ str_split LF body →
  cap ∈ captured rp line →
  postprocess cap = Raise e →
  ∃ e',
    read_table_pattern fs header_pattern row_pattern footer_pattern postprocess
      attribute_name last_one_only self
    = (Raise e', self) ∧
    (e' = AttributeError ∨ ∃ cap', postprocess cap' = Raise e').
Proof.
  intros Hf Ht Hr Hmt Hbody Hline Hcap Hraise.
  rewrite (read_table_pattern_run _ _ _ _ _ _ _ _ _ _ _ Hf Ht Hr).
  destruct (process_line_capture_raises _ _ _ _ _ Hcap Hraise) as [e0 H0].
  destruct (process_table_line_raises _ _ _ _ _ _ Hbody Hline H0) as [e1 H1].
  destruct (traverse_raises _ _ _ _ Hmt H1) as [e' Htr]. rewrite Htr.
  exists e'. split; [done|].
  apply traverse_raise_inv in Htr as (mt' & Hmt' & Hr').
  apply process_table_raise_inv in Hr'
    as [[Hno _]|[[_ ->]|(body' & line' & _ & _ & Hr')]].
  - destruct (group_named_same _ _ _ _ "table_body" Hmt Hmt') as [g Hg]; [eauto|].
    congruence.
  - by left.
  - apply process_line_raise_inv in Hr' as [[_ ->]|(cap' & _ & Hcap')]; eauto.
Qed.

Lemma conversion_error_aborts_witness :
  ∃ e',
    read_table_pattern (one_file "qchem.out" sample_three_tables)
      scf_header scf_row scf_footer digits_only (Some "SCF") false
      (fresh "qchem.out")
    = (Raise e', fresh "qchem.out") ∧
    (e' = AttributeError ∨ ∃ cap', digits_only cap' = Raise e').
Proof.
  eapply (conversion_error_aborts _ _ _ _ _ _ _ _ sample_three_tables
            _ _ _ _ _ (Some "-75.10")).
  - reflexivity.
  - vm_compute. reflexivity.
  - vm_compute. reflexivity.
  - vm_compute. left.
  - vm_compute. reflexivity.
  - vm_compute. left.
  - vm_compute. left.
  - vm_compute. reflexivity.
Defined.

(** C5: all the rows one call returns have the shape the row pattern
    fixes. With named groups every row is a dict whose keys are the group
    names; without, every row is a list with one entry per group. *)
Theorem rows_have_one_shape fs header_pattern row_pattern footer_pattern
    postprocess attribute_name last_one_only self rp v self' :
  Re.compile row_pattern Re.no_flags = Some rp →
  read_table_pattern fs header_pattern row_pattern footer_pattern postprocess
    attribute_name last_one_only self
  = (Ok v, self') →
  if last_one_only then table_shape rp v
  else ∃ tables, v = PList tables ∧ Forall (table_shape rp) tables.
Proof.
  intros Hr Hcall.
  destruct (read_table_pattern_inv _ _ _ _ _ _ _ _ _ _ Hcall)
    as [(text & tp & rp' & Hf & Ht & Hr')|[_ [?|?]]]; [|done..].
  assert (rp' = rp) as -> by congruence.
  rewrite (read_table_pattern_run _ _ _ _ _ _ _ _ _ _ _ Hf Ht Hr) in Hcall.
  destruct (traverse _ _) as [tables|] eqn:Htr; [|done].
  assert (Forall (table_shape rp) tables) as Hall.
  { apply traverse_ok in Htr. apply Forall_forall. intros t Hin.
    apply list_elem_of_lookup in Hin as [i Hi].
    destruct (Forall2_lookup_r _ _ _ _ _ Htr Hi) as (mt & _ & Hmt).
    apply process_table_ok in Hmt as (body & rows & _ & -> & Hrows).
    exists rows. split; [done|].
    apply Forall_forall. intros row Hin.
    apply list_elem_of_lookup in Hin as [j Hj].
    destruct (Forall2_lookup_r _ _ _ _ _ Hrows Hj) as (ln & _ & Hln).
    by eapply process_line_shape. }
  destruct last_one_only.
  - unfold last_item in Hcall.
    destruct (last tables) as [t|] eqn:Hlast; simpl in Hcall; [|done].
    injection Hcall as <- _.
    rewrite Forall_forall in Hall. apply Hall.
    apply last_Some in Hlast as [l' ->]. set_solver.
  - injection Hcall as <- _. eauto.
Qed.


Lemma rows_have_one_shape_witness :
  ∃ rp,
    Re.compile named_scf_row Re.no_flags = Some rp ∧
    read_table_pattern (one_file "qchem.out" sample_three_tables)
      scf_header named_scf_row scf_footer py_str None false (fresh "qchem.out")
    = (Ok (PList
        [PList [PDict [("cycle", PStr "1"); ("energy", PStr "-75.10");
                       ("error", PStr "1.00E-01")];
                PDict [("cycle", PStr "2"); ("energy", PStr "-76.20");
                       ("error", PStr "1.00E-03")]];
         PList [PDict [("cycle", PStr "1"); ("energy", PStr "-77.30");
                       ("error", PStr "2.00E-05")]];
         PList [PDict [("cycle", PStr "1"); ("energy", PStr "-78.40");
                       ("error", PStr "3.00E-01")];
                PDict [("cycle", PStr "2"); ("energy", PStr "-78.50");
                       ("error", PStr "3.00E-02")];
                PDict [("cycle", PStr "3"); ("energy", PStr "-78.60");
                       ("error", PStr "3.00E-09")]]]),
       fresh "qchem.out") ∧
    ∃ tables,
      PList
        [PList [PDict [("cycle", PStr "1"); ("energy", PStr "-75.10");
                       ("error", PStr "1.00E-01")];
                PDict [("cycle", PStr "2"); ("energy", PStr "-76.20");
                       ("error", PStr "1.00E-03")]];
         PList [PDict [("cycle", PStr "1"); ("energy", PStr "-77.30");
                       ("error", PStr "2.00E-05")]];
         PList [PDict [("cycle", PStr "1"); ("energy", PStr "-78.40");
                       ("error", PStr "3.00E-01")];
                PDict [("cycle", PStr "2"); ("energy", PStr "-78.50");
                       ("error", PStr "3.00E-02")];
                PDict [("cycle", PStr "3"); ("energy", PStr "-78.60");
                       ("error", PStr "3.00E-09")]]]
      = PList tables ∧ Forall (table_shape rp) tables.
Proof.
  eexists. split; [vm_compute; reflexivity|].
  split; [vm_compute; reflexivity|].
  eapply (rows_have_one_shape (one_file "qchem.out" sample_three_tables)
            scf_header named_scf_row scf_footer py_str None false
            (fresh "qchem.out")).
  - vm_compute. reflexivity.
  - vm_compute. reflexivity.
Defined.

(** ** Order *)

Lemma split_on_cons sep s : ∃ l ls, split_on sep s = l :: ls.
Proof.
  destruct s as [|a s]; simpl; [eauto|].
  destruct (Ascii.eqb a sep); [eauto|].
  destruct (split_on sep s); eauto.
Qed.

(** Joining the pieces of [split] with the separator gives the string
    back: the lines are the text of the body, in its order. *)
Lemma unlines_split s : unlines (str_split LF s) = s.
Proof.
  unfold unlines, str_split.
  rewrite <- (string_of_list_ascii_of_string s) at 2.
  induction (list_ascii_of_string s) as [|a t IH]; [done|].
  cbn [split_on].
  destruct (Ascii.eqb a LF) eqn:Ha.
  - apply Ascii.eqb_eq in Ha as ->.
    destruct (split_on_cons LF t) as (l & ls & E). rewrite E in *.
    cbn [map String.concat] in *. rewrite IH. done.
  - destruct (split_on_cons LF t) as (l & ls & E). rewrite E in *.
    cbn [map String.concat string_of_list_ascii] in *.
    rewrite <- IH. by destruct (map string_of_list_ascii ls).
Qed.

Lemma span_of_elem i cs sp : Re.span_of i cs = Some sp → (i, sp) ∈ cs.
Proof.
  induction cs as [|[j sp'] cs IH]; simpl; [done|].
  destruct (i =? j) eqn:E.
  - apply Nat.eqb_eq in E as ->. intros [= ->]. left.
  - intros H. right. by apply IH.
Qed.

Lemma group_named_slice p t lo m name body :
  Re.match_ok p t lo m →
  Re.group_named m name = Some (Some body) →
  ∃ a b, Re.m_start m ≤ a ∧ a ≤ b ∧ b ≤ Re.m_end m ∧ body = Re.slice t a b.
Proof.
  intros (_ & Hstr & _ & _ & _ & Hcaps). unfold Re.group_named, Re.group.
  destruct (_ !! name) as [i|]; simpl; [|done].
  destruct (Re.span_of i (Re.m_caps m)) as [[a b]|] eqn:E; simpl; [|done].
  intros [= <-]. apply span_of_elem in E. apply Hcaps in E.
  exists a, b. rewrite Hstr. by destruct E as (? & ? & ?).
Qed.

(** C1: with [last_one_only=False] the call returns one table for each
    match of the compound pattern, in the order of [finditer], which is
    the order of the text: every match starts where the one before it
    ended, or later. The body of a table is a stretch of the text inside
    its match, and the rows of the table are the lines of that stretch,
    one row for each line, in their order. *)
Theorem tables_in_text_order fs header_pattern row_pattern footer_pattern
    postprocess attribute_name self v self' :
  read_table_pattern fs header_pattern row_pattern footer_pattern postprocess
    attribute_name false self
  = (Ok v, self') →
  ∃ text table_pattern rp tables,
    fs (filename self) = Some text ∧
    Re.compile (table_pattern_text header_pattern row_pattern footer_pattern)
      re_MULTILINE_DOTALL = Some table_pattern ∧
    Re.compile row_pattern Re.no_flags = Some rp ∧
    v = PList tables ∧
    Re.in_order 0 (Re.finditer table_pattern text) ∧
    Forall2 (table_of text rp postprocess)
            (Re.finditer table_pattern text) tables.
Proof.
  intros Hcall.
  destruct (read_table_pattern_inv _ _ _ _ _ _ _ _ _ _ Hcall)
    as [(text & tp & rp & Hf & Ht & Hr)|[_ [?|?]]]; [|done..].
  rewrite (read_table_pattern_run _ _ _ _ _ _ _ _ _ _ _ Hf Ht Hr) in Hcall.
  destruct (traverse _ _) as [tables|] eqn:Htr; [|done].
  injection Hcall as <- _.
  exists text, tp, rp, tables. split_and!; try done.
  - apply ReFacts.finditer_in_order.
  - apply traverse_ok in Htr.
    pose proof (ReFacts.finditer_match_ok tp text) as Hok.
    revert Htr Hok. generalize (Re.finditer tp text). intros ms Htr.
    induction Htr as [|mt t ms ts Hmt _ IH]; intros Hok; [constructor|].
    apply Forall_cons in Hok as [Hok1 Hok2].
    constructor; [|by apply IH].
    apply process_table_ok in Hmt as (body & rows & Hbody & -> & Hrows).
    destruct (group_named_slice _ _ _ _ _ _ Hok1 Hbody) as (a & b & ? & ? & ? & ->).
    exists a, b, rows. split_and!; try done. apply unlines_split.
Qed.

Lemma tables_in_text_order_witness :
  read_table_pattern (one_file "qchem.out" sample_three_tables)
    scf_header scf_row scf_footer py_str (Some "SCF") false (fresh "qchem.out")
  = (Ok (PList
      [PList [PList [PStr "-75.10"; PStr "1.00"; PStr "-01"];
              PList [PStr "-76.20"; PStr "1.00"; PStr "-03"]];
       PList [PList [PStr "-77.30"; PStr "2.00"; PStr "-05"]];
       PList [PList [PStr "-78.40"; PStr "3.00"; PStr "-01"];
              PList [PStr "-78.50"; PStr "3.00"; PStr "-02"];
              PList [PStr "-78.60"; PStr "3.00"; PStr "-09"]]]),
     set_data "SCF" (PList
      [PList [PList [PStr "-75.10"; PStr "1.00"; PStr "-01"];
              PList [PStr "-76.20"; PStr "1.00"; PStr "-03"]];
       PList [PList [PStr "-77.30"; PStr "2.00"; PStr "-05"]];
       PList [PList [PStr "-78.40"; PStr "3.00"; PStr "-01"];
              PList [PStr "-78.50"; PStr "3.00"; PStr "-02"];
              PList [PStr "-78.60"; PStr "3.00"; PStr "-09"]]])
       (fresh "qchem.out")) ∧
  ∃ text table_pattern rp tables,
    one_file "qchem.out" sample_three_tables (filename (fresh "qchem.out"))
      = Some text ∧
    Re.compile (table_pattern_text scf_header scf_row scf_footer)
      re_MULTILINE_DOTALL = Some table_pattern ∧
    Re.compile scf_row Re.no_flags = Some rp ∧
    PList
      [PList [PList [PStr "-75.10"; PStr "1.00"; PStr "-01"];
              PList [PStr "-76.20"; PStr "1.00"; PStr "-03"]];
       PList [PList [PStr "-77.30"; PStr "2.00"; PStr "-05"]];
       PList [PList [PStr "-78.40"; PStr "3.00"; PStr "-01"];
              PList [PStr "-78.50"; PStr "3.00"; PStr "-02"];
              PList [PStr "-78.60"; PStr "3.00"; PStr "-09"]]]
      = PList tables ∧
    Re.in_order 0 (Re.finditer table_pattern text) ∧
    Forall2 (table_of text rp py_str) (Re.finditer table_pattern text) tables.
Proof.
  split; [vm_compute; reflexivity|].
  eapply (tables_in_text_order (one_file "qchem.out" sample_three_tables)
            scf_header scf_row scf_footer py_str (Some "SCF") (fresh "qchem.out")).
  vm_compute. reflexivity.
Defined.

(** C1, as the claim has it, fails: three disjoint blocks do not always
    give three tables. With [DOTALL] a header that ends in [.*] runs
    over the ends of lines, so the one match of the compound pattern
    starts at the first [BEGIN] and frames the last block alone. Each
    block read on its own gives one table with its row. *)
Lemma three_blocks_one_table :
  let read text :=
    (read_table_pattern (one_file "t.out" text) "BEGIN.*" "(\d+)" "END"
       py_str None false (fresh "t.out")).1 in
  read (unlines (block "1" ++ [""])) = Ok (PList [PList [PList [PStr "1"]]]) ∧
  read (unlines (block "2" ++ [""])) = Ok (PList [PList [PList [PStr "2"]]]) ∧
  read (unlines (block "3" ++ [""])) = Ok (PList [PList [PList [PStr "3"]]]) ∧
  read sample_three_blocks = Ok (PList [PList [PList [PStr "3"]]]) ∧
  read sample_three_blocks
  ≠ Ok (PList [PList [PList [PStr "1"]]; PList [PList [PStr "2"]];
               PList [PList [PStr "3"]]]).
Proof.
  intros read.
  assert (read sample_three_blocks = Ok (PList [PList [PList [PStr "3"]]])) as H
    by (vm_compute; reflexivity).
  split; [vm_compute; reflexivity|]. split; [vm_compute; reflexivity|].
  split; [vm_compute; reflexivity|]. split; [exact H|].
  rewrite H. intros [=].
Qed.

(** ** [regrep] *)

Section Grep.

Context (postprocess : converter) (reverse terminate_on_match : bool).

(** One line, all patterns: a key without a match keeps its list, a key
    with a match gets one more entry, the postprocessed groups of the
    match and the line number. *)
Lemma grep_line_fold i l compiled :
  NoDup compiled.*1 →
  ∀ matches0 matches',
    fold_result (monty.grep_line postprocess reverse i l) matches0 compiled
      = Ok matches' →
    (∀ k, k ∉ compiled.*1 → matches' !! k = matches0 !! k) ∧
    (∀ k p, (k, p) ∈ compiled →
       match Re.search p l with
       | Some m =>
           ∃ gs, traverse postprocess (Re.groups m) = Ok gs ∧
                 matches' !! k
                 = Some (default [] (matches0 !! k)
                         ++ [(gs, if reverse then (- i)%Z else i)])
       | None => matches' !! k = matches0 !! k
       end).
Proof.
  induction compiled as [|[k1 p1] compiled IH]; intros Hnd matches0 matches' H.
  - injection H as <-. split; [done|]. by intros ?? ?%elem_of_nil.
  - rewrite fmap_cons in Hnd. apply NoDup_cons in Hnd as [Hk1 Hnd].
    simpl in Hk1. cbn [fold_result] in H.
    destruct (monty.grep_line _ _ _ _ matches0 (k1, p1)) as [matches1|] eqn:E1;
      step_result; [|done].
    destruct (IH Hnd _ _ H) as [Hout Hin].
    assert (∀ k, k ≠ k1 → matches1 !! k = matches0 !! k) as Hother.
    { intros k Hk. unfold monty.grep_line in E1. simpl in E1.
      destruct (Re.search p1 l); [|by injection E1 as <-].
      destruct (traverse _ _); step_result; [|done]. injection E1 as <-.
      unfold monty.append. by rewrite lookup_insert_ne. }
    split.
    + intros k Hk. rewrite fmap_cons, not_elem_of_cons in Hk.
      destruct Hk as [Hne Hk]. rewrite (Hout _ Hk). by apply Hother.
    + intros k p [[= -> ->]|Hkp]%elem_of_cons.
      * rewrite (Hout _ Hk1). unfold monty.grep_line in E1. simpl in E1.
        destruct (Re.search p1 l); [|by injection E1 as <-].
        destruct (traverse _ _) as [gs|]; step_result; [|done].
        injection E1 as <-. exists gs. split; [done|].
        unfold monty.append. by rewrite lookup_insert_eq.
      * assert (k ≠ k1) as Hne.
        { intros ->. apply Hk1. by apply (list_elem_of_fmap_2 fst _ (k1, p)). }
        specialize (Hin _ _ Hkp). by rewrite (Hother _ Hne) in Hin.
Qed.

(** All lines: the scan goes through a first part [scanned] of the
    lines, all of them unless it stopped early, and every key gets the
    entries of its matches in [scanned], in order. *)
Lemma grep_lines_spec compiled :
  NoDup compiled.*1 →
  ∀ lines i matches0 matches,
    monty.grep_lines compiled postprocess reverse terminate_on_match
      i lines matches0 = Ok matches →
    ∃ scanned,
      scanned `prefix_of` lines ∧
      (scanned = lines ∨
       (terminate_on_match = true ∧ monty.all_found compiled matches = true)) ∧
      (∀ k, k ∉ compiled.*1 → matches !! k = matches0 !! k) ∧
      (∀ k p, (k, p) ∈ compiled →
         ∃ new,
           default [] (matches !! k) = default [] (matches0 !! k) ++ new ∧
           Forall2 (λ m x, traverse postprocess (Re.groups m) = Ok x.1)
                   (found_in p scanned) new).
Proof.
  intros Hnd lines.
  induction lines as [|l lines IH]; intros i matches0 matches H; cbn [monty.grep_lines] in H.
  - injection H as <-. exists []. split_and!; [done|by left|done|].
    intros k p _. exists []. rewrite app_nil_r. split; [done|constructor].
  - destruct (fold_result _ matches0 compiled) as [matches1|] eqn:E1;
      step_result; [|done].
    destruct (grep_line_fold _ _ _ Hnd _ _ E1) as [Hout1 Hin1].
    assert (∀ k p, (k, p) ∈ compiled →
              ∃ new, default [] (matches1 !! k) = default [] (matches0 !! k) ++ new ∧
                     Forall2 (λ m x, traverse postprocess (Re.groups m) = Ok x.1)
                             (found_in p [l]) new) as Hl.
    { intros k p Hkp. specialize (Hin1 _ _ Hkp). unfold found_in. simpl.
      destruct (Re.search p l) as [m|].
      - destruct Hin1 as (gs & Hgs & ->). simpl. eexists [_]. split; [done|].
        by repeat constructor.
      - rewrite Hin1. exists []. rewrite app_nil_r. split; [done|constructor]. }
    destruct (terminate_on_match && monty.all_found compiled matches1) eqn:Hstop.
    + injection H as <-. apply andb_true_iff in Hstop as [-> Hall].
      exists [l]. split_and!; [by apply prefix_cons, prefix_nil|by right|done|done].
    + destruct (IH _ _ _ H) as (scanned & Hpre & Hend & Hout & Hin).
      exists (l :: scanned). split_and!.
      * by apply prefix_cons.
      * destruct Hend as [->|?]; [by left|by right].
      * intros k Hk. by rewrite Hout, Hout1.
      * intros k p Hkp.
        destruct (Hl _ _ Hkp) as (new1 & E & F1).
        destruct (Hin _ _ Hkp) as (new2 & E' & F2).
        exists (new1 ++ new2). rewrite E', E, app_assoc. split; [done|].
        unfold found_in in *. simpl in *.
        destruct (Re.search p l); simpl.
        -- apply Forall2_cons_inv_l in F1 as (x & ? & ? & ->%Forall2_nil_inv_l & ->).
           by constructor.
        -- by apply Forall2_nil_inv_l in F1 as ->.
Qed.

(** The scan goes through when [postprocess] accepts every group of
    every match. *)
Lemma grep_lines_total compiled lines :
  (∀ k p l m g, (k, p) ∈ compiled → l ∈ lines → Re.search p l = Some m →
                g ∈ Re.groups m → ∃ w, postprocess g = Ok w) →
  ∀ i matches0,
    ∃ matches,
      monty.grep_lines compiled postprocess reverse terminate_on_match
        i lines matches0 = Ok matches.
Proof.
  induction lines as [|l lines IH]; intros Hpp i matches0; cbn [monty.grep_lines].
  - eauto.
  - assert (∀ cs matches0,
              (∀ k p, (k, p) ∈ cs → (k, p) ∈ compiled) →
              ∃ matches1, fold_result (monty.grep_line postprocess reverse i l)
                            matches0 cs = Ok matches1) as Hfold.
    { induction cs as [|[k p] cs IHcs]; intros m0 Hsub; cbn [fold_result]; [eauto|].
      assert (∃ m1, monty.grep_line postprocess reverse i l m0 (k, p) = Ok m1)
        as [m1 ->].
      { unfold monty.grep_line. simpl.
        destruct (Re.search p l) as [m|] eqn:Hs; [|eauto].
        destruct (traverse_total_on postprocess (Re.groups m)) as [gs ->].
        { intros g Hg. eapply (Hpp k p l m g); [apply Hsub; left|left|done|done]. }
        step_result. eauto. }
      step_result. apply IHcs. intros ???. apply Hsub. by right. }
    destruct (Hfold compiled matches0) as [matches1 ->]; [done|]. step_result.
    destruct (_ && _); [eauto|].
    apply IH. intros k p l' m g ? ? ? ?. eapply (Hpp k p l' m g); [done|by right|done|done].
Qed.

End Grep.

(** ** The scalar reader *)

Lemma compile_all patterns compiled :
  traverse (λ kv : string * string,
              p ← or_raise re_error (Re.compile kv.2 Re.no_flags); Ok (kv.1, p))
           patterns = Ok compiled →
  compiled.*1 = patterns.*1 ∧
  Forall2 (λ kv kp, kp.1 = kv.1 ∧ Re.compile kv.2 Re.no_flags = Some kp.2)
          patterns compiled.
Proof.
  intros H%traverse_ok.
  induction H as [|[k v] [k' p] patterns compiled H _ [IH1 IH2]]; [done|].
  simpl in H. destruct (Re.compile v Re.no_flags) eqn:E; step_result; [|done].
  injection H as <- <-. split; [simpl; by rewrite IH1|by constructor].
Qed.

Lemma compiled_of_pattern (patterns : list (string * string))
    (compiled : list (string * Re.pattern)) k v p :
  Forall2 (λ kv kp, kp.1 = kv.1 ∧ Re.compile kv.2 Re.no_flags = Some kp.2)
          patterns compiled →
  (k, v) ∈ patterns → Re.compile v Re.no_flags = Some p → (k, p) ∈ compiled.
Proof.
  intros HF Hin Hc. apply list_elem_of_lookup in Hin as [i Hi].
  destruct (Forall2_lookup_l _ _ _ _ _ HF Hi) as ([k' p'] & Hi' & Hk & Hp).
  simpl in *. subst k'. assert (p' = p) as -> by congruence.
  by eapply list_elem_of_lookup_2.
Qed.

Lemma pattern_of_compiled (patterns : list (string * string))
    (compiled : list (string * Re.pattern)) k p :
  Forall2 (λ kv kp, kp.1 = kv.1 ∧ Re.compile kv.2 Re.no_flags = Some kp.2)
          patterns compiled →
  (k, p) ∈ compiled →
  ∃ v, (k, v) ∈ patterns ∧ Re.compile v Re.no_flags = Some p.
Proof.
  intros HF Hin. apply list_elem_of_lookup in Hin as [i Hi].
  destruct (Forall2_lookup_r _ _ _ _ _ HF Hi) as ([k' v] & Hi' & Hk & Hp).
  simpl in *. subst k'. exists v. split; [|done].
  by eapply list_elem_of_lookup_2.
Qed.

Lemma regrep_inv fs name patterns reverse terminate_on_match postprocess matches :
  monty.regrep fs name patterns reverse terminate_on_match postprocess = Ok matches →
  ∃ compiled text,
    compiled.*1 = patterns.*1 ∧
    Forall2 (λ kv kp, kp.1 = kv.1 ∧ Re.compile kv.2 Re.no_flags = Some kp.2)
            patterns compiled ∧
    fs name = Some text ∧
    monty.grep_lines compiled postprocess reverse terminate_on_match 0
      (scan_lines reverse text) ∅ = Ok matches.
Proof.
  unfold monty.regrep, zopen_read.
  destruct (traverse _ patterns) as [compiled|] eqn:Hc; step_result; [|done].
  destruct (fs name) as [text|]; [|done]. intros H.
  apply compile_all in Hc as [? ?]. by exists compiled, text.
Qed.

Lemma regrep_total fs name patterns reverse terminate_on_match postprocess text :
  fs name = Some text →
  Forall (λ kv, is_Some (Re.compile kv.2 Re.no_flags)) patterns →
  (∀ k v p l m g,
     (k, v) ∈ patterns → Re.compile v Re.no_flags = Some p →
     l ∈ scan_lines reverse text → Re.search p l = Some m → g ∈ Re.groups m →
     ∃ w, postprocess g = Ok w) →
  ∃ matches,
    monty.regrep fs name patterns reverse terminate_on_match postprocess
      = Ok matches.
Proof.
  intros Hf Hall Hpp. unfold monty.regrep, zopen_read.
  destruct (traverse_total_on
              (λ kv : string * string,
                 p ← or_raise re_error (Re.compile kv.2 Re.no_flags); Ok (kv.1, p))
              patterns) as [compiled Hc].
  { intros [k v] Hin. rewrite Forall_forall in Hall.
    destruct (Hall _ Hin) as [p Hp]. simpl in *. rewrite Hp. step_result. eauto. }
  rewrite Hc, Hf. step_result. apply compile_all in Hc as [_ HF].
  apply grep_lines_total. intros k p l m g Hkp Hl Hs Hg.
  destruct (pattern_of_compiled _ _ _ _ HF Hkp) as (v & Hv & Hcv). eauto.
Qed.

Lemma assign_filename matches keys self :
  filename (assign matches keys self) = filename self.
Proof.
  revert self. induction keys as [|k keys IH]; intros self; [done|].
  unfold assign in *. simpl. by rewrite IH.
Qed.

Lemma assign_lookup matches keys self k :
  data (assign matches keys self) !! k
  = if decide (k ∈ keys)
    then Some (PList (map (λ i, PList i.1) (default [] (matches !! k))))
    else data self !! k.
Proof.
  revert self. induction keys as [|k' keys IH] using rev_ind; intros self.
  - rewrite decide_False; [done|]. by intros ?%elem_of_nil.
  - unfold assign in *. rewrite foldl_app. simpl.
    destruct (decide (k = k')) as [->|Hne].
    + rewrite lookup_insert_eq. rewrite decide_True; [done|].
      apply elem_of_app. right. left.
    + rewrite lookup_insert_ne by done. rewrite IH.
      destruct (decide (k ∈ keys)) as [Hk|Hk].
      * rewrite decide_True; [done|]. apply elem_of_app. by left.
      * rewrite decide_False; [done|].
        intros [?|?%list_elem_of_singleton]%elem_of_app; done.
Qed.

Lemma read_pattern_run fs patterns reverse terminate_on_match postprocess self :
  read_pattern fs patterns reverse terminate_on_match postprocess self
  = match monty.regrep fs (filename self) patterns reverse terminate_on_match
            postprocess with
    | Ok matches => (Ok tt, assign matches patterns.*1 self)
    | Raise e => (Raise e, self)
    end.
Proof.
  unfold read_pattern, mbind, M_bind, get_self, lift, modify.
  by destruct (monty.regrep _ _ _ _ _ _).
Qed.

Lemma found_in_prefix p scanned lines :
  scanned `prefix_of` lines → found_in p lines = [] → found_in p scanned = [].
Proof.
  intros [rest ->]. unfold found_in. rewrite omap_app.
  by intros [? _]%app_eq_nil.
Qed.

(** What a call that returns has stored under one of its keys. *)
Lemma read_pattern_stored fs patterns reverse terminate_on_match postprocess
    self self' k v p text :
  NoDup patterns.*1 →
  read_pattern fs patterns reverse terminate_on_match postprocess self
    = (Ok tt, self') →
  (k, v) ∈ patterns → Re.compile v Re.no_flags = Some p →
  fs (filename self) = Some text →
  ∃ scanned new,
    scanned `prefix_of` scan_lines reverse text ∧
    (scanned = scan_lines reverse text ∨
     (terminate_on_match = true ∧ new ≠ [])) ∧
    data self' !! k = Some (PList (map (λ i : list pyval * Z, PList i.1) new)) ∧
    Forall2 (λ m x, traverse postprocess (Re.groups m) = Ok x.1)
            (found_in p scanned) new.
Proof.
  intros Hnd Hcall Hin Hc Hf. rewrite read_pattern_run in Hcall.
  destruct (monty.regrep _ _ _ _ _ _) as [matches|] eqn:Hre; [|done].
  injection Hcall as <-.
  apply regrep_inv in Hre as (compiled & text' & Hkeys & HF & Hf' & Hgrep).
  assert (text' = text) as -> by congruence.
  rewrite <- Hkeys in Hnd.
  destruct (grep_lines_spec _ _ _ _ Hnd _ _ _ _ Hgrep)
    as (scanned & Hpre & Hend & _ & Hin').
  pose proof (compiled_of_pattern _ _ _ _ _ HF Hin Hc) as Hkp.
  destruct (Hin' _ _ Hkp) as (new & Hnew & HF2).
  rewrite lookup_empty in Hnew. simpl in Hnew.
  exists scanned, new. split_and!; try done.
  - destruct Hend as [?|[? Hall]]; [by left|right]. split; [done|].
    unfold monty.all_found in Hall. rewrite forallb_forall in Hall.
    apply list_elem_of_In, Hall in Hkp. simpl in Hkp.
    rewrite Hnew in Hkp. intros ->. by rewrite bool_decide_eq_true_2 in Hkp.
  - rewrite assign_lookup, decide_True, Hnew; [done|].
    by apply (list_elem_of_fmap_2 fst _ (k, v)).
Qed.

(** The call returns when the file opens, the patterns compile and
    [postprocess] accepts the groups of the matches. *)
Lemma read_pattern_returns fs patterns reverse terminate_on_match postprocess
    self text :
  fs (filename self) = Some text →
  Forall (λ kv, is_Some (Re.compile kv.2 Re.no_flags)) patterns →
  (∀ k v p l m g,
     (k, v) ∈ patterns → Re.compile v Re.no_flags = Some p →
     l ∈ scan_lines reverse text → Re.search p l = Some m → g ∈ Re.groups m →
     ∃ w, postprocess g = Ok w) →
  ∃ self',
    read_pattern fs patterns reverse terminate_on_match postprocess self
      = (Ok tt, self').
Proof.
  intros Hf Hall Hpp. rewrite read_pattern_run.
  destruct (regrep_total fs _ patterns reverse terminate_on_match postprocess
              _ Hf Hall Hpp) as [matches ->].
  eauto.
Qed.

(** C4: when [read_pattern] returns, [self.data] has an entry for
    every key of [patterns], and the entry of a key whose pattern matches
    no line is the empty list. The call does return when the file opens,
    the patterns compile and [postprocess] accepts the groups of the
    matches there are: a pattern without a match is no error. *)
Theorem absent_field_is_empty_list fs patterns reverse terminate_on_match
    postprocess self text :
  NoDup patterns.*1 →
  fs (filename self) = Some text →
  (∀ self',
     read_pattern fs patterns reverse terminate_on_match postprocess self
       = (Ok tt, self') →
     (∀ k, k ∈ patterns.*1 → is_Some (data self' !! k)) ∧
     (∀ k v p,
        (k, v) ∈ patterns → Re.compile v Re.no_flags = Some p →
        found_in p (scan_lines reverse text) = [] →
        data self' !! k = Some (PList []))) ∧
  (Forall (λ kv, is_Some (Re.compile kv.2 Re.no_flags)) patterns →
   (∀ k v p l m g,
      (k, v) ∈ patterns → Re.compile v Re.no_flags = Some p →
      l ∈ scan_lines reverse text → Re.search p l = Some m → g ∈ Re.groups m →
      ∃ w, postprocess g = Ok w) →
   ∃ self',
     read_pattern fs patterns reverse terminate_on_match postprocess self
       = (Ok tt, self')).
Proof.
  intros Hnd Hf. split.
  - intros self' Hcall. split.
    + intros k Hk. rewrite read_pattern_run in Hcall.
      destruct (monty.regrep _ _ _ _ _ _) as [matches|]; [|done].
      injection Hcall as <-. rewrite assign_lookup, decide_True by done. eauto.
    + intros k v p Hin Hc Hnone.
      destruct (read_pattern_stored _ _ _ _ _ _ _ _ _ _ _ Hnd Hcall Hin Hc Hf)
        as (scanned & new & Hpre & _ & -> & HF).
      rewrite (found_in_prefix _ _ _ Hpre Hnone) in HF.
      by apply Forall2_nil_inv_l in HF as ->.
  - intros Hall Hpp. by eapply read_pattern_returns.
Qed.

Lemma absent_field_is_empty_list_witness :
  ∃ self',
    read_pattern (one_file "qchem.out" sample_no_table) energy_patterns
      false false py_str (fresh "qchem.out")
    = (Ok tt, self') ∧
    (∀ k, k ∈ energy_patterns.*1 → is_Some (data self' !! k)) ∧
    data self' !! "S2" = Some (PList []).
Proof.
  destruct (absent_field_is_empty_list (one_file "qchem.out" sample_no_table)
              energy_patterns false false py_str (fresh "qchem.out")
              sample_no_table) as [Hkeys Hret].
  - apply (bool_decide_unpack _). vm_compute. exact I.
  - reflexivity.
  - destruct Hret as [self' Hcall].
    + repeat constructor; vm_compute; eexists; reflexivity.
    + intros k v p l m g _ _ _ _ _. destruct g; eexists; reflexivity.
    + exists self'. destruct (Hkeys _ Hcall) as [H1 H2].
      split; [done|]. split; [done|].
      eapply (H2 "S2").
      * right. left.
      * vm_compute. reflexivity.
      * vm_compute. reflexivity.
Defined.

Lemma Forall2_with {A B} (P : A → Prop) (R : A → B → Prop) l k :
  Forall P l → Forall2 R l k → Forall2 (λ x y, R x y ∧ P x) l k.
Proof.
  intros HP HR. induction HR as [|x y l k Hxy _ IH]; [constructor|].
  apply Forall_cons in HP as [? ?]. constructor; [done|by apply IH].
Qed.

Lemma found_in_re p lines : Forall (λ m, Re.m_re m = p) (found_in p lines).
Proof.
  apply Forall_forall. intros m Hm. unfold found_in in Hm.
  apply list_elem_of_omap in Hm as (l & _ & Hs). by eapply search_re.
Qed.

(** ** Where a read stops *)

Section Stop.

Context (postprocess : converter) (reverse : bool).

(** The patterns of the keys that have no value yet. *)
#[local] Abbreviation pending compiled matches :=
  (filter (λ kp : string * Re.pattern, default [] (matches !! kp.1) = []) compiled).

Lemma all_found_pending (cs : list (string * Re.pattern)) (matches : monty.found) :
  monty.all_found cs matches = true ↔ pending cs matches = [].
Proof.
  unfold monty.all_found. induction cs as [|[k p] cs IH]; [done|].
  cbn [forallb fst]. rewrite filter_cons. cbn [fst].
  destruct (decide (default [] (matches !! k) = [])) as [E|E].
  - rewrite bool_decide_eq_true_2 by done. simpl. split; intros; done.
  - rewrite bool_decide_eq_false_2 by done. simpl. exact IH.
Qed.

Lemma filter_snd (P : Re.pattern → Prop) `{∀ p, Decision (P p)}
    (cs : list (string * Re.pattern)) :
  (filter (λ kp : string * Re.pattern, P kp.2) cs).*2 = filter P cs.*2.
Proof.
  induction cs as [|[k p] cs IH]; [done|].
  rewrite fmap_cons, !filter_cons. cbn [snd].
  destruct (decide (P p)); [by rewrite fmap_cons, IH|done].
Qed.

Lemma pending_step (compiled : list (string * Re.pattern)) l
    (matches0 matches' : monty.found) :
  (∀ k p, (k, p) ∈ compiled →
     match Re.search p l with
     | Some m => ∃ x, matches' !! k = Some (default [] (matches0 !! k) ++ [x])
     | None => matches' !! k = matches0 !! k
     end) →
  pending compiled matches'
  = filter (λ kp : string * Re.pattern, ¬ is_Some (Re.search kp.2 l))
           (pending compiled matches0).
Proof.
  intros Hstep. induction compiled as [|[k p] cs IH]; [done|].
  rewrite !filter_cons. cbn [fst].
  rewrite IH by (intros k' p' Hin; apply Hstep; by right).
  pose proof (Hstep k p ltac:(left)) as Hk.
  destruct (Re.search p l) as [m|] eqn:Hs.
  - destruct Hk as [x ->]. simpl.
    rewrite decide_False by (by intros [_ ?]%app_eq_nil).
    destruct (decide (default [] (matches0 !! k) = [])); [|done].
    rewrite filter_cons. cbn [snd]. rewrite Hs.
    rewrite decide_False; [done|]. intros Hn. apply Hn. eauto.
  - rewrite Hk.
    destruct (decide (default [] (matches0 !! k) = [])); [|done].
    rewrite filter_cons. cbn [snd]. rewrite Hs.
    rewrite decide_True; [done|]. by intros [? ?].
Qed.

Lemma grep_lines_stop (compiled : list (string * Re.pattern)) :
  NoDup compiled.*1 →
  ∀ lines i matches0 matches,
    monty.grep_lines compiled postprocess reverse true i lines matches0
      = Ok matches →
    ∀ k p, (k, p) ∈ compiled →
      ∃ new,
        default [] (matches !! k) = default [] (matches0 !! k) ++ new ∧
        Forall2 (λ m x, traverse postprocess (Re.groups m) = Ok x.1)
                (found_in p (stop_scan (pending compiled matches0).*2 lines))
                new.
Proof.
  intros Hnd. induction lines as [|l lines IH]; intros i matches0 matches H k p Hin.
  - injection H as <-. exists []. split; [by rewrite app_nil_r|constructor].
  - change (monty.grep_lines compiled postprocess reverse true i (l :: lines)
              matches0)
      with (matches' ← fold_result (monty.grep_line postprocess reverse i l)
                         matches0 compiled;
            if true && monty.all_found compiled matches' then Ok matches'
            else monty.grep_lines compiled postprocess reverse true
                   (i + 1)%Z lines matches') in H.
    destruct (fold_result (monty.grep_line postprocess reverse i l) matches0
                compiled) as [matches'|] eqn:Hfold; [|done].
    change ((if true && monty.all_found compiled matches' then Ok matches'
             else monty.grep_lines compiled postprocess reverse true
                    (i + 1)%Z lines matches') = Ok matches) in H.
    destruct (grep_line_fold postprocess reverse i l compiled Hnd _ _ Hfold)
      as [_ Hline].
    assert (pending compiled matches'
            = filter (λ kp : string * Re.pattern, ¬ is_Some (Re.search kp.2 l))
                     (pending compiled matches0)) as Hpend.
    { apply pending_step. intros k' p' Hin'. specialize (Hline _ _ Hin').
      destruct (Re.search p' l); [|done].
      destruct Hline as (gs & _ & ->). eauto. }
    cbn [stop_scan]. rewrite <- filter_snd, <- Hpend.
    assert (∃ first,
              default [] (matches' !! k) = default [] (matches0 !! k) ++ first ∧
              Forall2 (λ m x, traverse postprocess (Re.groups m) = Ok x.1)
                      (found_in p [l]) first) as (first & Hfirst & HF1).
    { specialize (Hline _ _ Hin). unfold found_in. cbn [omap list_omap].
      destruct (Re.search p l) as [m|].
      - destruct Hline as (gs & Hgs & ->). eexists [_]. split; [done|].
        by repeat constructor.
      - rewrite Hline. exists []. split; [by rewrite app_nil_r|constructor]. }
    cbn [andb] in H.
    destruct (monty.all_found compiled matches') eqn:Hall.
    + injection H as <-. apply all_found_pending in Hall. rewrite Hall.
      cbn [fmap list_fmap]. eauto.
    + assert (pending compiled matches' ≠ []) as Hne.
      { intros E. apply all_found_pending in E. congruence. }
      destruct (IH _ _ _ H _ _ Hin) as (new & Hnew & HF).
      exists (first ++ new). split.
      * by rewrite Hnew, Hfirst, app_assoc.
      * destruct ((pending compiled matches').*2) as [|q qs] eqn:Eq.
        { apply fmap_nil_inv in Eq. done. }
        change (l :: stop_scan (q :: qs) lines)
          with ([l] ++ stop_scan (q :: qs) lines).
        unfold found_in in *. rewrite omap_app. by apply Forall2_app.
Qed.

End Stop.

Lemma compiled_patterns_of (patterns : list (string * string))
    (compiled : list (string * Re.pattern)) :
  Forall2 (λ kv kp, kp.1 = kv.1 ∧ Re.compile kv.2 Re.no_flags = Some kp.2)
          patterns compiled →
  compiled_patterns patterns = compiled.*2.
Proof.
  unfold compiled_patterns.
  induction 1 as [|[k v] [k' p] patterns compiled [_ Hc] _ IH]; [done|].
  cbn [omap list_omap fmap list_fmap snd] in *. by rewrite Hc, IH.
Qed.

(** What a call that returns has stored under one of its keys, with the
    lines it has gone through. *)
Lemma read_pattern_exact fs patterns reverse terminate_on_match postprocess
    self self' k v p text :
  NoDup patterns.*1 →
  read_pattern fs patterns reverse terminate_on_match postprocess self
    = (Ok tt, self') →
  (k, v) ∈ patterns → Re.compile v Re.no_flags = Some p →
  fs (filename self) = Some text →
  ∃ new,
    data self' !! k = Some (PList (map (λ i : list pyval * Z, PList i.1) new)) ∧
    Forall2 (λ m x, traverse postprocess (Re.groups m) = Ok x.1)
            (found_in p (lines_scanned patterns terminate_on_match
                           (scan_lines reverse text))) new.
Proof.
  intros Hnd Hcall Hin Hc Hf.
  destruct terminate_on_match.
  - rewrite read_pattern_run in Hcall.
    destruct (monty.regrep _ _ _ _ _ _) as [matches|] eqn:Hre; [|done].
    injection Hcall as <-.
    apply regrep_inv in Hre as (compiled & text' & Hkeys & HF & Hf' & Hgrep).
    assert (text' = text) as -> by congruence.
    rewrite <- Hkeys in Hnd.
    pose proof (compiled_of_pattern _ _ _ _ _ HF Hin Hc) as Hkp.
    destruct (grep_lines_stop _ _ _ Hnd _ _ _ _ Hgrep _ _ Hkp)
      as (new & Hnew & HF2).
    rewrite lookup_empty in Hnew. simpl in Hnew.
    exists new. split.
    + rewrite assign_lookup, decide_True, Hnew; [done|].
      by apply (list_elem_of_fmap_2 fst _ (k, v)).
    + unfold lines_scanned. rewrite (compiled_patterns_of _ _ HF).
      assert (filter (λ kp : string * Re.pattern,
                        default [] ((∅ : monty.found) !! kp.1) = []) compiled
              = compiled) as E.
      { clear. induction compiled as [|kp cs IH]; [done|].
        rewrite filter_cons, lookup_empty. simpl. by rewrite IH. }
      by rewrite E in HF2.
  - destruct (read_pattern_stored _ _ _ _ _ _ _ _ _ _ _ Hnd Hcall Hin Hc Hf)
      as (scanned & new & _ & [-> |[? _]] & Hdata & HF); [|done].
    exists new. by split.
Qed.

(** C8, as the code has it: when [read_pattern] returns, the entry of a
    key holds exactly one value for each line scanned that its pattern
    matches, in scan order, and that value is the list of all the
    postprocessed groups of the match, not the first group alone. The
    lines scanned are all the lines of the file, or with
    [terminate_on_match] the lines up to the first one at which every
    key has had a match. *)
Theorem each_match_stores_its_groups fs patterns reverse terminate_on_match
    postprocess self self' k v p text :
  NoDup patterns.*1 →
  read_pattern fs patterns reverse terminate_on_match postprocess self
    = (Ok tt, self') →
  (k, v) ∈ patterns → Re.compile v Re.no_flags = Some p →
  fs (filename self) = Some text →
  ∃ gss,
    data self' !! k = Some (PList (PList <$> gss)) ∧
    Forall2 (λ m gs, traverse postprocess (Re.groups m) = Ok gs ∧
                     length gs = Re.groups_count p)
            (found_in p (lines_scanned patterns terminate_on_match
                           (scan_lines reverse text))) gss.
Proof.
  intros Hnd Hcall Hin Hc Hf.
  destruct (read_pattern_exact _ _ _ _ _ _ _ _ _ _ _ Hnd Hcall Hin Hc Hf)
    as (new & Hdata & HF).
  exists new.*1. split.
  - rewrite Hdata. do 2 f_equal. by rewrite <- list_fmap_compose.
  - apply Forall2_fmap_r.
    eapply Forall2_impl; [exact (Forall2_with _ _ _ _ (found_in_re p _) HF)|].
    intros m x [Hx Hm]. split; [done|].
    apply traverse_length in Hx. unfold Re.groups in Hx.
    by rewrite Hx, length_map, length_seq, Hm.
Qed.

Lemma each_match_stores_its_groups_witness :
  ∃ self' gss,
    read_pattern (one_file "qchem.out" sample_energy_spin_energy)
      energy_patterns false true py_str (fresh "qchem.out")
    = (Ok tt, self') ∧
    lines_scanned energy_patterns true (scan_lines false sample_energy_spin_energy)
    = [" Final energy is -1.5" +:+ nl; " <S^2> = 0.75" +:+ nl] ∧
    data self' !! "final_energy" = Some (PList (PList <$> gss)) ∧
    gss = [[PStr "-1.5"]].
Proof.
  pose (self' := (read_pattern (one_file "qchem.out" sample_energy_spin_energy)
                    energy_patterns false true py_str (fresh "qchem.out")).2).
  destruct (each_match_stores_its_groups
              (one_file "qchem.out" sample_energy_spin_energy)
              energy_patterns false true py_str (fresh "qchem.out")
              self' "final_energy" "Final\senergy\sis\s+([\d\-\.]+)"
              (default (Re.Build_pattern Re.Eps Re.no_flags 0 [])
                 (Re.compile "Final\senergy\sis\s+([\d\-\.]+)" Re.no_flags))
              sample_energy_spin_energy)
    as (gss & Hdata & HF).
  - apply (bool_decide_unpack _). vm_compute. exact I.
  - vm_compute. reflexivity.
  - left.
  - vm_compute. reflexivity.
  - reflexivity.
  - exists self', gss. split; [vm_compute; reflexivity|].
    split; [vm_compute; reflexivity|]. split; [exact Hdata|].
    assert (found_in
              (default (Re.Build_pattern Re.Eps Re.no_flags 0 [])
                 (Re.compile "Final\senergy\sis\s+([\d\-\.]+)" Re.no_flags))
              (lines_scanned energy_patterns true
                 (scan_lines false sample_energy_spin_energy))
            = [default (Re.Build_match_obj (Re.Build_pattern Re.Eps Re.no_flags 0 [])
                          [] 0 0 [])
                 (Re.search
                    (default (Re.Build_pattern Re.Eps Re.no_flags 0 [])
                       (Re.compile "Final\senergy\sis\s+([\d\-\.]+)" Re.no_flags))
                    (" Final energy is -1.5" +:+ nl))]) as E
      by (vm_compute; reflexivity).
    rewrite E in HF.
    apply Forall2_cons_inv_l in HF as (gs & rest & [Hgs _] & Hnil & ->).
    apply Forall2_nil_inv_l in Hnil as ->.
    vm_compute in Hgs. by injection Hgs as <-.
Defined.

(** C8, as the spec has it, fails on its own example: the entry of
    [final_energy] is a list that holds the list of the groups of the
    match, not the bare first group. *)
Lemma first_group_alone_is_not_stored :
  let self' :=
    (read_pattern (one_file "qchem.out" sample_no_table)
       [("final_energy", "Final\senergy\sis\s+([\d\-\.]+)")]
       false false py_str (fresh "qchem.out")).2 in
  data self' !! "final_energy" = Some (PList [PList [PStr "-76.12345"]]) ∧
  data self' !! "final_energy" ≠ Some (PList [PStr "-76.12345"]).
Proof.
  intros self'.
  assert (data self' !! "final_energy" = Some (PList [PList [PStr "-76.12345"]]))
    as H by (vm_compute; reflexivity).
  rewrite H. split; [done|]. intros [=].
Qed.

(** ** The constructor *)

Lemma bind_run {A B} (m : M A) (f : A → M B) self :
  (m ≫= f) self
  = match m self with
    | (Ok a, self') => f a self'
    | (Raise e, self') => (Raise e, self')
    end.
Proof. done. Qed.

(** Two method bodies that start with the same call agree when they
    agree after every normal return of that call. *)
Lemma bind_ext {A B} (m : M A) (f g : A → M B) self :
  (∀ a self', m self = (Ok a, self') → f a self' = g a self') →
  (m ≫= f) self = (m ≫= g) self.
Proof.
  intros H. rewrite !bind_run. destruct (m self) as [[a|e] self']; [|done].
  by apply H.
Qed.

Lemma bind_inv {A B} (m : M A) (f : A → M B) self b self'' :
  (m ≫= f) self = (Ok b, self'') →
  ∃ a self', m self = (Ok a, self') ∧ f a self' = (Ok b, self'').
Proof.
  rewrite bind_run. destruct (m self) as [[a|e] self']; [|done]. eauto.
Qed.

Lemma found_in_nil p lines :
  found_in p lines = [] ↔
  existsb (λ l, bool_decide (is_Some (Re.search p l))) lines = false.
Proof.
  unfold found_in. induction lines as [|l lines IH]; [done|].
  cbn [omap list_omap existsb].
  destruct (Re.search p l) as [m|] eqn:E.
  - rewrite bool_decide_eq_true_2 by eauto. split; intros; done.
  - rewrite bool_decide_eq_false_2 by (by intros [? ?]). done.
Qed.

(** A read of one key with [terminate_on_match]: the entry of the key is
    true in an [if] exactly when a line of the text matches. *)
Lemma probe_run fs k pat p self text :
  Re.compile pat Re.no_flags = Some p →
  fs (filename self) = Some text →
  ∃ v,
    read_pattern fs [(k, pat)] false true py_str self
      = (Ok tt, set_data k v self) ∧
    truthy v = marked pat text.
Proof.
  intros Hc Hf.
  destruct (read_pattern_returns fs [(k, pat)] false true py_str self text)
    as [self' Hcall]; [done| | |].
  { repeat constructor. simpl. eauto. }
  { intros ? ? ? ? ? g _ _ _ _ _. destruct g; eexists; reflexivity. }
  destruct (read_pattern_stored fs [(k, pat)] false true py_str self self'
              k pat p text) as (scanned & new & Hpre & Hend & Hdata & HF);
    [simpl; apply NoDup_singleton|done|left|done|done|].
  exists (PList (map (λ i : list pyval * Z, PList i.1) new)).
  split.
  - rewrite Hcall. f_equal. rewrite read_pattern_run in Hcall.
    destruct (monty.regrep _ _ _ _ _ _) as [matches|]; [|done].
    injection Hcall as <-.
    unfold assign in *. simpl in *. rewrite lookup_insert_eq in Hdata.
    injection Hdata as ->. done.
  - unfold marked. rewrite Hc. unfold scan_lines in *. simpl.
    apply Forall2_length in HF.
    destruct Hend as [->|[_ Hnew]].
    + destruct (existsb _ _) eqn:Hex.
      * destruct new; [|done]. simpl in HF.
        apply length_zero_iff_nil, found_in_nil in HF. congruence.
      * apply found_in_nil in Hex. rewrite Hex in HF. by destruct new.
    + destruct new as [|x new]; [done|]. simpl.
      destruct (existsb _ _) eqn:Hex; [done|].
      apply found_in_nil in Hex. rewrite (found_in_prefix _ _ _ Hpre Hex) in HF.
      done.
Qed.

(** Any read of one key leaves the other keys alone. *)
Lemma read_one_key fs k pat reverse terminate_on_match postprocess self v self' :
  read_pattern fs [(k, pat)] reverse terminate_on_match postprocess self
    = (Ok v, self') →
  ∃ w, self' = set_data k w self.
Proof.
  rewrite read_pattern_run.
  destruct (monty.regrep _ _ _ _ _ _) as [matches|]; [|done].
  intros [= _ <-]. unfold assign. simpl. eauto.
Qed.

(** A table read followed by the lookup of what it stored. *)
Lemma read_table_then_item fs h r f pp a self v self' :
  (read_table_pattern fs h r f pp (Some a) false;; data_item a) self
    = (Ok v, self') →
  self' = set_data a v self.
Proof.
  intros (w & self1 & Hcall & Hitem)%bind_inv.
  destruct (read_table_pattern_inv _ _ _ _ _ _ _ _ _ _ Hcall)
    as [(text & tp & rp & Hf & Ht & Hr)|[_ [?|?]]]; [|done..].
  rewrite (read_table_pattern_run _ _ _ _ _ _ _ _ _ _ _ Hf Ht Hr) in Hcall.
  destruct (traverse _ _) as [tables|]; [|done]. injection Hcall as <- <-.
  unfold data_item, get_self, lift in Hitem. rewrite bind_run in Hitem.
  simpl in Hitem. rewrite lookup_insert_eq in Hitem. by injection Hitem as <- <-.
Qed.

Lemma data_get_set_ne k k' v self :
  k ≠ k' → data_get (set_data k v self) k' = data_get self k'.
Proof. intros H. unfold data_get. simpl. by rewrite lookup_insert_ne. Qed.

Lemma data_get_set_eq k v self : data_get (set_data k v self) k = v.
Proof. unfold data_get. simpl. by rewrite lookup_insert_eq. Qed.

Lemma get_self_bind {B} (f : QCCalc → M B) self : (get_self ≫= f) self = f self self.
Proof. done. Qed.

Lemma read_pattern_no_file fs k pat p reverse terminate_on_match postprocess self :
  Re.compile pat Re.no_flags = Some p →
  fs (filename self) = None →
  read_pattern fs [(k, pat)] reverse terminate_on_match postprocess self
    = (Raise IOError, self).
Proof.
  intros Hc Hf. rewrite read_pattern_run. unfold monty.regrep, zopen_read.
  cbn [traverse]. simpl. rewrite Hc, Hf. done.
Qed.

Lemma read_table_kind fs (b : bool) self v self' :
  (if b then _read_GEN_SCFMAN fs else _read_SCF fs) self = (Ok v, self') →
  self' = set_data (if b then "GEN_SCFMAN" else "SCF") v self.
Proof. destruct b; apply read_table_then_item. Qed.

Lemma read_mulliken_kind fs (b : bool) self v self' :
  (if b then _read_unrestricted_mulliken fs else _read_restricted_mulliken fs) self
    = (Ok v, self') →
  self' = set_data (if b then "unrestricted_Mulliken" else "restricted_Mulliken")
            v self.
Proof. destruct b; apply read_table_then_item. Qed.

Ltac key_ne :=
  by repeat match goal with |- context [if ?b then _ else _] => destruct b end.

(** ** What a call changes *)

Lemma QCCalc_eq (s1 s2 : QCCalc) :
  filename s1 = filename s2 → data s1 = data s2 → s1 = s2.
Proof. destruct s1, s2. simpl. by intros -> ->. Qed.

Lemma stored_filename attr v self : filename (stored attr v self) = filename self.
Proof. by destruct attr. Qed.

Lemma read_table_pattern_effect fs h r f pp attr last self res self' :
  read_table_pattern fs h r f pp attr last self = (res, self') →
  match res with
  | Ok v => self' = stored attr v self
  | Raise _ => self' = self
  end.
Proof.
  intros H.
  destruct (read_table_pattern_inv _ _ _ _ _ _ _ _ _ _ H)
    as [(text & tp & rp & Hf & Ht & Hr)|[-> [->| ->]]]; [|done..].
  rewrite (read_table_pattern_run _ _ _ _ _ _ _ _ _ _ _ Hf Ht Hr) in H.
  destruct (traverse _ _) as [tables|e']; [|by injection H as <- <-].
  destruct (if last then _ else _) as [v|e']; by injection H as <- <-.
Qed.

Lemma read_pattern_effect fs patterns reverse terminate_on_match postprocess
    self res self' :
  read_pattern fs patterns reverse terminate_on_match postprocess self
    = (res, self') →
  match res with
  | Ok _ => ∃ matches,
      monty.regrep fs (filename self) patterns reverse terminate_on_match
        postprocess = Ok matches ∧
      self' = assign matches patterns.*1 self
  | Raise e =>
      monty.regrep fs (filename self) patterns reverse terminate_on_match
        postprocess = Raise e ∧
      self' = self
  end.
Proof.
  rewrite read_pattern_run.
  destruct (monty.regrep _ _ _ _ _ _) as [matches|e]; intros [= <- <-]; eauto.
Qed.

Lemma assign_again matches keys self :
  assign matches keys (assign matches keys self) = assign matches keys self.
Proof.
  apply QCCalc_eq; [by rewrite !assign_filename|].
  apply map_eq. intros k. rewrite !assign_lookup.
  by destruct (decide (k ∈ keys)).
Qed.

Lemma assign_stored matches keys attr v self :
  (∀ a, attr = Some a → a ∉ keys) →
  assign matches keys (stored attr v self) = stored attr v (assign matches keys self).
Proof.
  intros Hattr. destruct attr as [a|]; [|done]. simpl.
  apply QCCalc_eq; simpl; [by rewrite !assign_filename|].
  apply map_eq. intros k. rewrite assign_lookup.
  destruct (decide (k = a)) as [->|Hne].
  - rewrite decide_False by eauto. simpl. by rewrite !lookup_insert_eq.
  - simpl. rewrite !lookup_insert_ne by done. by rewrite assign_lookup.
Qed.

(** ** A file that cannot be opened *)

Lemma compile_all_total (patterns : list (string * string)) :
  Forall (λ kv, is_Some (Re.compile kv.2 Re.no_flags)) patterns →
  ∃ compiled,
    traverse (λ kv : string * string,
                p ← or_raise re_error (Re.compile kv.2 Re.no_flags); Ok (kv.1, p))
             patterns = Ok compiled.
Proof.
  intros Hall. apply traverse_total_on. intros [k v] Hin.
  rewrite Forall_forall in Hall. destruct (Hall _ Hin) as [p Hp].
  simpl in *. rewrite Hp. step_result. eauto.
Qed.

(** X1: a table read changes nothing of the object but the entry under
    [attribute_name], which it replaces with the value it returns; when
    it raises, or when no name is given, it changes nothing at all. *)
Theorem table_read_changes_one_entry fs header_pattern row_pattern
    footer_pattern postprocess attribute_name last_one_only self res self' :
  read_table_pattern fs header_pattern row_pattern footer_pattern postprocess
    attribute_name last_one_only self = (res, self') →
  filename self' = filename self ∧
  match res, attribute_name with
  | Ok v, Some a =>
      data self' !! a = Some v ∧
      ∀ k, k ≠ a → data self' !! k = data self !! k
  | _, _ => data self' = data self
  end.
Proof.
  intros H%read_table_pattern_effect. destruct res as [v|e]; subst self'.
  - split; [apply stored_filename|].
    destruct attribute_name as [a|]; [|done]. simpl. split.
    + apply lookup_insert_eq.
    + intros k Hk. by apply lookup_insert_ne.
  - done.
Qed.

Lemma table_read_changes_one_entry_witness :
  ∃ v self',
    read_table_pattern (one_file "qchem.out" sample_three_tables)
      scf_header scf_row scf_footer py_str (Some "SCF") true (used "qchem.out")
    = (Ok v, self') ∧
    v = PList [PList [PStr "-78.40"; PStr "3.00"; PStr "-01"];
               PList [PStr "-78.50"; PStr "3.00"; PStr "-02"];
               PList [PStr "-78.60"; PStr "3.00"; PStr "-09"]] ∧
    data self' !! "SCF" = Some v ∧
    data self' !! "other" = Some (PInt 7).
Proof.
  pose (v := PList [PList [PStr "-78.40"; PStr "3.00"; PStr "-01"];
                     PList [PStr "-78.50"; PStr "3.00"; PStr "-02"];
                     PList [PStr "-78.60"; PStr "3.00"; PStr "-09"]]).
  exists v, (stored (Some "SCF") v (used "qchem.out")).
  assert (read_table_pattern (one_file "qchem.out" sample_three_tables)
            scf_header scf_row scf_footer py_str (Some "SCF") true
            (used "qchem.out")
          = (Ok v, stored (Some "SCF") v (used "qchem.out"))) as Hcall
    by (vm_compute; reflexivity).
  destruct (table_read_changes_one_entry _ _ _ _ _ _ _ _ _ _ Hcall)
    as [_ [Hnew Hold]].
  split; [exact Hcall|]. split; [reflexivity|]. split; [exact Hnew|].
  rewrite Hold; [reflexivity|discriminate].
Defined.

(** X2: a scalar read changes nothing of the object but the entries of
    the keys of [patterns]; when it raises, it has changed nothing. *)
Theorem scalar_read_changes_its_keys fs patterns reverse terminate_on_match
    postprocess self res self' :
  read_pattern fs patterns reverse terminate_on_match postprocess self
    = (res, self') →
  filename self' = filename self ∧
  match res with
  | Ok _ => ∀ k, k ∉ patterns.*1 → data self' !! k = data self !! k
  | Raise _ => data self' = data self
  end.
Proof.
  intros H%read_pattern_effect. destruct res as [v|e].
  - destruct H as (matches & _ & ->). split; [apply assign_filename|].
    intros k Hk. by rewrite assign_lookup, decide_False.
  - by destruct H as [_ ->].
Qed.

Lemma scalar_read_changes_its_keys_witness :
  ∃ self',
    read_pattern (one_file "qchem.out" sample_no_table) energy_patterns
      false false py_str (used "qchem.out")
    = (Ok tt, self') ∧
    data self' !! "SCF" = Some (PStr "stale") ∧
    data self' !! "final_energy" = Some (PList [PList [PStr "-76.12345"]]).
Proof.
  pose (self' := (read_pattern (one_file "qchem.out" sample_no_table)
                    energy_patterns false false py_str (used "qchem.out")).2).
  assert (read_pattern (one_file "qchem.out" sample_no_table) energy_patterns
            false false py_str (used "qchem.out") = (Ok tt, self')) as Hcall
    by (vm_compute; reflexivity).
  exists self'.
  destruct (scalar_read_changes_its_keys _ _ _ _ _ _ _ _ Hcall) as [_ Hold].
  split; [exact Hcall|]. split; [|vm_compute; reflexivity].
  rewrite Hold; [reflexivity|].
  intros Hin. apply (bool_decide_pack _) in Hin. vm_compute in Hin. exact Hin.
Defined.

(** X3: a scalar read of a file that cannot be opened raises [IOError]
    and leaves the object as it was, whatever the patterns that compile
    and the options are. *)
Theorem scalar_read_missing_file fs patterns reverse terminate_on_match
    postprocess self :
  Forall (λ kv, is_Some (Re.compile kv.2 Re.no_flags)) patterns →
  fs (filename self) = None →
  read_pattern fs patterns reverse terminate_on_match postprocess self
  = (Raise IOError, self).
Proof.
  intros Hall Hf. rewrite read_pattern_run. unfold monty.regrep, zopen_read.
  destruct (compile_all_total _ Hall) as [compiled ->]. by rewrite Hf.
Qed.

Lemma scalar_read_missing_file_witness :
  read_pattern (one_file "qchem.out" sample_no_table) energy_patterns
    true true py_str (used "missing.out")
  = (Raise IOError, used "missing.out").
Proof.
  apply scalar_read_missing_file.
  - repeat constructor; vm_compute; eexists; reflexivity.
  - reflexivity.
Defined.

(** X4: [read_table_pattern] opens the file before it compiles
    anything: a file that cannot be opened raises [IOError] whatever the
    three patterns are, and the object is as it was. *)
Theorem table_read_missing_file fs header_pattern row_pattern footer_pattern
    postprocess attribute_name last_one_only self :
  fs (filename self) = None →
  read_table_pattern fs header_pattern row_pattern footer_pattern postprocess
    attribute_name last_one_only self = (Raise IOError, self).
Proof.
  unfold read_table_pattern, mbind, M_bind, get_self, lift, zopen_read.
  by intros ->.
Qed.

Lemma table_read_missing_file_witness :
  read_table_pattern (one_file "qchem.out" sample_three_tables)
    scf_header "(" scf_footer py_str (Some "SCF") true (used "missing.out")
  = (Raise IOError, used "missing.out").
Proof. apply table_read_missing_file. reflexivity. Defined.

(** X5: a table read that has returned returns the same and changes
    nothing when it is made again: it reads the file, not the object, and
    its assignment replaces the entry. *)
Theorem table_read_twice fs header_pattern row_pattern footer_pattern
    postprocess attribute_name last_one_only self v self' :
  read_table_pattern fs header_pattern row_pattern footer_pattern postprocess
    attribute_name last_one_only self = (Ok v, self') →
  read_table_pattern fs header_pattern row_pattern footer_pattern postprocess
    attribute_name last_one_only self' = (Ok v, self').
Proof.
  intros H. pose proof (read_table_pattern_effect _ _ _ _ _ _ _ _ _ _ H) as Heff.
  simpl in Heff.
  destruct (read_table_pattern_inv _ _ _ _ _ _ _ _ _ _ H)
    as [(text & tp & rp & Hf & Ht & Hr)|[_ [?|?]]]; [|done..].
  rewrite (read_table_pattern_run _ _ _ _ _ _ _ _ _ _ _ Hf Ht Hr) in H.
  assert (fs (filename self') = Some text) as Hf'.
  { by rewrite Heff, stored_filename. }
  rewrite (read_table_pattern_run _ _ _ _ _ _ _ _ _ _ _ Hf' Ht Hr).
  destruct (traverse _ _) as [tables|]; [|done].
  destruct (if last_one_only then _ else _) as [w|]; [|done].
  injection H as -> _. f_equal. rewrite Heff.
  destruct attribute_name as [a|]; [|done]. simpl.
  apply QCCalc_eq; simpl; [done|]. apply insert_insert_eq.
Qed.

Lemma table_read_twice_witness :
  ∃ v self',
    read_table_pattern (one_file "qchem.out" sample_three_tables)
      scf_header scf_row scf_footer py_str (Some "SCF") false (used "qchem.out")
    = (Ok v, self') ∧
    read_table_pattern (one_file "qchem.out" sample_three_tables)
      scf_header scf_row scf_footer py_str (Some "SCF") false self'
    = (Ok v, self').
Proof.
  eexists _, _. split; [vm_compute; reflexivity|].
  apply (table_read_twice (one_file "qchem.out" sample_three_tables)
           scf_header scf_row scf_footer py_str (Some "SCF") false
           (used "qchem.out")).
  vm_compute. reflexivity.
Defined.

(** X6: a scalar read that has returned returns again and changes
    nothing when it is made again with the same arguments. *)
Theorem scalar_read_twice fs patterns reverse terminate_on_match postprocess
    self self' :
  read_pattern fs patterns reverse terminate_on_match postprocess self
    = (Ok tt, self') →
  read_pattern fs patterns reverse terminate_on_match postprocess self'
    = (Ok tt, self').
Proof.
  intros (matches & Hre & ->)%read_pattern_effect.
  rewrite read_pattern_run, assign_filename, Hre. by rewrite assign_again.
Qed.

Lemma scalar_read_twice_witness :
  ∃ self',
    read_pattern (one_file "qchem.out" sample_no_table) energy_patterns
      false false py_str (used "qchem.out") = (Ok tt, self') ∧
    read_pattern (one_file "qchem.out" sample_no_table) energy_patterns
      false false py_str self' = (Ok tt, self').
Proof.
  eexists. split; [vm_compute; reflexivity|].
  apply (scalar_read_twice (one_file "qchem.out" sample_no_table)
           energy_patterns false false py_str (used "qchem.out")).
  vm_compute. reflexivity.
Defined.

(** ** Reads that stop at the first match *)

Lemma grep_single postprocess reverse k p :
  ∀ lines i matches0 matches,
    default [] (matches0 !! k) = [] →
    monty.grep_lines [(k, p)] postprocess reverse true i lines matches0
      = Ok matches →
    match found_in p lines with
    | [] => default [] (matches !! k) = []
    | m :: _ =>
        ∃ gs n, traverse postprocess (Re.groups m) = Ok gs ∧
                matches !! k = Some [(gs, n)]
    end.
Proof.
  induction lines as [|l lines IH]; intros i matches0 matches H0 H.
  - injection H as <-. done.
  - cbn [monty.grep_lines fold_result] in H. unfold monty.grep_line in H.
    unfold found_in. cbn [omap list_omap]. fold (found_in p lines).
    cbn [snd fst] in H.
    destruct (Re.search p l) as [m|].
    + destruct (traverse postprocess (Re.groups m)) as [gs|e]; step_result;
        [|done].
      unfold monty.all_found, monty.append in H. cbn [forallb fst] in H.
      rewrite lookup_insert_eq, H0 in H. simpl in H.
      injection H as <-. eexists _, _. split; [done|].
      by rewrite lookup_insert_eq.
    + step_result. unfold monty.all_found in H. cbn [forallb fst] in H.
      rewrite H0 in H. simpl in H. by apply (IH _ _ _ H0 H).
Qed.

Lemma compiled_single k pat p (compiled : list (string * Re.pattern)) :
  Forall2 (λ (kv : string * string) (kp : string * Re.pattern),
             kp.1 = kv.1 ∧ Re.compile kv.2 Re.no_flags = Some kp.2)
          [(k, pat)] compiled →
  Re.compile pat Re.no_flags = Some p →
  compiled = [(k, p)].
Proof.
  intros H Hc. apply Forall2_cons_inv_l in H as ([k' p'] & cs & [Hk Hp] & Hnil & ->).
  apply Forall2_nil_inv_l in Hnil as ->. simpl in *. congruence.
Qed.

Lemma read_single_first fs k pat reverse postprocess self self' p text :
  read_pattern fs [(k, pat)] reverse true postprocess self = (Ok tt, self') →
  Re.compile pat Re.no_flags = Some p →
  fs (filename self) = Some text →
  self' = set_data k
            (PList match found_in p (scan_lines reverse text) with
                   | [] => []
                   | m :: _ =>
                       match traverse postprocess (Re.groups m) with
                       | Ok gs => [PList gs]
                       | Raise _ => []
                       end
                   end) self ∧
  match found_in p (scan_lines reverse text) with
  | [] => True
  | m :: _ => ∃ gs, traverse postprocess (Re.groups m) = Ok gs
  end.
Proof.
  intros (matches & Hre & ->)%read_pattern_effect Hc Hf.
  apply regrep_inv in Hre as (compiled & text' & _ & Hcomp & Hf' & Hgrep).
  rewrite Hf in Hf'. injection Hf' as <-.
  rewrite (compiled_single _ _ _ _ Hcomp Hc) in Hgrep.
  apply grep_single in Hgrep; [|done].
  unfold assign. simpl.
  destruct (found_in p (scan_lines reverse text)) as [|m ms].
  - by rewrite Hgrep.
  - destruct Hgrep as (gs & n & -> & ->). eauto.
Qed.

(** X7: a read of one field with [terminate_on_match=True] stores at
    most one value: none when no line matches, and otherwise the
    converted groups of the first line that matches in the order of the
    scan, which is the last such line of the file when [reverse] is set. *)
Theorem first_match_only fs k pat reverse postprocess self self' p text :
  read_pattern fs [(k, pat)] reverse true postprocess self = (Ok tt, self') →
  Re.compile pat Re.no_flags = Some p →
  fs (filename self) = Some text →
  match found_in p (scan_lines reverse text) with
  | [] => data self' !! k = Some (PList [])
  | m :: _ =>
      ∃ gs, traverse postprocess (Re.groups m) = Ok gs ∧
            data self' !! k = Some (PList [PList gs])
  end.
Proof.
  intros H Hc Hf. destruct (read_single_first _ _ _ _ _ _ _ _ _ H Hc Hf) as [-> Hm].
  simpl. rewrite lookup_insert_eq.
  destruct (found_in p (scan_lines reverse text)) as [|m ms]; [done|].
  destruct Hm as [gs ->]. eauto.
Qed.

Lemma first_match_only_witness :
  (∃ self',
     read_pattern (one_file "qchem.out" sample_two_energies)
       [("final_energy", "Final\senergy\sis\s+([\d\-\.]+)")] false true py_str
       (fresh "qchem.out") = (Ok tt, self') ∧
     data self' !! "final_energy" = Some (PList [PList [PStr "-1.5"]])) ∧
  (∃ self',
     read_pattern (one_file "qchem.out" sample_two_energies)
       [("final_energy", "Final\senergy\sis\s+([\d\-\.]+)")] true true py_str
       (fresh "qchem.out") = (Ok tt, self') ∧
     data self' !! "final_energy" = Some (PList [PList [PStr "-2.5"]])).
Proof.
  pose (p := default (Re.Build_pattern Re.Eps Re.no_flags 0 [])
               (Re.compile "Final\senergy\sis\s+([\d\-\.]+)" Re.no_flags)).
  split.
  - pose (self' := (read_pattern (one_file "qchem.out" sample_two_energies)
                      [("final_energy", "Final\senergy\sis\s+([\d\-\.]+)")]
                      false true py_str (fresh "qchem.out")).2).
    exists self'. split; [vm_compute; reflexivity|].
    pose proof (first_match_only (one_file "qchem.out" sample_two_energies)
                  "final_energy" "Final\senergy\sis\s+([\d\-\.]+)" false py_str
                  (fresh "qchem.out") self' p sample_two_energies) as H.
    lapply H; [clear H; intros H|vm_compute; reflexivity].
    lapply H; [clear H; intros H|vm_compute; reflexivity].
    lapply H; [clear H; intros H|vm_compute; reflexivity].
    vm_compute in H. destruct H as (gs & [= <-] & Hd).
    vm_compute. exact Hd.
  - pose (self' := (read_pattern (one_file "qchem.out" sample_two_energies)
                      [("final_energy", "Final\senergy\sis\s+([\d\-\.]+)")]
                      true true py_str (fresh "qchem.out")).2).
    exists self'. split; [vm_compute; reflexivity|].
    pose proof (first_match_only (one_file "qchem.out" sample_two_energies)
                  "final_energy" "Final\senergy\sis\s+([\d\-\.]+)" true py_str
                  (fresh "qchem.out") self' p sample_two_energies) as H.
    lapply H; [clear H; intros H|vm_compute; reflexivity].
    lapply H; [clear H; intros H|vm_compute; reflexivity].
    lapply H; [clear H; intros H|vm_compute; reflexivity].
    vm_compute in H. destruct H as (gs & [= <-] & Hd).
    vm_compute. exact Hd.
Defined.

(** ** One call against another *)

Lemma converted_same postprocess (ms : list Re.match_obj)
    (n1 n2 : list (list pyval * Z)) :
  Forall2 (λ m x, traverse postprocess (Re.groups m) = Ok x.1) ms n1 →
  Forall2 (λ m x, traverse postprocess (Re.groups m) = Ok x.1) ms n2 →
  map (λ i : list pyval * Z, PList i.1) n1
  = map (λ i : list pyval * Z, PList i.1) n2.
Proof.
  intros H1. revert n2.
  induction H1 as [|m x ms n1 Hx _ IH]; intros n2 H2.
  - by apply Forall2_nil_inv_l in H2 as ->.
  - apply Forall2_cons_inv_l in H2 as (y & n2' & Hy & H2 & ->).
    simpl. rewrite (IH _ H2). do 2 f_equal. congruence.
Qed.

Lemma converted_prefix postprocess (ms1 ms2 : list Re.match_obj)
    (n1 n2 : list (list pyval * Z)) :
  ms1 `prefix_of` ms2 →
  Forall2 (λ m x, traverse postprocess (Re.groups m) = Ok x.1) ms1 n1 →
  Forall2 (λ m x, traverse postprocess (Re.groups m) = Ok x.1) ms2 n2 →
  map (λ i : list pyval * Z, PList i.1) n1
    `prefix_of` map (λ i : list pyval * Z, PList i.1) n2.
Proof.
  intros [ext ->] H1 H2.
  apply Forall2_app_inv_l in H2 as (a & b & Ha & _ & ->).
  rewrite map_app, (converted_same _ _ _ _ H1 Ha). by eexists.
Qed.

Lemma found_in_mono p scanned lines :
  scanned `prefix_of` lines → found_in p scanned `prefix_of` found_in p lines.
Proof. intros [ext ->]. unfold found_in. rewrite omap_app. by eexists. Qed.

(** The patterns of a call that has returned compile and the file is
    there. *)
Lemma read_pattern_ok_inv fs patterns reverse terminate_on_match postprocess
    self self' :
  read_pattern fs patterns reverse terminate_on_match postprocess self
    = (Ok tt, self') →
  (∃ text, fs (filename self) = Some text) ∧
  ∀ k v, (k, v) ∈ patterns → ∃ p, Re.compile v Re.no_flags = Some p.
Proof.
  intros (matches & Hre & _)%read_pattern_effect.
  apply regrep_inv in Hre as (compiled & text & _ & Hcomp & Hf & _).
  split; [eauto|]. intros k v Hin.
  apply list_elem_of_lookup in Hin as [i Hi].
  destruct (Forall2_lookup_l _ _ _ _ _ Hcomp Hi) as ([k' p] & _ & _ & Hp).
  eauto.
Qed.

(** X8: with [terminate_on_match=True] a read stores, for every key, a
    prefix of what the same read stores with [terminate_on_match=False]:
    stopping early loses values at the end and changes none. *)
Theorem stopping_stores_a_prefix fs patterns reverse postprocess self
    self1 self2 k :
  NoDup patterns.*1 →
  read_pattern fs patterns reverse true postprocess self = (Ok tt, self1) →
  read_pattern fs patterns reverse false postprocess self = (Ok tt, self2) →
  k ∈ patterns.*1 →
  ∃ l1 l2,
    data self1 !! k = Some (PList l1) ∧ data self2 !! k = Some (PList l2) ∧
    l1 `prefix_of` l2.
Proof.
  intros Hnd H1 H2 Hk.
  apply list_elem_of_fmap in Hk as ([k' v] & -> & Hin). simpl.
  destruct (read_pattern_ok_inv _ _ _ _ _ _ _ H1) as [[text Hf] Hcomp].
  destruct (Hcomp _ _ Hin) as [p Hp].
  destruct (read_pattern_stored _ _ _ _ _ _ _ _ _ _ _ Hnd H1 Hin Hp Hf)
    as (sc1 & n1 & Hpre1 & _ & Hd1 & HF1).
  destruct (read_pattern_stored _ _ _ _ _ _ _ _ _ _ _ Hnd H2 Hin Hp Hf)
    as (sc2 & n2 & _ & [-> |[? _]] & Hd2 & HF2); [|done].
  eexists _, _. split; [exact Hd1|]. split; [exact Hd2|].
  eapply converted_prefix; [|exact HF1|exact HF2].
  by apply found_in_mono.
Qed.

Lemma stopping_stores_a_prefix_witness :
  ∃ self1 self2 l1 l2,
    read_pattern (one_file "qchem.out" sample_two_energies)
      [("final_energy", "Final\senergy\sis\s+([\d\-\.]+)")]
      false true py_str (fresh "qchem.out") = (Ok tt, self1) ∧
    read_pattern (one_file "qchem.out" sample_two_energies)
      [("final_energy", "Final\senergy\sis\s+([\d\-\.]+)")]
      false false py_str (fresh "qchem.out") = (Ok tt, self2) ∧
    data self1 !! "final_energy" = Some (PList l1) ∧
    data self2 !! "final_energy" = Some (PList l2) ∧
    l1 `prefix_of` l2 ∧
    l1 = [PList [PStr "-1.5"]] ∧
    l2 = [PList [PStr "-1.5"]; PList [PStr "-2.5"]].
Proof.
  pose (self1 := (read_pattern (one_file "qchem.out" sample_two_energies)
                    [("final_energy", "Final\senergy\sis\s+([\d\-\.]+)")]
                    false true py_str (fresh "qchem.out")).2).
  pose (self2 := (read_pattern (one_file "qchem.out" sample_two_energies)
                    [("final_energy", "Final\senergy\sis\s+([\d\-\.]+)")]
                    false false py_str (fresh "qchem.out")).2).
  assert (read_pattern (one_file "qchem.out" sample_two_energies)
            [("final_energy", "Final\senergy\sis\s+([\d\-\.]+)")]
            false true py_str (fresh "qchem.out")
          = (Ok tt, self1)) as H1 by (vm_compute; reflexivity).
  assert (read_pattern (one_file "qchem.out" sample_two_energies)
            [("final_energy", "Final\senergy\sis\s+([\d\-\.]+)")]
            false false py_str (fresh "qchem.out")
          = (Ok tt, self2)) as H2 by (vm_compute; reflexivity).
  destruct (stopping_stores_a_prefix
              (one_file "qchem.out" sample_two_energies)
              [("final_energy", "Final\senergy\sis\s+([\d\-\.]+)")]
              false py_str (fresh "qchem.out") self1 self2 "final_energy")
    as (l1 & l2 & Hd1 & Hd2 & Hpre).
  - apply NoDup_singleton.
  - exact H1.
  - exact H2.
  - left.
  - exists self1, self2, l1, l2.
    split; [exact H1|]. split; [exact H2|]. split; [exact Hd1|].
    split; [exact Hd2|]. split; [exact Hpre|].
    vm_compute in Hd1, Hd2. injection Hd1 as <-. injection Hd2 as <-.
    split; reflexivity.
Defined.

(** X9: without [terminate_on_match] the fields of one read do not
    influence each other: a key of a read of many patterns gets the
    entry that the read of its pattern alone gives, and that read
    returns too. *)
Theorem fields_are_independent fs patterns reverse postprocess self self' k v :
  NoDup patterns.*1 →
  read_pattern fs patterns reverse false postprocess self = (Ok tt, self') →
  (k, v) ∈ patterns →
  ∃ self1,
    read_pattern fs [(k, v)] reverse false postprocess self = (Ok tt, self1) ∧
    data self1 !! k = data self' !! k.
Proof.
  intros Hnd H Hin.
  destruct (read_pattern_ok_inv _ _ _ _ _ _ _ H) as [[text Hf] Hcomp].
  destruct (Hcomp _ _ Hin) as [p Hp].
  destruct (read_pattern_stored _ _ _ _ _ _ _ _ _ _ _ Hnd H Hin Hp Hf)
    as (sc & n & _ & [-> |[? _]] & Hd & HF); [|done].
  destruct (read_pattern_returns fs [(k, v)] reverse false postprocess self text)
    as [self1 H1]; [done| | |].
  { repeat constructor. simpl. eauto. }
  { intros k' v' p' l m g [= -> ->]%list_elem_of_singleton Hp' Hl Hs Hg.
    assert (p' = p) as -> by congruence.
    assert (m ∈ found_in p (scan_lines reverse text)) as Hm.
    { apply list_elem_of_omap. eauto. }
    apply list_elem_of_lookup in Hm as [i Hi].
    destruct (Forall2_lookup_l _ _ _ _ _ HF Hi) as (x & _ & Hx).
    apply traverse_ok in Hx.
    apply list_elem_of_lookup in Hg as [j Hj].
    destruct (Forall2_lookup_l _ _ _ _ _ Hx Hj) as (w & _ & Hw). eauto. }
  exists self1. split; [done|].
  destruct (read_pattern_stored fs [(k, v)] reverse false postprocess self self1
              k v p text) as (sc1 & n1 & _ & [-> |[? _]] & Hd1 & HF1);
    [apply NoDup_singleton|done|left|done|done| |done].
  rewrite Hd, Hd1. do 2 f_equal. by eapply converted_same.
Qed.

Lemma fields_are_independent_witness :
  ∃ self' self1,
    read_pattern (one_file "qchem.out" sample_two_energies) energy_patterns
      false false py_str (fresh "qchem.out") = (Ok tt, self') ∧
    read_pattern (one_file "qchem.out" sample_two_energies)
      [("final_energy", "Final\senergy\sis\s+([\d\-\.]+)")]
      false false py_str (fresh "qchem.out") = (Ok tt, self1) ∧
    data self1 !! "final_energy" = data self' !! "final_energy" ∧
    data self' !! "final_energy"
    = Some (PList [PList [PStr "-1.5"]; PList [PStr "-2.5"]]).
Proof.
  pose (self' := (read_pattern (one_file "qchem.out" sample_two_energies)
                    energy_patterns false false py_str (fresh "qchem.out")).2).
  assert (read_pattern (one_file "qchem.out" sample_two_energies)
            energy_patterns false false py_str (fresh "qchem.out")
          = (Ok tt, self')) as H by (vm_compute; reflexivity).
  destruct (fields_are_independent (one_file "qchem.out" sample_two_energies)
              energy_patterns false py_str (fresh "qchem.out") self'
              "final_energy" "Final\senergy\sis\s+([\d\-\.]+)")
    as (self1 & H1 & Hsame).
  - apply (bool_decide_unpack _). vm_compute. exact I.
  - exact H.
  - left.
  - exists self', self1. split; [exact H|]. split; [exact H1|].
    split; [exact Hsame|]. vm_compute. reflexivity.
Defined.

(** ** The readers of one table *)

Lemma py_str_returns cap : ∃ w, py_str cap = Ok w.
Proof. destruct cap; eexists; reflexivity. Qed.

(** With the default [postprocess] and patterns that compile and define
    [table_body], a read of all the tables raises only for a file that
    cannot be opened and for a table line without a match. *)
Lemma table_read_raise_inv fs h r f attr self tp rp i e self' :
  Re.compile (table_pattern_text h r f) re_MULTILINE_DOTALL = Some tp →
  Re.compile r Re.no_flags = Some rp →
  (list_to_map (Re.groupindex tp) : gmap string nat) !! "table_body" = Some i →
  read_table_pattern fs h r f py_str attr false self = (Raise e, self') →
  self' = self ∧
  ((e = IOError ∧ fs (filename self) = None) ∨
   (e = AttributeError ∧ is_Some (fs (filename self)))).
Proof.
  intros Ht Hr Hi H.
  pose proof (read_table_pattern_effect _ _ _ _ _ _ _ _ _ _ H) as Heff.
  simpl in Heff. split; [done|]. clear Heff.
  destruct (fs (filename self)) as [text|] eqn:Hf.
  - right. split; [|eauto].
    rewrite (read_table_pattern_run _ _ _ _ _ _ _ _ _ _ _ Hf Ht Hr) in H.
    destruct (traverse _ _) as [tables|e'] eqn:E; [done|]. injection H as -> _.
    apply traverse_raise_inv in E as (mt & Hmt & Hraise).
    apply process_table_raise_inv in Hraise
      as [[Hnone _]|[[_ ->]|(body & line & _ & _ & Hline)]]; [|done|].
    + apply finditer_re in Hmt. unfold Re.group_named in Hnone.
      by rewrite Hmt, Hi in Hnone.
    + apply process_line_raise_inv in Hline as [[_ ->]|(cap & _ & Hcap)]; [done|].
      by destruct cap.
  - left. split; [|done]. revert H.
    unfold read_table_pattern, mbind, M_bind, get_self, lift, zopen_read.
    rewrite Hf. simpl. by intros [= <- _].
Qed.

Lemma table_read_ok_list fs h r f pp attr self v self' :
  read_table_pattern fs h r f pp attr false self = (Ok v, self') →
  ∃ tables, v = PList tables.
Proof.
  intros H.
  destruct (read_table_pattern_inv _ _ _ _ _ _ _ _ _ _ H)
    as [(text & tp & rp & Hf & Ht & Hr)|[_ [?|?]]]; [|done..].
  rewrite (read_table_pattern_run _ _ _ _ _ _ _ _ _ _ _ Hf Ht Hr) in H.
  destruct (traverse _ _) as [tables|]; [|done]. injection H as <- _. eauto.
Qed.

Lemma reader_outcome_of fs h r f a self text tp rp i :
  fs (filename self) = Some text →
  Re.compile (table_pattern_text h r f) re_MULTILINE_DOTALL = Some tp →
  Re.compile r Re.no_flags = Some rp →
  (list_to_map (Re.groupindex tp) : gmap string nat) !! "table_body" = Some i →
  reader_outcome a
    (read_table_pattern fs h r f py_str (Some a) false;; data_item a) self.
Proof.
  intros Hf Ht Hr Hi. unfold reader_outcome. rewrite bind_run.
  destruct (read_table_pattern fs h r f py_str (Some a) false self)
    as [[v|e] self1] eqn:H.
  - pose proof (read_table_pattern_effect _ _ _ _ _ _ _ _ _ _ H) as Heff.
    simpl in Heff. subst self1.
    unfold data_item. rewrite get_self_bind. unfold lift. simpl.
    rewrite lookup_insert_eq. simpl. split; [|done].
    by eapply table_read_ok_list.
  - destruct (table_read_raise_inv _ _ _ _ _ _ _ _ _ _ _ Ht Hr Hi H)
      as [-> [[_ ?]|[-> _]]]; [congruence|done].
Qed.

Lemma read_GEN_SCFMAN_outcome fs self text :
  fs (filename self) = Some text →
  reader_outcome "GEN_SCFMAN" (_read_GEN_SCFMAN fs) self.
Proof.
  intros Hf. unfold _read_GEN_SCFMAN.
  eapply reader_outcome_of; [exact Hf|vm_compute; reflexivity..].
Qed.

Lemma read_SCF_outcome fs self text :
  fs (filename self) = Some text →
  reader_outcome "SCF" (_read_SCF fs) self.
Proof.
  intros Hf. unfold _read_SCF.
  eapply reader_outcome_of; [exact Hf|vm_compute; reflexivity..].
Qed.

Lemma read_restricted_mulliken_outcome fs self text :
  fs (filename self) = Some text →
  reader_outcome "restricted_Mulliken" (_read_restricted_mulliken fs) self.
Proof.
  intros Hf. unfold _read_restricted_mulliken.
  eapply reader_outcome_of; [exact Hf|vm_compute; reflexivity..].
Qed.

Lemma read_unrestricted_mulliken_outcome fs self text :
  fs (filename self) = Some text →
  reader_outcome "unrestricted_Mulliken" (_read_unrestricted_mulliken fs) self.
Proof.
  intros Hf. unfold _read_unrestricted_mulliken.
  eapply reader_outcome_of; [exact Hf|vm_compute; reflexivity..].
Qed.

(** X10: on a file that is read as text, each of the four readers of
    one table either returns the list of tables it has just stored under
    its own key, or raises [AttributeError] and leaves the object as it
    was. Their patterns compile and define [table_body], and the lookup
    of the key after the read finds it: on such a file none raises
    [re.error], [IndexError] or [KeyError]. *)
Theorem readers_outcome fs self text :
  fs (filename self) = Some text →
  reader_outcome "GEN_SCFMAN" (_read_GEN_SCFMAN fs) self ∧
  reader_outcome "SCF" (_read_SCF fs) self ∧
  reader_outcome "restricted_Mulliken" (_read_restricted_mulliken fs) self ∧
  reader_outcome "unrestricted_Mulliken" (_read_unrestricted_mulliken fs) self.
Proof.
  intros Hf.
  split; [by eapply read_GEN_SCFMAN_outcome|].
  split; [by eapply read_SCF_outcome|].
  split; [by eapply read_restricted_mulliken_outcome|].
  by eapply read_unrestricted_mulliken_outcome.
Qed.

Lemma readers_outcome_witness :
  reader_outcome "SCF" (_read_SCF (one_file "qchem.out" sample_blank_row))
    (used "qchem.out") ∧
  _read_SCF (one_file "qchem.out" sample_blank_row) (used "qchem.out")
  = (Raise AttributeError, used "qchem.out") ∧
  reader_outcome "restricted_Mulliken"
    (_read_restricted_mulliken (one_file "qchem.out" sample_blank_row))
    (used "qchem.out") ∧
  _read_restricted_mulliken (one_file "qchem.out" sample_blank_row)
    (used "qchem.out")
  = (Ok (PList []), set_data "restricted_Mulliken" (PList []) (used "qchem.out")).
Proof.
  destruct (readers_outcome (one_file "qchem.out" sample_blank_row)
              (used "qchem.out") sample_blank_row eq_refl)
    as (_ & Hscf & Hmul & _).
  split; [exact Hscf|]. split; [vm_compute; reflexivity|].
  split; [exact Hmul|]. vm_compute. reflexivity.
Defined.

(** ** The constructor *)

(** A read of one key without groups that stops at the first match
    stores [[[]]] when a line matches and [[]] when none does. *)
Lemma probe_value fs k pat p self text :
  Re.compile pat Re.no_flags = Some p →
  Re.groups_count p = 0 →
  fs (filename self) = Some text →
  read_pattern fs [(k, pat)] false true py_str self
  = (Ok tt, set_data k (PList (if marked pat text then [PList []] else [])) self).
Proof.
  intros Hc Hg Hf.
  destruct (read_pattern_returns fs [(k, pat)] false true py_str self text)
    as [self' Hcall]; [done| | |].
  { repeat constructor. simpl. eauto. }
  { intros ? ? ? ? ? g _ _ _ _ _. apply py_str_returns. }
  rewrite Hcall. f_equal.
  destruct (read_single_first _ _ _ _ _ _ _ _ _ Hcall Hc Hf) as [-> _].
  do 2 f_equal. unfold marked. rewrite Hc. unfold scan_lines.
  pose proof (found_in_re p (readlines text)) as Hre.
  destruct (found_in p (readlines text)) as [|m ms] eqn:E.
  - apply found_in_nil in E. by rewrite E.
  - destruct (existsb _ _) eqn:Hex.
    + apply Forall_cons in Hre as [Hm _]. unfold Re.groups.
      by rewrite Hm, Hg.
    + apply found_in_nil in Hex. congruence.
Qed.

(** [__init__] on a file that opens, after its two probes. *)
Lemma init_steps fs name text :
  fs name = Some text →
  __init__ fs name
  = ((if marked GEN_SCFMAN_marker text then _read_GEN_SCFMAN fs else _read_SCF fs);;
     (if marked unrestricted_marker text then _read_unrestricted_mulliken fs
      else _read_restricted_mulliken fs);;
     read_pattern fs [("final_energy", "Final\senergy\sis\s+([\d\-\.]+)")]
       false false py_str;;
     if marked unrestricted_marker text then
       read_pattern fs [("S2", "<S\^2>\s=\s+([\d\-\.]+)")] false false py_str
     else mret tt)
      (set_data "using_GEN_SCFMAN"
         (PList (if marked GEN_SCFMAN_marker text then [PList []] else []))
         (set_data "unrestricted"
            (PList (if marked unrestricted_marker text then [PList []] else []))
            (fresh name))).
Proof.
  intros Hf.
  assert (∃ p, Re.compile unrestricted_marker Re.no_flags = Some p ∧
               Re.groups_count p = 0)
    as (p1 & Hp1 & Hg1) by (eexists; split; vm_compute; reflexivity).
  assert (∃ p, Re.compile GEN_SCFMAN_marker Re.no_flags = Some p ∧
               Re.groups_count p = 0)
    as (p2 & Hp2 & Hg2) by (eexists; split; vm_compute; reflexivity).
  unfold __init__, init_body. fold (fresh name).
  fold unrestricted_marker GEN_SCFMAN_marker.
  rewrite bind_run.
  rewrite (probe_value fs "unrestricted" _ _ (fresh name) text Hp1 Hg1 Hf).
  rewrite bind_run.
  rewrite (probe_value fs "using_GEN_SCFMAN" _ _
             (set_data "unrestricted"
                (PList (if marked unrestricted_marker text then [PList []] else []))
                (fresh name)) text Hp2 Hg2 Hf).
  rewrite get_self_bind, data_get_set_eq.
  assert (∀ b : bool, truthy (PList (if b then [PList []] else [])) = b)
    as Htruthy by (by intros []).
  rewrite Htruthy.
  apply bind_ext. intros v3 s3 ->%read_table_kind.
  rewrite get_self_bind, !data_get_set_ne, data_get_set_eq, Htruthy by key_ne.
  apply bind_ext. intros v4 s4 ->%read_mulliken_kind.
  apply bind_ext. intros [] s5 [w ->]%read_one_key.
  by rewrite get_self_bind, !data_get_set_ne, data_get_set_eq, Htruthy by key_ne.
Qed.

Lemma table_reader_step fs (b : bool) self :
  is_Some (fs (filename self)) →
  (∃ v, (if b then _read_GEN_SCFMAN fs else _read_SCF fs) self
        = (Ok v, set_data (if b then "GEN_SCFMAN" else "SCF") v self)) ∨
  (if b then _read_GEN_SCFMAN fs else _read_SCF fs) self
  = (Raise AttributeError, self).
Proof.
  intros [text Hf].
  assert (reader_outcome (if b then "GEN_SCFMAN" else "SCF")
            (if b then _read_GEN_SCFMAN fs else _read_SCF fs) self) as H.
  { destruct b; [by eapply read_GEN_SCFMAN_outcome|by eapply read_SCF_outcome]. }
  unfold reader_outcome in H.
  destruct ((if b then _read_GEN_SCFMAN fs else _read_SCF fs) self)
    as [[v|e] s].
  - destruct H as [_ ->]. eauto.
  - destruct H as [-> ->]. by right.
Qed.

Lemma mulliken_reader_step fs (b : bool) self :
  is_Some (fs (filename self)) →
  (∃ v, (if b then _read_unrestricted_mulliken fs
         else _read_restricted_mulliken fs) self
        = (Ok v, set_data (if b then "unrestricted_Mulliken"
                           else "restricted_Mulliken") v self)) ∨
  (if b then _read_unrestricted_mulliken fs else _read_restricted_mulliken fs) self
  = (Raise AttributeError, self).
Proof.
  intros [text Hf].
  assert (reader_outcome
            (if b then "unrestricted_Mulliken" else "restricted_Mulliken")
            (if b then _read_unrestricted_mulliken fs
             else _read_restricted_mulliken fs) self) as H.
  { destruct b; [by eapply read_unrestricted_mulliken_outcome
                |by eapply read_restricted_mulliken_outcome]. }
  unfold reader_outcome in H.
  destruct ((if b then _read_unrestricted_mulliken fs
             else _read_restricted_mulliken fs) self) as [[v|e] s].
  - destruct H as [_ ->]. eauto.
  - destruct H as [-> ->]. by right.
Qed.

Lemma scalar_step fs k pat self :
  is_Some (fs (filename self)) →
  is_Some (Re.compile pat Re.no_flags) →
  ∃ w, read_pattern fs [(k, pat)] false false py_str self
       = (Ok tt, set_data k w self).
Proof.
  intros [text Hf] Hc.
  destruct (read_pattern_returns fs [(k, pat)] false false py_str self text)
    as [self' Hcall]; [done| | |].
  { by repeat constructor. }
  { intros ? ? ? ? ? g _ _ _ _ _. apply py_str_returns. }
  destruct (read_one_key _ _ _ _ _ _ _ _ _ Hcall) as [w ->]. eauto.
Qed.

(** X11: constructing a [QCCalc] on a name that cannot be opened raises
    [IOError]. On a file that is read as text the constructor returns,
    or raises the [AttributeError] of a table line without a match, and
    the file name it was given stays the object's: on such a file it
    raises no [re.error], [IndexError] or [KeyError]. *)
Theorem init_outcome fs name :
  (fs name = None → __init__ fs name = (Raise IOError, fresh name)) ∧
  (∀ text, fs name = Some text →
     ∃ self', filename self' = name ∧
              (__init__ fs name = (Ok tt, self') ∨
               __init__ fs name = (Raise AttributeError, self'))).
Proof.
  split.
  - intros Hf.
    assert (∃ p, Re.compile unrestricted_marker Re.no_flags = Some p)
      as [p1 Hp1] by (vm_compute; eauto).
    unfold __init__, init_body. fold (fresh name). fold unrestricted_marker.
    rewrite bind_run.
    by rewrite (read_pattern_no_file fs "unrestricted" _ _ false true py_str
                  (fresh name) Hp1 Hf).
  - intros text Hf. rewrite (init_steps _ _ _ Hf).
    generalize (marked GEN_SCFMAN_marker text) (marked unrestricted_marker text).
    intros gen unr.
    set (s2 := set_data "using_GEN_SCFMAN" _ _).
    assert (filename s2 = name) as Hn2 by done.
    assert (∀ s, filename s = name → is_Some (fs (filename s))) as Hopen.
    { intros s ->. eauto. }
    clearbody s2. rewrite bind_run.
    destruct (table_reader_step fs gen s2) as [[v3 ->]| ->]; [by apply Hopen| |eauto].
    set (s3 := set_data _ v3 s2). assert (filename s3 = name) as Hn3 by done.
    clearbody s3. rewrite bind_run.
    destruct (mulliken_reader_step fs unr s3) as [[v4 ->]| ->];
      [by apply Hopen| |eauto].
    set (s4 := set_data _ v4 s3). assert (filename s4 = name) as Hn4 by done.
    clearbody s4. rewrite bind_run.
    destruct (scalar_step fs "final_energy" "Final\senergy\sis\s+([\d\-\.]+)" s4)
      as [w5 ->]; [by apply Hopen|vm_compute; eauto|].
    set (s5 := set_data _ w5 s4). assert (filename s5 = name) as Hn5 by done.
    clearbody s5. destruct unr.
    + destruct (scalar_step fs "S2" "<S\^2>\s=\s+([\d\-\.]+)" s5)
        as [w6 ->]; [by apply Hopen|vm_compute; eauto|].
      eexists. split; [|by left]. done.
    + exists s5. split; [done|by left].
Qed.

Lemma init_outcome_witness :
  __init__ (one_file "qchem.out" sample_restricted) "missing.out"
  = (Raise IOError, fresh "missing.out") ∧
  (∃ self', filename self' = "qchem.out" ∧
            (__init__ (one_file "qchem.out" sample_restricted) "qchem.out"
             = (Ok tt, self') ∨
             __init__ (one_file "qchem.out" sample_restricted) "qchem.out"
             = (Raise AttributeError, self'))) ∧
  (∃ self', filename self' = "qchem.out" ∧
            (__init__ (one_file "qchem.out" sample_blank_row) "qchem.out"
             = (Ok tt, self') ∨
             __init__ (one_file "qchem.out" sample_blank_row) "qchem.out"
             = (Raise AttributeError, self'))) ∧
  (__init__ (one_file "qchem.out" sample_restricted) "qchem.out").1 = Ok tt ∧
  (__init__ (one_file "qchem.out" sample_blank_row) "qchem.out").1
  = Raise AttributeError.
Proof.
  split.
  { apply (init_outcome (one_file "qchem.out" sample_restricted) "missing.out").
    reflexivity. }
  split.
  { apply (init_outcome (one_file "qchem.out" sample_restricted) "qchem.out")
      with (text := sample_restricted). reflexivity. }
  split.
  { apply (init_outcome (one_file "qchem.out" sample_blank_row) "qchem.out")
      with (text := sample_blank_row). reflexivity. }
  split; vm_compute; reflexivity.
Defined.

(** X12: after [__init__] the entry of a marker is [[[]]] when a line of
    the file has the marker and [[]] when none has: the marker patterns
    have no group, the probes stop at the first match, and no later read
    writes to these keys. *)
Theorem init_marker_entries fs name text self' :
  fs name = Some text →
  __init__ fs name = (Ok tt, self') →
  data self' !! "unrestricted"
  = Some (PList (if marked unrestricted_marker text then [PList []] else [])) ∧
  data self' !! "using_GEN_SCFMAN"
  = Some (PList (if marked GEN_SCFMAN_marker text then [PList []] else [])).
Proof.
  intros Hf Hret. rewrite (init_steps _ _ _ Hf) in Hret.
  generalize dependent (marked GEN_SCFMAN_marker text).
  generalize dependent (marked unrestricted_marker text).
  intros unr gen Hret.
  apply bind_inv in Hret as (v3 & s3 & ->%read_table_kind & Hret).
  apply bind_inv in Hret as (v4 & s4 & ->%read_mulliken_kind & Hret).
  apply bind_inv in Hret as ([] & s5 & [w5 ->]%read_one_key & Hret).
  assert (∃ keep, data self' !! "unrestricted"
                  = data (set_data "final_energy" w5 keep) !! "unrestricted" ∧
                  data self' !! "using_GEN_SCFMAN"
                  = data (set_data "final_energy" w5 keep) !! "using_GEN_SCFMAN" ∧
                  keep = set_data (if unr then "unrestricted_Mulliken"
                                   else "restricted_Mulliken") v4
                           (set_data (if gen then "GEN_SCFMAN" else "SCF") v3
                              (set_data "using_GEN_SCFMAN"
                                 (PList (if gen then [PList []] else []))
                                 (set_data "unrestricted"
                                    (PList (if unr then [PList []] else []))
                                    (fresh name)))))
    as (keep & -> & -> & ->).
  { eexists. split; [|split; [|reflexivity]].
    - destruct unr.
      + apply read_one_key in Hret as [w6 ->]. simpl.
        by rewrite lookup_insert_ne.
      + by injection Hret as <-.
    - destruct unr.
      + apply read_one_key in Hret as [w6 ->]. simpl.
        by rewrite lookup_insert_ne.
      + by injection Hret as <-. }
  simpl. split.
  - rewrite !lookup_insert_ne by key_ne. by rewrite lookup_insert_eq.
  - rewrite !lookup_insert_ne by key_ne. by rewrite lookup_insert_eq.
Qed.

Lemma init_marker_entries_witness :
  ∃ self',
    __init__ (one_file "qchem.out" sample_unrestricted) "qchem.out"
      = (Ok tt, self') ∧
    data self' !! "unrestricted" = Some (PList [PList []]) ∧
    data self' !! "using_GEN_SCFMAN" = Some (PList [PList []]).
Proof.
  pose (self' := (__init__ (one_file "qchem.out" sample_unrestricted)
                    "qchem.out").2).
  assert (__init__ (one_file "qchem.out" sample_unrestricted) "qchem.out"
          = (Ok tt, self')) as H by (vm_compute; reflexivity).
  destruct (init_marker_entries (one_file "qchem.out" sample_unrestricted)
              "qchem.out" sample_unrestricted self') as [H1 H2].
  - reflexivity.
  - exact H.
  - exists self'. split; [exact H|].
    assert (marked unrestricted_marker sample_unrestricted = true) as E1
      by (vm_compute; reflexivity).
    assert (marked GEN_SCFMAN_marker sample_unrestricted = true) as E2
      by (vm_compute; reflexivity).
    rewrite E1 in H1. rewrite E2 in H2. split; [exact H1|exact H2].
Defined.

(** ** What the tables hold *)

(** The tables of a call that returns: each is made of the rows of the
    lines of a body. *)
Lemma call_tables fs h r f pp attr last self v self' rp :
  read_table_pattern fs h r f pp attr last self = (Ok v, self') →
  Re.compile r Re.no_flags = Some rp →
  ∃ tables,
    (if last then v ∈ tables else v = PList tables) ∧
    Forall (λ t, ∃ body rows,
              t = PList rows ∧
              Forall2 (λ line row, process_line rp pp line = Ok row)
                      (str_split LF body) rows) tables.
Proof.
  intros H Hrp.
  destruct (read_table_pattern_inv _ _ _ _ _ _ _ _ _ _ H)
    as [(text & tp & rp' & Hf & Ht & Hr)|[_ [?|?]]]; [|done..].
  assert (rp' = rp) as -> by congruence.
  rewrite (read_table_pattern_run _ _ _ _ _ _ _ _ _ _ _ Hf Ht Hr) in H.
  destruct (traverse _ _) as [tables|] eqn:E; [|done].
  exists tables. split.
  - destruct last.
    + unfold last_item in H. destruct (last tables) as [t|] eqn:El; [|done].
      injection H as <- _. apply last_Some in El as [l' ->].
      apply elem_of_app. right. left.
    + by injection H as <- _.
  - apply traverse_ok in E. apply Forall_forall. intros t Ht'.
    apply list_elem_of_lookup in Ht' as [i Hi].
    destruct (Forall2_lookup_r _ _ _ _ _ E Hi) as (mt & _ & Hmt).
    apply process_table_ok in Hmt as (body & rows & _ & -> & HF). eauto.
Qed.

Lemma str_split_length sep s : 0 < length (str_split sep s).
Proof.
  unfold str_split. rewrite length_map.
  destruct (split_on_cons sep (list_ascii_of_string s)) as (l & ls & ->).
  simpl. lia.
Qed.

(** X13: a table that a call returns is never empty: the body of a match
    of the compound pattern splits into at least one line, and every
    line gives a row or makes the call raise. *)
Theorem tables_have_rows fs header_pattern row_pattern footer_pattern
    postprocess attribute_name last_one_only self v self' :
  read_table_pattern fs header_pattern row_pattern footer_pattern postprocess
    attribute_name last_one_only self = (Ok v, self') →
  if last_one_only then has_rows v
  else ∃ tables, v = PList tables ∧ Forall has_rows tables.
Proof.
  intros H.
  destruct (read_table_pattern_inv _ _ _ _ _ _ _ _ _ _ H)
    as [(text & tp & rp & Hf & Ht & Hr)|[_ [?|?]]]; [|done..].
  destruct (call_tables _ _ _ _ _ _ _ _ _ _ _ H Hr) as (tables & Hv & Hall).
  assert (Forall has_rows tables) as Hrows.
  { eapply Forall_impl; [exact Hall|]. intros t (body & rows & -> & HF).
    exists rows. split; [done|]. apply Forall2_length in HF. rewrite <- HF.
    apply str_split_length. }
  destruct last_one_only.
  - rewrite Forall_forall in Hrows. by apply Hrows.
  - eauto.
Qed.

Lemma tables_have_rows_witness :
  ∃ v self',
    read_table_pattern (one_file "qchem.out" sample_three_tables)
      scf_header scf_row scf_footer py_str (Some "SCF") false (fresh "qchem.out")
    = (Ok v, self') ∧
    ∃ tables, v = PList tables ∧ length tables = 3 ∧ Forall has_rows tables.
Proof.
  pose (out := read_table_pattern (one_file "qchem.out" sample_three_tables)
                 scf_header scf_row scf_footer py_str (Some "SCF") false
                 (fresh "qchem.out")).
  pose (v := match out.1 with Ok v => v | Raise _ => PNone end).
  assert (out = (Ok v, out.2)) as H by (vm_compute; reflexivity).
  unfold out at 1 in H.
  destruct (tables_have_rows _ _ _ _ _ _ false _ _ _ H) as (tables & Hv & Hrows).
  exists v, out.2. split; [exact H|]. exists tables.
  split; [exact Hv|]. split; [|exact Hrows].
  vm_compute in Hv. injection Hv as <-. reflexivity.
Defined.

Lemma traverse_py_str l : traverse py_str l = Ok (map default_cell l).
Proof.
  induction l as [|g l IH]; [done|]. simpl. rewrite IH. by destruct g.
Qed.

Lemma process_line_default rp line ml :
  Re.search rp line = Some ml →
  process_line rp py_str line = Ok (default_row ml).
Proof.
  intros Hs. unfold process_line, default_row. rewrite Hs. simpl.
  destruct (0 <? length (Re.groupdict ml)).
  - assert (∀ d : list (string * option string),
              traverse (λ kv : string * option string,
                          v ← py_str kv.2; Ok (kv.1, v)) d
              = Ok (map (λ kv, (kv.1, default_cell kv.2)) d)) as ->; [|done].
    induction d as [|[k g] d IH]; [done|]. simpl. rewrite IH. by destruct g.
  - by rewrite traverse_py_str.
Qed.

(** X14: with the default [postprocess] every cell of every row is a
    string: the text a group captured, and the string [None] for a group
    that took no part in the match of its line. *)
Theorem default_cells_are_strings fs header_pattern row_pattern footer_pattern
    attribute_name last_one_only self v self' rp :
  read_table_pattern fs header_pattern row_pattern footer_pattern py_str
    attribute_name last_one_only self = (Ok v, self') →
  Re.compile row_pattern Re.no_flags = Some rp →
  if last_one_only then default_table rp v
  else ∃ tables, v = PList tables ∧ Forall (default_table rp) tables.
Proof.
  intros H Hr.
  destruct (call_tables _ _ _ _ _ _ _ _ _ _ _ H Hr) as (tables & Hv & Hall).
  assert (Forall (default_table rp) tables) as Hrows.
  { eapply Forall_impl; [exact Hall|]. intros t (body & rows & -> & HF).
    exists rows. split; [done|].
    apply Forall_forall. intros row Hrow.
    apply list_elem_of_lookup in Hrow as [i Hi].
    destruct (Forall2_lookup_r _ _ _ _ _ HF Hi) as (line & _ & Hline).
    destruct (Re.search rp line) as [ml|] eqn:Hs.
    - rewrite (process_line_default _ _ _ Hs) in Hline.
      injection Hline as <-. eauto.
    - by rewrite (process_line_no_match _ _ _ Hs) in Hline. }
  destruct last_one_only.
  - rewrite Forall_forall in Hrows. by apply Hrows.
  - eauto.
Qed.

Lemma default_cells_are_strings_witness :
  ∃ v self' rp,
    read_table_pattern (one_file "t.out" sample_optional_group)
      "BEGIN" "(\w+)(?:\s(\d+))?" "END" py_str None true (fresh "t.out")
    = (Ok v, self') ∧
    v = PList [PList [PStr "x"; PStr "1"]; PList [PStr "y"; PStr "None"]] ∧
    default_table rp v.
Proof.
  pose (rp := default (Re.Build_pattern Re.Eps Re.no_flags 0 [])
                (Re.compile "(\w+)(?:\s(\d+))?" Re.no_flags)).
  pose (v := PList [PList [PStr "x"; PStr "1"]; PList [PStr "y"; PStr "None"]]).
  assert (read_table_pattern (one_file "t.out" sample_optional_group)
            "BEGIN" "(\w+)(?:\s(\d+))?" "END" py_str None true (fresh "t.out")
          = (Ok v, fresh "t.out")) as H by (vm_compute; reflexivity).
  exists v, (fresh "t.out"), rp. split; [exact H|]. split; [reflexivity|].
  apply (default_cells_are_strings _ _ _ _ _ true _ _ _ rp H).
  vm_compute. reflexivity.
Defined.

(** ** Reads in either order *)

Lemma read_table_pattern_file fs h r f pp attr last self1 self2 v :
  filename self1 = filename self2 →
  read_table_pattern fs h r f pp attr last self1 = (Ok v, stored attr v self1) →
  read_table_pattern fs h r f pp attr last self2 = (Ok v, stored attr v self2).
Proof.
  intros Hn H.
  destruct (read_table_pattern_inv _ _ _ _ _ _ _ _ _ _ H)
    as [(text & tp & rp & Hf & Ht & Hr)|[_ [?|?]]]; [|done..].
  rewrite (read_table_pattern_run _ _ _ _ _ _ _ _ _ _ _ Hf Ht Hr) in H.
  rewrite Hn in Hf.
  rewrite (read_table_pattern_run _ _ _ _ _ _ _ _ _ _ _ Hf Ht Hr).
  destruct (traverse _ _) as [tables|]; [|done].
  destruct (if last then _ else _) as [w|]; [|done].
  by injection H as ->.
Qed.

(** X15: a scalar read and a table read that writes to none of its keys
    can be made in either order: when both return, the table is the same
    and the object ends in the same state. *)
Theorem reads_commute fs patterns reverse terminate_on_match postprocess
    header_pattern row_pattern footer_pattern postprocess' attribute_name
    last_one_only self v self' :
  (∀ a, attribute_name = Some a → a ∉ patterns.*1) →
  (read_pattern fs patterns reverse terminate_on_match postprocess;;
   read_table_pattern fs header_pattern row_pattern footer_pattern postprocess'
     attribute_name last_one_only) self = (Ok v, self') ↔
  (v ← read_table_pattern fs header_pattern row_pattern footer_pattern
         postprocess' attribute_name last_one_only;
   read_pattern fs patterns reverse terminate_on_match postprocess;;
   mret v) self = (Ok v, self').
Proof.
  intros Hattr. split.
  - intros ([] & s1 & H1 & H2)%bind_inv.
    apply read_pattern_effect in H1 as (matches & Hre & ->).
    pose proof (read_table_pattern_effect _ _ _ _ _ _ _ _ _ _ H2) as Heff.
    simpl in Heff. subst self'.
    apply (read_table_pattern_file _ _ _ _ _ _ _ _ self) in H2;
      [|apply assign_filename].
    rewrite bind_run, H2, bind_run, read_pattern_run, stored_filename, Hre.
    by rewrite assign_stored.
  - intros (w & s1 & H1 & H2)%bind_inv.
    pose proof (read_table_pattern_effect _ _ _ _ _ _ _ _ _ _ H1) as Heff.
    simpl in Heff. subst s1.
    apply bind_inv in H2 as ([] & s2 & H2 & Hret).
    injection Hret as -> <-.
    apply read_pattern_effect in H2 as (matches & Hre & ->).
    rewrite stored_filename in Hre.
    rewrite bind_run, read_pattern_run, Hre.
    rewrite assign_stored by done.
    apply (read_table_pattern_file _ _ _ _ _ _ _ self); [|done].
    by rewrite assign_filename.
Qed.

Lemma reads_commute_witness :
  ∃ v self',
    (read_pattern (one_file "qchem.out" sample_three_tables)
       [("welcome", "Welcome to (\S+)")] false false py_str;;
     read_table_pattern (one_file "qchem.out" sample_three_tables)
       scf_header scf_row scf_footer py_str (Some "SCF") true)
      (fresh "qchem.out") = (Ok v, self') ∧
    (v ← read_table_pattern (one_file "qchem.out" sample_three_tables)
           scf_header scf_row scf_footer py_str (Some "SCF") true;
     read_pattern (one_file "qchem.out" sample_three_tables)
       [("welcome", "Welcome to (\S+)")] false false py_str;;
     mret v) (fresh "qchem.out") = (Ok v, self') ∧
    data self' !! "welcome" = Some (PList [PList [PStr "Q-Chem"]]) ∧
    data self' !! "SCF" = Some v.
Proof.
  pose (out := (read_pattern (one_file "qchem.out" sample_three_tables)
                  [("welcome", "Welcome to (\S+)")] false false py_str;;
                read_table_pattern (one_file "qchem.out" sample_three_tables)
                  scf_header scf_row scf_footer py_str (Some "SCF") true)
                 (fresh "qchem.out")).
  pose (v := match out.1 with Ok v => v | Raise _ => PNone end).
  assert (out = (Ok v, out.2)) as H by (vm_compute; reflexivity).
  unfold out at 1 in H.
  exists v, out.2. split; [exact H|]. split.
  - apply (reads_commute (one_file "qchem.out" sample_three_tables)
             [("welcome", "Welcome to (\S+)")] false false py_str
             scf_header scf_row scf_footer py_str (Some "SCF") true
             (fresh "qchem.out") v out.2); [|exact H].
    intros a [= <-] Hin. apply (bool_decide_pack _) in Hin.
    vm_compute in Hin. exact Hin.
  - split; vm_compute; reflexivity.
Defined.

(** ** A key that is never found *)

(** The lines a call that returns has gone through, and what it stored
    for each key. *)
Lemma read_pattern_scan fs patterns reverse terminate_on_match postprocess
    self self' text :
  NoDup patterns.*1 →
  read_pattern fs patterns reverse terminate_on_match postprocess self
    = (Ok tt, self') →
  fs (filename self) = Some text →
  ∃ scanned,
    scanned `prefix_of` scan_lines reverse text ∧
    (scanned = scan_lines reverse text ∨
     (terminate_on_match = true ∧
      ∀ k v p, (k, v) ∈ patterns → Re.compile v Re.no_flags = Some p →
               found_in p scanned ≠ [])) ∧
    ∀ k v p, (k, v) ∈ patterns → Re.compile v Re.no_flags = Some p →
      ∃ new,
        data self' !! k
        = Some (PList (map (λ i : list pyval * Z, PList i.1) new)) ∧
        Forall2 (λ m x, traverse postprocess (Re.groups m) = Ok x.1)
                (found_in p scanned) new.
Proof.
  intros Hnd Hcall Hf. rewrite read_pattern_run in Hcall.
  destruct (monty.regrep _ _ _ _ _ _) as [matches|] eqn:Hre; [|done].
  injection Hcall as <-.
  apply regrep_inv in Hre as (compiled & text' & Hkeys & HF & Hf' & Hgrep).
  assert (text' = text) as -> by congruence.
  rewrite <- Hkeys in Hnd.
  destruct (grep_lines_spec _ _ _ _ Hnd _ _ _ _ Hgrep)
    as (scanned & Hpre & Hend & _ & Hin').
  assert (∀ k v p, (k, v) ∈ patterns → Re.compile v Re.no_flags = Some p →
            ∃ new, default [] (matches !! k) = new ∧
                   Forall2 (λ m x, traverse postprocess (Re.groups m) = Ok x.1)
                           (found_in p scanned) new) as Hnew.
  { intros k v p Hin Hc.
    pose proof (compiled_of_pattern _ _ _ _ _ HF Hin Hc) as Hkp.
    destruct (Hin' _ _ Hkp) as (new & Hnew & HF2).
    rewrite lookup_empty in Hnew. simpl in Hnew. eauto. }
  exists scanned. split; [done|]. split.
  - destruct Hend as [?|[? Hall]]; [by left|right]. split; [done|].
    intros k v p Hin Hc Hnone.
    destruct (Hnew _ _ _ Hin Hc) as (new & Hdef & HF2).
    rewrite Hnone in HF2. apply Forall2_nil_inv_l in HF2 as ->.
    pose proof (compiled_of_pattern _ _ _ _ _ HF Hin Hc) as Hkp.
    unfold monty.all_found in Hall. rewrite forallb_forall in Hall.
    apply list_elem_of_In, Hall in Hkp. simpl in Hkp.
    by rewrite Hdef, bool_decide_eq_true_2 in Hkp.
  - intros k v p Hin Hc. destruct (Hnew _ _ _ Hin Hc) as (new & Hdef & HF2).
    exists new. split; [|done].
    rewrite assign_lookup, decide_True, Hdef; [done|].
    by apply (list_elem_of_fmap_2 fst _ (k, v)).
Qed.

(** X16: a read with [terminate_on_match=True] stops only when every
    key has a value. When the pattern of one key matches no line of the
    file, the read goes through the whole file and leaves exactly what
    the read with [terminate_on_match=False] leaves. *)
Theorem unmatched_key_reads_all fs patterns reverse postprocess self self'
    text k0 v0 p0 :
  NoDup patterns.*1 →
  fs (filename self) = Some text →
  (k0, v0) ∈ patterns → Re.compile v0 Re.no_flags = Some p0 →
  found_in p0 (scan_lines reverse text) = [] →
  read_pattern fs patterns reverse true postprocess self = (Ok tt, self') →
  read_pattern fs patterns reverse false postprocess self = (Ok tt, self').
Proof.
  intros Hnd Hf Hin0 Hc0 Hnone H1.
  destruct (read_pattern_scan _ _ _ _ _ _ _ _ Hnd H1 Hf)
    as (scanned & Hpre & Hend & Hst1).
  assert (scanned = scan_lines reverse text) as ->.
  { destruct Hend as [?|[_ Hfound]]; [done|].
    destruct (Hfound _ _ _ Hin0 Hc0). by eapply found_in_prefix. }
  destruct (read_pattern_ok_inv _ _ _ _ _ _ _ H1) as [_ Hcomp].
  destruct (read_pattern_returns fs patterns reverse false postprocess self text)
    as [self2 H2]; [done| | |].
  { apply Forall_forall. intros [k v] Hin. simpl.
    destruct (Hcomp _ _ Hin) as [p ->]. eauto. }
  { intros k v p l m g Hin Hc Hl Hs Hg.
    destruct (Hst1 _ _ _ Hin Hc) as (new & _ & HF).
    assert (m ∈ found_in p (scan_lines reverse text)) as Hm.
    { apply list_elem_of_omap. eauto. }
    apply list_elem_of_lookup in Hm as [i Hi].
    destruct (Forall2_lookup_l _ _ _ _ _ HF Hi) as (x & _ & Hx).
    apply traverse_ok in Hx.
    apply list_elem_of_lookup in Hg as [j Hj].
    destruct (Forall2_lookup_l _ _ _ _ _ Hx Hj) as (w & _ & Hw). eauto. }
  rewrite H2. f_equal.
  destruct (read_pattern_scan _ _ _ _ _ _ _ _ Hnd H2 Hf)
    as (scanned & _ & [-> |[? _]] & Hst2); [|done].
  pose proof (read_pattern_effect _ _ _ _ _ _ _ _ H1) as (m1 & _ & E1).
  pose proof (read_pattern_effect _ _ _ _ _ _ _ _ H2) as (m2 & _ & E2).
  apply QCCalc_eq; [by rewrite E1, E2, !assign_filename|].
  apply map_eq. intros k.
  destruct (decide (k ∈ patterns.*1)) as [Hk|Hk].
  - apply list_elem_of_fmap in Hk as ([k' v] & -> & Hin). simpl.
    destruct (Hcomp _ _ Hin) as [p Hp].
    destruct (Hst1 _ _ _ Hin Hp) as (n1 & -> & HF1).
    destruct (Hst2 _ _ _ Hin Hp) as (n2 & -> & HF2).
    do 2 f_equal. by eapply converted_same.
  - rewrite E1, E2, !assign_lookup. by rewrite !decide_False.
Qed.

Lemma unmatched_key_reads_all_witness :
  ∃ self',
    read_pattern (one_file "qchem.out" sample_two_energies) energy_patterns
      false true py_str (fresh "qchem.out") = (Ok tt, self') ∧
    read_pattern (one_file "qchem.out" sample_two_energies) energy_patterns
      false false py_str (fresh "qchem.out") = (Ok tt, self') ∧
    data self' !! "final_energy"
    = Some (PList [PList [PStr "-1.5"]; PList [PStr "-2.5"]]) ∧
    data self' !! "S2" = Some (PList []).
Proof.
  pose (self' := (read_pattern (one_file "qchem.out" sample_two_energies)
                    energy_patterns false true py_str (fresh "qchem.out")).2).
  pose (p0 := default (Re.Build_pattern Re.Eps Re.no_flags 0 [])
                (Re.compile "<S\^2>\s=\s+([\d\-\.]+)" Re.no_flags)).
  assert (read_pattern (one_file "qchem.out" sample_two_energies)
            energy_patterns false true py_str (fresh "qchem.out")
          = (Ok tt, self')) as H by (vm_compute; reflexivity).
  exists self'. split; [exact H|]. split.
  - apply (unmatched_key_reads_all (one_file "qchem.out" sample_two_energies)
             energy_patterns false py_str (fresh "qchem.out") self'
             sample_two_energies "S2" "<S\^2>\s=\s+([\d\-\.]+)" p0).
    + apply (bool_decide_unpack _). vm_compute. exact I.
    + reflexivity.
    + right. left.
    + vm_compute. reflexivity.
    + vm_compute. reflexivity.
    + exact H.
  - split; vm_compute; reflexivity.
Defined.

(** ** The constructor against its plan *)

(** The lookup a reader ends with returns what the read has stored and
    changes nothing. *)
Lemma reader_run {B} fs key t (k : M B) self :
  ((table_read fs key t;; data_item key);; k) self = (table_read fs key t;; k) self.
Proof.
  rewrite !bind_run. unfold table_read.
  destruct (read_table_pattern fs t.1.1 t.1.2 t.2 py_str (Some key) false self)
    as [[v|e] s1] eqn:H; [|done].
  pose proof (read_table_pattern_effect _ _ _ _ _ _ _ _ _ _ H) as Heff.
  simpl in Heff. subst s1.
  unfold data_item. rewrite get_self_bind. unfold lift. simpl.
  by rewrite lookup_insert_eq.
Qed.

Lemma table_read_effect fs key t self v self' :
  table_read fs key t self = (Ok v, self') → self' = set_data key v self.
Proof.
  unfold table_read. intros H.
  exact (read_table_pattern_effect _ _ _ _ _ _ _ _ _ _ H).
Qed.

(** What a table read returns depends on the file alone. *)
Lemma table_read_value fs key t self v self' name :
  table_read fs key t self = (Ok v, self') →
  filename self = name →
  tables_in_file fs name t = Ok v.
Proof.
  unfold table_read, tables_in_file. intros H <-.
  destruct (read_table_pattern_inv _ _ _ _ _ _ _ _ _ _ H)
    as [(text & tp & rp & Hf & Ht & Hr)|[_ [?|?]]]; [|done..].
  rewrite (read_table_pattern_run _ _ _ _ _ _ _ _ _ _ _ Hf Ht Hr) in H.
  rewrite (read_table_pattern_run fs _ _ _ py_str None false
             (fresh (filename self)) text tp rp Hf Ht Hr).
  destruct (traverse _ _) as [tables|]; [|done]. by injection H as <- _.
Qed.

(** What a scalar read stores depends on the file alone. *)
Lemma read_pattern_value fs k pat self self' name :
  read_pattern fs [(k, pat)] false false py_str self = (Ok tt, self') →
  filename self = name →
  self' = set_data k (default PNone (values_in_file fs name k pat)) self ∧
  is_Some (values_in_file fs name k pat).
Proof.
  unfold values_in_file. intros H <-.
  apply read_pattern_effect in H as (matches & Hre & ->).
  rewrite read_pattern_run. simpl. rewrite Hre.
  unfold assign. simpl. rewrite lookup_insert_eq. simpl. eauto.
Qed.

Lemma init_plan_steps fs (gen unr : bool) name self' :
  init_plan fs gen unr (fresh name) = (Ok tt, self') →
  ∃ w1 w2 v3 v4 w5,
    tables_in_file fs name (if gen then GEN_SCFMAN_table else SCF_table) = Ok v3 ∧
    tables_in_file fs name (if unr then unrestricted_Mulliken_table
                            else restricted_Mulliken_table) = Ok v4 ∧
    values_in_file fs name "final_energy" final_energy_pattern = Some w5 ∧
    ∃ s5,
      s5 = set_data "final_energy" w5
             (set_data (if unr then "unrestricted_Mulliken"
                        else "restricted_Mulliken") v4
                (set_data (if gen then "GEN_SCFMAN" else "SCF") v3
                   (set_data "using_GEN_SCFMAN" w2
                      (set_data "unrestricted" w1 (fresh name))))) ∧
      if unr then
        ∃ w6, values_in_file fs name "S2" S2_pattern = Some w6 ∧
              self' = set_data "S2" w6 s5
      else self' = s5.
Proof.
  intros Hret. unfold init_plan in Hret.
  apply bind_inv in Hret as ([] & s1 & [w1 ->]%read_one_key & Hret).
  apply bind_inv in Hret as ([] & s2 & [w2 ->]%read_one_key & Hret).
  apply bind_inv in Hret as (v3 & s3 & H3 & Hret).
  assert (table_read fs (if gen then "GEN_SCFMAN" else "SCF")
            (if gen then GEN_SCFMAN_table else SCF_table)
            (set_data "using_GEN_SCFMAN" w2
               (set_data "unrestricted" w1 (fresh name))) = (Ok v3, s3)) as H3'
    by (by destruct gen).
  clear H3. pose proof (table_read_value _ _ _ _ _ _ name H3' eq_refl) as Hv3.
  apply table_read_effect in H3' as ->.
  apply bind_inv in Hret as (v4 & s4 & H4 & Hret).
  assert (table_read fs (if unr then "unrestricted_Mulliken"
                         else "restricted_Mulliken")
            (if unr then unrestricted_Mulliken_table
             else restricted_Mulliken_table)
            (set_data (if gen then "GEN_SCFMAN" else "SCF") v3
               (set_data "using_GEN_SCFMAN" w2
                  (set_data "unrestricted" w1 (fresh name)))) = (Ok v4, s4)) as H4'
    by (by destruct unr).
  clear H4. pose proof (table_read_value _ _ _ _ _ _ name H4' eq_refl) as Hv4.
  apply table_read_effect in H4' as ->.
  apply bind_inv in Hret as ([] & s5 & H5 & Hret).
  destruct (read_pattern_value _ _ _ _ _ name H5 eq_refl) as [-> [w5 Hw5]].
  rewrite Hw5 in *. simpl in Hret.
  exists w1, w2, v3, v4, w5. split_and!; try done.
  eexists. split; [reflexivity|].
  destruct unr.
  - destruct (read_pattern_value _ _ _ _ _ name Hret eq_refl) as [-> [w6 Hw6]].
    rewrite Hw6. simpl. eauto.
  - by injection Hret as <-.
Qed.

Lemma read_GEN_SCFMAN_table fs :
  _read_GEN_SCFMAN fs
  = (table_read fs "GEN_SCFMAN" GEN_SCFMAN_table;; data_item "GEN_SCFMAN").
Proof. reflexivity. Qed.

Lemma read_SCF_table fs :
  _read_SCF fs = (table_read fs "SCF" SCF_table;; data_item "SCF").
Proof. reflexivity. Qed.

Lemma read_restricted_mulliken_table fs :
  _read_restricted_mulliken fs
  = (table_read fs "restricted_Mulliken" restricted_Mulliken_table;;
     data_item "restricted_Mulliken").
Proof. reflexivity. Qed.

Lemma read_unrestricted_mulliken_table fs :
  _read_unrestricted_mulliken fs
  = (table_read fs "unrestricted_Mulliken" unrestricted_Mulliken_table;;
     data_item "unrestricted_Mulliken").
Proof. reflexivity. Qed.

(** In a sequence, a reader is the extraction of its table. *)
Lemma table_kind_run {B} fs (b : bool) (k : M B) s :
  ((if b then _read_GEN_SCFMAN fs else _read_SCF fs);; k) s
  = (table_read fs (if b then "GEN_SCFMAN" else "SCF")
       (if b then GEN_SCFMAN_table else SCF_table);; k) s.
Proof.
  destruct b.
  - rewrite read_GEN_SCFMAN_table. apply reader_run.
  - rewrite read_SCF_table. apply reader_run.
Qed.

Lemma mulliken_kind_run {B} fs (b : bool) (k : M B) s :
  ((if b then _read_unrestricted_mulliken fs
    else _read_restricted_mulliken fs);; k) s
  = (table_read fs (if b then "unrestricted_Mulliken" else "restricted_Mulliken")
       (if b then unrestricted_Mulliken_table else restricted_Mulliken_table);;
     k) s.
Proof.
  destruct b.
  - rewrite read_unrestricted_mulliken_table. apply reader_run.
  - rewrite read_restricted_mulliken_table. apply reader_run.
Qed.

Lemma plan_kind {B} fs (b : bool) k1 t1 k2 t2 (k : M B) s :
  ((if b then table_read fs k1 t1 else table_read fs k2 t2);; k) s
  = (table_read fs (if b then k1 else k2) (if b then t1 else t2);; k) s.
Proof. by destruct b. Qed.

(** C7, as the code has it: [__init__] runs the two probes first, then
    the extraction of the [GEN_SCFMAN] table when a line of the file
    matches the [GEN_SCFMAN] marker and that of the old-style [SCF]
    table otherwise, then the extraction of the Mulliken table with
    spins when a line matches the marker of an unrestricted
    calculation and that of the table without spins otherwise, then the
    read of the final energy, and the read of [<S^2>] in the
    unrestricted case alone. When it returns, [self.data] has the keys
    of these reads and no other, and holds under each what that
    extraction finds in the file. *)
Theorem init_reads_by_markers fs name :
  let gen := marked GEN_SCFMAN_marker (default "" (fs name)) in
  let unr := marked unrestricted_marker (default "" (fs name)) in
  __init__ fs name = init_plan fs gen unr (fresh name) ∧
  ∀ self',
    __init__ fs name = (Ok tt, self') →
    dom (data self') = init_keys gen unr ∧
    (∃ v, tables_in_file fs name (if gen then GEN_SCFMAN_table else SCF_table)
          = Ok v ∧
          data self' !! (if gen then "GEN_SCFMAN" else "SCF") = Some v) ∧
    (∃ v, tables_in_file fs name (if unr then unrestricted_Mulliken_table
                                  else restricted_Mulliken_table) = Ok v ∧
          data self' !! (if unr then "unrestricted_Mulliken"
                         else "restricted_Mulliken") = Some v) ∧
    data self' !! "final_energy"
      = values_in_file fs name "final_energy" final_energy_pattern ∧
    data self' !! "S2"
      = (if unr then values_in_file fs name "S2" S2_pattern else None).
Proof.
  intros gen unr.
  assert (∃ p, Re.compile unrestricted_marker Re.no_flags = Some p)
    as [p1 Hp1] by (vm_compute; eauto).
  assert (∃ p, Re.compile GEN_SCFMAN_marker Re.no_flags = Some p)
    as [p2 Hp2] by (vm_compute; eauto).
  assert (__init__ fs name = init_plan fs gen unr (fresh name)) as Heq.
  { subst gen unr. unfold __init__, init_body, init_plan. fold (fresh name).
    fold unrestricted_marker GEN_SCFMAN_marker.
    destruct (fs name) as [text|] eqn:Hf.
    2: { rewrite !(bind_run (read_pattern fs [("unrestricted", _)] _ _ _)).
         by rewrite (read_pattern_no_file fs "unrestricted" _ _ false true py_str
                       (fresh name) Hp1 Hf). }
    change (default "" (Some text)) with text.
    apply bind_ext. intros [] s1 H1.
    destruct (probe_run fs "unrestricted" _ _ (fresh name) text Hp1 Hf)
      as (v1 & Hrun1 & Ht1).
    rewrite Hrun1 in H1. injection H1 as <-.
    apply bind_ext. intros [] s2 H2.
    destruct (probe_run fs "using_GEN_SCFMAN" _ _
                (set_data "unrestricted" v1 (fresh name)) text Hp2 Hf)
      as (v2 & Hrun2 & Ht2).
    rewrite Hrun2 in H2. injection H2 as <-.
    rewrite get_self_bind, data_get_set_eq, Ht2.
    etrans; [apply table_kind_run|]. symmetry.
    etrans; [apply plan_kind|]. symmetry.
    apply bind_ext. intros v3 s3 ->%table_read_effect.
    rewrite get_self_bind, !data_get_set_ne, data_get_set_eq, Ht1 by key_ne.
    etrans; [apply mulliken_kind_run|]. symmetry.
    etrans; [apply plan_kind|]. symmetry.
    apply bind_ext. intros v4 s4 ->%table_read_effect.
    apply bind_ext. intros [] s5 [w ->]%read_one_key.
    by rewrite get_self_bind, !data_get_set_ne, data_get_set_eq, Ht1 by key_ne. }
  split; [exact Heq|].
  intros self' Hret. rewrite Heq in Hret. clear Heq.
  clearbody gen unr.
  apply init_plan_steps in Hret
    as (w1 & w2 & v3 & v4 & w5 & Hv3 & Hv4 & Hw5 & s5 & Hs5 & Hlast).
  rewrite Hw5.
  assert (data self' = (if unr then <["S2" := default PNone
                                     (values_in_file fs name "S2" S2_pattern)]>
                        else id) (data s5) ∧
          (unr = true → is_Some (values_in_file fs name "S2" S2_pattern)))
    as [Hdata HS2].
  { destruct unr.
    - destruct Hlast as (w6 & Hw6 & ->). rewrite Hw6. simpl. eauto.
    - by subst self'. }
  rewrite Hdata, Hs5. clear Hdata Hs5 Hlast. simpl. split_and!.
  - unfold init_keys. destruct unr, gen; simpl;
      rewrite !dom_insert_L, dom_empty_L; set_solver.
  - exists v3. split; [done|]. destruct unr; simpl;
      rewrite !lookup_insert_ne by key_ne; by rewrite lookup_insert_eq.
  - exists v4. split; [done|]. destruct unr; simpl;
      rewrite !lookup_insert_ne by key_ne; by rewrite lookup_insert_eq.
  - destruct unr; simpl;
      rewrite ?lookup_insert_ne by key_ne; by rewrite lookup_insert_eq.
  - destruct unr; simpl.
    + rewrite lookup_insert_eq. by destruct (HS2 eq_refl) as [w ->].
    + rewrite !lookup_insert_ne by key_ne. done.
Qed.

Lemma init_reads_by_markers_witness :
  (∃ self',
     __init__ (one_file "qchem.out" sample_unrestricted) "qchem.out"
       = (Ok tt, self') ∧
     dom (data self') = init_keys true true ∧
     data self' !! "GEN_SCFMAN"
       = Some (PList [PList [PList [PStr "-75.10"; PStr "1.00"; PStr "-01"];
                             PList [PStr "-76.20"; PStr "1.00"; PStr "-03"]]]) ∧
     data self' !! "unrestricted_Mulliken"
       = Some (PList [PList [PList [PStr "O"; PStr "-0.70"; PStr "1.00"];
                             PList [PStr "H"; PStr "0.35"; PStr "0.00"]]]) ∧
     data self' !! "final_energy" = Some (PList [PList [PStr "-76.12345"]]) ∧
     data self' !! "S2" = Some (PList [PList [PStr "0.7500"]])) ∧
  (∃ self',
     __init__ (one_file "qchem.out" sample_restricted) "qchem.out"
       = (Ok tt, self') ∧
     dom (data self') = init_keys false false ∧
     data self' !! "SCF"
       = Some (PList [PList [PList [PStr "-75.10"; PStr "1.00"; PStr "-01"];
                             PList [PStr "-76.20"; PStr "1.00"; PStr "-03"]]]) ∧
     data self' !! "restricted_Mulliken"
       = Some (PList [PList [PList [PStr "O"; PStr "-0.70"];
                             PList [PStr "H"; PStr "0.35"]]]) ∧
     data self' !! "final_energy" = Some (PList [PList [PStr "-76.12345"]]) ∧
     data self' !! "S2" = None).
Proof.
  split.
  - pose (self' := (__init__ (one_file "qchem.out" sample_unrestricted)
                      "qchem.out").2).
    assert (__init__ (one_file "qchem.out" sample_unrestricted) "qchem.out"
            = (Ok tt, self')) as Hcall by (vm_compute; reflexivity).
    clearbody self'.
    destruct (init_reads_by_markers (one_file "qchem.out" sample_unrestricted)
                "qchem.out") as [_ H].
    destruct (H self' Hcall)
      as (Hdom & (v3 & Hv3 & Hd3) & (v4 & Hv4 & Hd4) & Hfin & HS2).
    assert (marked GEN_SCFMAN_marker
              (default "" (one_file "qchem.out" sample_unrestricted "qchem.out"))
            = true) as Egen by (vm_compute; reflexivity).
    assert (marked unrestricted_marker
              (default "" (one_file "qchem.out" sample_unrestricted "qchem.out"))
            = true) as Eunr by (vm_compute; reflexivity).
    clear H. rewrite Egen in Hdom, Hv3, Hd3. rewrite Eunr in Hdom, Hv4, Hd4, HS2.
    exists self'. split; [exact Hcall|]. split; [exact Hdom|].
    split; [rewrite Hd3; vm_compute in Hv3; by injection Hv3 as <-|].
    split; [rewrite Hd4; vm_compute in Hv4; by injection Hv4 as <-|].
    split; [rewrite Hfin; vm_compute; reflexivity|].
    rewrite HS2. vm_compute. reflexivity.
  - pose (self' := (__init__ (one_file "qchem.out" sample_restricted)
                      "qchem.out").2).
    assert (__init__ (one_file "qchem.out" sample_restricted) "qchem.out"
            = (Ok tt, self')) as Hcall by (vm_compute; reflexivity).
    clearbody self'.
    destruct (init_reads_by_markers (one_file "qchem.out" sample_restricted)
                "qchem.out") as [_ H].
    destruct (H self' Hcall)
      as (Hdom & (v3 & Hv3 & Hd3) & (v4 & Hv4 & Hd4) & Hfin & HS2).
    assert (marked GEN_SCFMAN_marker
              (default "" (one_file "qchem.out" sample_restricted "qchem.out"))
            = false) as Egen by (vm_compute; reflexivity).
    assert (marked unrestricted_marker
              (default "" (one_file "qchem.out" sample_restricted "qchem.out"))
            = false) as Eunr by (vm_compute; reflexivity).
    clear H. rewrite Egen in Hdom, Hv3, Hd3. rewrite Eunr in Hdom, Hv4, Hd4, HS2.
    exists self'. split; [exact Hcall|]. split; [exact Hdom|].
    split; [rewrite Hd3; vm_compute in Hv3; by injection Hv3 as <-|].
    split; [rewrite Hd4; vm_compute in Hv4; by injection Hv4 as <-|].
    split; [rewrite Hfin; vm_compute; reflexivity|].
    exact HS2.
Defined.

(** C7, as the claim has it, fails: the probes go through the file line
    by line, so a text that matches the marker pattern only across the
    end of a line does not select the [GEN_SCFMAN] table. Here the
    pattern matches the text, with the newline before the marker words
    for its leading white space, and the constructor extracts the
    old-style [SCF] table and no [GEN_SCFMAN] table. *)
Lemma text_match_does_not_select :
  let out := __init__ (one_file "qchem.out" sample_marker_at_line_start)
               "qchem.out" in
  text_matches GEN_SCFMAN_marker sample_marker_at_line_start = true ∧
  out.1 = Ok tt ∧
  data out.2 !! "using_GEN_SCFMAN" = Some (PList []) ∧
  data out.2 !! "GEN_SCFMAN" = None ∧
  data out.2 !! "SCF"
    = Some (PList [PList [PList [PStr "-75.10"; PStr "1.00"; PStr "-01"];
                          PList [PStr "-76.20"; PStr "1.00"; PStr "-03"]]]).
Proof.
  intros out.
  split; [vm_compute; reflexivity|]. split; [vm_compute; reflexivity|].
  split; [vm_compute; reflexivity|]. split; vm_compute; reflexivity.
Qed.
